(** * Star Battle solver: a shallow embedding of [ImprovedStarBattleSolver]
    and of the size check of [StarBattleApp.solve], with the properties the
    specification states about them.

    Conventions of the embedding.
    - A cell is a pair of naturals [(r, c)]; all cells the program handles
      come from [range(n)] or from the bounds-checked neighbour table.
    - [rows_needed] and [cols_needed] are lists of integers, [regs_needed]
      and [forbidden_counts] (Python [defaultdict]s) are finite maps read
      with the default [0], [solution] is a finite set of cells.
    - [region_cells] is an association list in first-insertion order, the
      iteration order of a Python [dict].
    - [time.time()] is external: the outcome of the deadline test of the
      i-th call of [backtrack] is given by a function [clock].
    - Loops that are not bounded by a [range] carry a fuel argument:
      [n * n + 1] is enough for both of them ([propagate_constraints_ends],
      [solve_returns]).
    - The solver object carries a ghost [history] of its states, so that
      "at every state reached" is a statement on a list.
    - The module [Store] models the attributes as references to mutable
      objects, for the one property that depends on what a copy shares. *)

From stdpp Require Import gmap list.
From Stdlib Require Import ZArith Lia.

Local Open Scope Z_scope.

(** * The program *)

(** ** Constraint state *)

(** The five attributes that [backtrack] copies into its snapshot. *)
Record Tracked : Type := mkTracked {
  rows_needed : list Z;
  cols_needed : list Z;
  regs_needed : gmap Z Z;
  forbidden_counts : gmap (nat * nat) Z;
  solution : gset (nat * nat)
}.

(** The mutating operations of the solver. *)
Inductive Op : Type :=
  | OpInit
  | OpForced (rc : nat * nat)
  | OpPlace (rc : nat * nat)
  | OpRestore
  | OpForbid (rc : nat * nat)
  | OpUnforbid (rc : nat * nat).

(** The solver object: the tracked attributes, the two statistics counters,
    and a ghost [history] that records the tracked attributes after every
    mutating operation, newest first.  No function reads [history]. *)
Record Solver : Type := mkSolver {
  tracked : Tracked;
  nodes_visited : nat;
  propagations : nat;
  history : list (Op * Tracked)
}.

(** Results of the functions that can raise or that carry fuel. *)
Inductive Res (A : Type) : Type :=
  | Ret (a : A)
  | Raise
  | OutOfFuel.
Arguments Ret {A} a.
Arguments Raise {A}.
Arguments OutOfFuel {A}.

(** [d.get(key, 0)] and the read of a [defaultdict(int)]. *)
Definition get0 `{Countable K} (m : gmap K Z) (key : K) : Z := default 0 (m !! key).

(** [l[i]] for an index in range. *)
Definition idx (l : list Z) (i : nat) : Z := default 0 (l !! i).

(** [d[key] += delta] on a [defaultdict(int)]. *)
Definition bump `{Countable K} (delta : Z) (m : gmap K Z) (key : K) : gmap K Z :=
  <[key := get0 m key + delta]> m.

(** Append to the list stored under [rid], creating the entry at the end
    when [rid] is new: [region_cells[rid].append(rc)]. *)
Fixpoint assoc_append (rid : Z) (rc : nat * nat) (l : list (Z * list (nat * nat)))
  : list (Z * list (nat * nat)) :=
  match l with
  | [] => [(rid, [rc])]
  | (rid', cs) :: l' =>
      if rid' =? rid then (rid', cs ++ [rc]) :: l'
      else (rid', cs) :: assoc_append rid rc l'
  end.

(** [region_cells[rid]]. *)
Fixpoint assoc_cells (rid : Z) (l : list (Z * list (nat * nat))) : list (nat * nat) :=
  match l with
  | [] => []
  | (rid', cs) :: l' => if rid' =? rid then cs else assoc_cells rid l'
  end.

(** Install the tracked attributes [t] and record them in the history. *)
Definition log (op : Op) (t : Tracked) (s : Solver) : Solver :=
  mkSolver t (nodes_visited s) (propagations s) ((op, t) :: history s).

Module ImprovedStarBattleSolver.
Section Solver.

Variable n : nat.
Variable regions : list (list Z).
Variable k : Z.
Variable unlabeled : Z.

(** [self.regions[r][c]].  On an [n] by [n] matrix every read is in
    range; a read outside the matrix, where the source raises an
    [IndexError], is given the value [unlabeled] here, so statements about
    a solver built by [__init__] assume an [n] by [n] matrix. *)
Definition region_of (rc : nat * nat) : Z :=
  default unlabeled (regions !! rc.1 ≫= λ row, row !! rc.2).

Definition row_cells (r : nat) : list (nat * nat) := (λ c, (r, c)) <$> seq 0 n.
Definition col_cells (c : nat) : list (nat * nat) := (λ r, (r, c)) <$> seq 0 n.

(** The cells in the order of the nested [range(n)] loops. *)
Definition grid_cells : list (nat * nat) := seq 0 n ≫= row_cells.

(** [self.neighbors[(r, c)]], as computed in [__init__]. *)
Definition neighbors (rc : nat * nat) : list (nat * nat) :=
  dr ← [-1; 0; 1];
  dc ← [-1; 0; 1];
  if (dr =? 0) && (dc =? 0) then []
  else
    let nr := Z.of_nat rc.1 + dr in
    let nc := Z.of_nat rc.2 + dc in
    if (0 <=? nr) && (nr <? Z.of_nat n) && (0 <=? nc) && (nc <? Z.of_nat n)
    then [(Z.to_nat nr, Z.to_nat nc)] else [].

(** [self.region_cells], built in [__init__]. *)
Definition region_cells : list (Z * list (nat * nat)) :=
  foldl (λ acc rc,
           let rid := region_of rc in
           if rid =? unlabeled then acc else assoc_append rid rc acc)
        [] grid_cells.

(** The state after [__init__] on an [n] by [n] matrix (on a smaller one
    the loop over the cells raises an [IndexError] in the source). *)
Definition init_tracked : Tracked :=
  mkTracked (replicate n k) (replicate n k)
            (foldl (λ m rid, <[rid := k]> m) ∅ (region_cells.*1))
            ∅ ∅.

Definition init : Solver := mkSolver init_tracked 0 0 [(OpInit, init_tracked)].

Definition has_star (t : Tracked) (rc : nat * nat) : bool := bool_decide (rc ∈ solution t).

Definition can_place_star (t : Tracked) (rc : nat * nat) : bool :=
  if has_star t rc then false
  else if 0 <? get0 (forbidden_counts t) rc then false
  else if (idx (rows_needed t) rc.1 <=? 0) || (idx (cols_needed t) rc.2 <=? 0) then false
  else
    let rid := region_of rc in
    if negb (rid =? unlabeled) && (get0 (regs_needed t) rid <=? 0) then false
    else forallb (λ nb, negb (has_star t nb)) (neighbors rc).

(** The body shared by [place_star_forced] and [place_star] once the
    adjacency test has passed: add the star, decrement the quotas and
    increment the forbidden count of every neighbour. *)
Definition put_star (t : Tracked) (rc : nat * nat) : Tracked :=
  let rid := region_of rc in
  mkTracked
    (<[rc.1 := idx (rows_needed t) rc.1 - 1]> (rows_needed t))
    (<[rc.2 := idx (cols_needed t) rc.2 - 1]> (cols_needed t))
    (if rid =? unlabeled then regs_needed t else bump (-1) (regs_needed t) rid)
    (foldl (bump 1) (forbidden_counts t) (neighbors rc))
    ({[rc]} ∪ solution t).

Definition place_star_forced (rc : nat * nat) (s : Solver) : bool * Solver :=
  if existsb (has_star (tracked s)) (neighbors rc) then (false, s)
  else (true, log (OpForced rc) (put_star (tracked s) rc) s).

(** The neighbours whose count becomes 1, in neighbour order. *)
Fixpoint new_forbidden_of (fc : gmap (nat * nat) Z) (nbs : list (nat * nat)) : list (nat * nat) :=
  match nbs with
  | [] => []
  | nb :: nbs' =>
      let fc' := bump 1 fc nb in
      if get0 fc' nb =? 1 then nb :: new_forbidden_of fc' nbs'
      else new_forbidden_of fc' nbs'
  end.

(** [None] stands for the [RuntimeError]. *)
Definition place_star (rc : nat * nat) (s : Solver) : option (list (nat * nat) * Solver) :=
  if existsb (has_star (tracked s)) (neighbors rc) then None
  else Some (new_forbidden_of (forbidden_counts (tracked s)) (neighbors rc),
             log (OpPlace rc) (put_star (tracked s) rc) s).

(** The loop [for c in valid_positions: if self.place_star_forced(r, c): changed = True]. *)
Fixpoint force_positions (valid_positions : list (nat * nat)) (changed : bool) (s : Solver)
  : bool * Solver :=
  match valid_positions with
  | [] => (changed, s)
  | rc :: rest =>
      let '(placed, s') := place_star_forced rc s in
      force_positions rest (if placed then true else changed) s'
  end.

(** One unit is a row, a column or a region: the read of its quota and the
    list of its cells.  The three loops of [propagate_constraints] have the
    same body; [check_units] is that body iterated over a list of units.
    The result [None] is the early [return False]. *)
Definition unit : Type := (Tracked → Z) * list (nat * nat).

Definition valid_positions_of (t : Tracked) (cells : list (nat * nat)) : list (nat * nat) :=
  filter (λ rc, can_place_star t rc) cells.

Fixpoint check_units (units : list unit) (changed : bool) (s : Solver)
  : option bool * Solver :=
  match units with
  | [] => (Some changed, s)
  | (needed, cells) :: rest =>
      if 0 <? needed (tracked s) then
        let valid_positions := valid_positions_of (tracked s) cells in
        if Z.of_nat (length valid_positions) =? needed (tracked s) then
          let '(changed', s') := force_positions valid_positions changed s in
          check_units rest changed' s'
        else if Z.of_nat (length valid_positions) <? needed (tracked s) then (None, s)
        else check_units rest changed s
      else check_units rest changed s
  end.

Definition row_units : list unit :=
  (λ r, (λ t : Tracked, idx (rows_needed t) r, row_cells r)) <$> seq 0 n.
Definition col_units : list unit :=
  (λ c, (λ t : Tracked, idx (cols_needed t) c, col_cells c)) <$> seq 0 n.
Definition region_units : list unit :=
  (λ e : Z * list (nat * nat), (λ t : Tracked, get0 (regs_needed t) e.1, e.2)) <$> region_cells.

(** One iteration of the [while changed] loop, after [changed = False]. *)
Definition propagate_pass (s : Solver) : option bool * Solver :=
  match check_units row_units false s with
  | (Some changed, s1) =>
      match check_units col_units changed s1 with
      | (Some changed', s2) => check_units region_units changed' s2
      | (None, s2) => (None, s2)
      end
  | (None, s1) => (None, s1)
  end.

Definition count_propagation (s : Solver) : Solver :=
  mkSolver (tracked s) (nodes_visited s) (S (propagations s)) (history s).

Fixpoint propagate_loop (fuel : nat) (s : Solver) : Res bool * Solver :=
  match fuel with
  | O => (OutOfFuel, s)
  | S fuel' =>
      match propagate_pass (count_propagation s) with
      | (None, s') => (Ret false, s')
      | (Some true, s') => propagate_loop fuel' s'
      | (Some false, s') => (Ret true, s')
      end
  end.

(** Every pass that changes something adds a star to the grid, so
    [n * n + 1] passes are enough (see [propagate_constraints_returns]). *)
Definition propagate_constraints (s : Solver) : Res bool * Solver :=
  propagate_loop (S (n * n)) s.

Definition count_available (t : Tracked) (cells : list (nat * nat)) : Z :=
  Z.of_nat (length (valid_positions_of t cells)).

(** The running best of [select_next_cell]: [best_cell], [min_choices]
    ([None] is [float('inf')]) and [max_constraints]. *)
Definition select_step (t : Tracked) (best : option (nat * nat) * option Z * Z)
    (rc : nat * nat) : option (nat * nat) * option Z * Z :=
  if can_place_star t rc then
    let available_in_row := count_available t (row_cells rc.1) in
    let available_in_col := count_available t (col_cells rc.2) in
    let rid := region_of rc in
    let available_in_region :=
      if rid =? unlabeled then 0 else count_available t (assoc_cells rid region_cells) in
    let choices := available_in_row + available_in_col + available_in_region in
    let constraints := count_available t (neighbors rc) in
    let '(best_cell, min_choices, max_constraints) := best in
    let better :=
      match min_choices with
      | None => true
      | Some m => (choices <? m) || ((choices =? m) && (max_constraints <? constraints))
      end in
    if better then (Some rc, Some choices, constraints) else best
  else best.

Definition select_next_cell (t : Tracked) : option (nat * nat) :=
  (foldl (select_step t) (None, None, -1) grid_cells).1.1.

Definition is_complete (t : Tracked) : bool :=
  forallb (λ x, x =? 0) (rows_needed t)
  && forallb (λ x, x =? 0) (cols_needed t)
  && forallb (λ x, x =? 0) ((map_to_list (regs_needed t)).*2).

Definition is_impossible (t : Tracked) : bool :=
  existsb (λ r, count_available t (row_cells r) <? idx (rows_needed t) r) (seq 0 n)
  || existsb (λ c, count_available t (col_cells c) <? idx (cols_needed t) c) (seq 0 n)
  || existsb (λ e : Z * list (nat * nat),
                count_available t e.2 <? get0 (regs_needed t) e.1) region_cells.

Definition take_snapshot (s : Solver) : Tracked := tracked s.

Definition _restore_from_snapshot (snapshot : Tracked) (s : Solver) : Solver :=
  log OpRestore snapshot s.

(** The flag of [validate_no_adjacent]; the offending pair it also returns
    is only printed. *)
Definition validate_no_adjacent (t : Tracked) : bool :=
  forallb (λ rc, forallb (λ nb, negb (has_star t nb)) (neighbors rc))
          (elements (solution t)).

Definition with_forbidden (fc : gmap (nat * nat) Z) (t : Tracked) : Tracked :=
  mkTracked (rows_needed t) (cols_needed t) (regs_needed t) fc (solution t).

(** [self.forbidden_counts[(r, c)] += 1] of branch B. *)
Definition forbid (rc : nat * nat) (s : Solver) : Solver :=
  log (OpForbid rc)
      (with_forbidden (bump 1 (forbidden_counts (tracked s)) rc) (tracked s)) s.

(** The decrement after branch B, with the removal of a zero entry. *)
Definition unforbid (rc : nat * nat) (s : Solver) : Solver :=
  let fc := bump (-1) (forbidden_counts (tracked s)) rc in
  let fc' := if get0 fc rc =? 0 then delete rc fc else fc in
  log (OpUnforbid rc) (with_forbidden fc' (tracked s)) s.

Definition visit (s : Solver) : Solver :=
  mkSolver (tracked s) (S (nodes_visited s)) (propagations s) (history s).

(** [self.forbidden_counts[(nr, nc)] -= 1], and the [del] of an entry
    that reaches zero. *)
Definition unbump (fc : gmap (nat * nat) Z) (nb : nat * nat) : gmap (nat * nat) Z :=
  let fc' := bump (-1) fc nb in
  if get0 fc' nb =? 0 then delete nb fc' else fc'.

(** [remove_star], which no method calls.  [None] stands for the
    [KeyError] of [set.remove] on a cell that holds no star and for the
    [IndexError] of a row or column out of range. *)
Definition remove_star (rc : nat * nat) (new_forbidden : list (nat * nat)) (t : Tracked)
  : option Tracked :=
  if has_star t rc then
    match rows_needed t !! rc.1, cols_needed t !! rc.2 with
    | Some x, Some y =>
        let rid := region_of rc in
        Some (mkTracked
                (<[rc.1 := x + 1]> (rows_needed t))
                (<[rc.2 := y + 1]> (cols_needed t))
                (if rid =? unlabeled then regs_needed t else bump 1 (regs_needed t) rid)
                (foldl unbump (forbidden_counts t) new_forbidden)
                (solution t ∖ {[rc]}))
    | _, _ => None
    end
  else None.

Section Search.

(** [clock i] tells whether the deadline test of the [i]-th call of
    [backtrack] finds the time budget exceeded. *)
Variable clock : nat → bool.

Fixpoint backtrack (fuel : nat) (s : Solver) : Res bool * Solver :=
  match fuel with
  | O => (OutOfFuel, s)
  | S fuel' =>
      let s0 := visit s in
      if clock (nodes_visited s0) then (Ret false, s0)
      else
        match propagate_constraints s0 with
        | (Ret false, s1) => (Ret false, s1)
        | (Ret true, s1) =>
            if is_complete (tracked s1) then (Ret true, s1)
            else if is_impossible (tracked s1) then (Ret false, s1)
            else
              match select_next_cell (tracked s1) with
              | None => (Ret false, s1)
              | Some rc =>
                  let snapshot := take_snapshot s1 in
                  match place_star rc s1 with
                  | None => (Raise, s1)
                  | Some (_, s2) =>
                      match backtrack fuel' s2 with
                      | (Ret true, s3) => (Ret true, s3)
                      | (Ret false, s3) =>
                          let s4 := forbid rc (_restore_from_snapshot snapshot s3) in
                          match backtrack fuel' s4 with
                          | (Ret true, s5) => (Ret true, s5)
                          | (Ret false, s5) =>
                              (Ret false, _restore_from_snapshot snapshot (unforbid rc s5))
                          | (Raise, s5) => (Raise, s5)
                          | (OutOfFuel, s5) => (OutOfFuel, s5)
                          end
                      | (Raise, s3) => (Raise, s3)
                      | (OutOfFuel, s3) => (OutOfFuel, s3)
                      end
                  end
              end
        | (Raise, s1) => (Raise, s1)
        | (OutOfFuel, s1) => (OutOfFuel, s1)
        end
  end.

(** [solve] on the solver object [s]; [Ret None] is the Python [None]. *)
Definition solve (fuel : nat) (s : Solver) : Res (option (gset (nat * nat))) * Solver :=
  match propagate_constraints s with
  | (Ret false, s1) => (Ret None, s1)
  | (Ret true, s1) =>
      if is_complete (tracked s1) then
        if validate_no_adjacent (tracked s1) then (Ret (Some (solution (tracked s1))), s1)
        else (Ret None, s1)
      else if is_impossible (tracked s1) then (Ret None, s1)
      else
        match backtrack fuel s1 with
        | (Ret true, s2) =>
            if validate_no_adjacent (tracked s2) then (Ret (Some (solution (tracked s2))), s2)
            else (Ret None, s2)
        | (Ret false, s2) => (Ret None, s2)
        | (Raise, s2) => (Raise, s2)
        | (OutOfFuel, s2) => (OutOfFuel, s2)
        end
  | (Raise, s1) => (Raise, s1)
  | (OutOfFuel, s1) => (OutOfFuel, s1)
  end.

End Search.
End Solver.
End ImprovedStarBattleSolver.

(** ** The presentation layer's entry point, up to the call of the solver *)

Module StarBattleApp.
Section App.

Variable n : nat.
Variable k : Z.
Variable regions : list (list Z).

(** What the user is shown. *)
Inductive Outcome : Type :=
  | ErrorNoRegion
  | ErrorRegionTooSmall (rid : Z) (size : Z)
  | NoSolution
  | Solved (sol : gset (nat * nat))
  | Crashed
  | NoFuel.

(** [np.max] of a flattened array; it raises on an empty one. *)
Definition np_max (l : list Z) : option Z :=
  match l with
  | [] => None
  | x :: l' => Some (foldl Z.max x l')
  end.

(** [region_sizes[rid] += 1] on a [defaultdict(int)], keeping insertion order. *)
Fixpoint assoc_incr (rid : Z) (l : list (Z * Z)) : list (Z * Z) :=
  match l with
  | [] => [(rid, 1)]
  | (rid', size) :: l' =>
      if rid' =? rid then (rid', size + 1) :: l' else (rid', size) :: assoc_incr rid l'
  end.

Definition region_sizes : list (Z * Z) :=
  foldl (λ acc rc,
           let rid := ImprovedStarBattleSolver.region_of regions (-1) rc in
           if rid =? -1 then acc else assoc_incr rid acc)
        [] (ImprovedStarBattleSolver.grid_cells n).

(** The first region of [region_sizes.items()] with [size < k]. *)
Fixpoint first_too_small (sizes : list (Z * Z)) : option (Z * Z) :=
  match sizes with
  | [] => None
  | (rid, size) :: rest => if size <? k then Some (rid, size) else first_too_small rest
  end.

Definition solve (clock : nat → bool) (fuel : nat) : Outcome :=
  match np_max (concat regions) with
  | None => Crashed
  | Some m =>
      if m =? -1 then ErrorNoRegion
      else
        match first_too_small region_sizes with
        | Some (rid, size) => ErrorRegionTooSmall rid size
        | None =>
            let solver := ImprovedStarBattleSolver.init n regions k (-1) in
            match (ImprovedStarBattleSolver.solve n regions (-1) clock fuel solver).1 with
            | Ret None => NoSolution
            | Ret (Some solution) =>
                if decide (solution = ∅) then NoSolution else Solved solution
            | Raise => Crashed
            | OutOfFuel => NoFuel
            end
        end
  end.

End App.

(** The region matrix that [create_board] and [reset_board] install:
    [np.full((n, n), -1)]. *)
Definition create_board (n : nat) : list (list Z) := replicate n (replicate n (-1)).

(** The region matrix after [mark_cell(r, c)] with the selected colour
    index: [self.regions[r][c] = color_idx], an assignment into the array
    of 64-bit integers that [create_board] made.  The board has a button
    for the cells of the matrix only; [None] stands for the [IndexError]
    of any other cell, and for the [OverflowError] of an index that is not
    a 64-bit integer, which leaves the matrix as it was. *)
Definition mark_cell (regions : list (list Z)) (r c : nat) (color_idx : Z)
  : option (list (list Z)) :=
  match regions !! r with
  | Some row =>
      if decide (c < length row)%nat then
        if decide (-9223372036854775808 ≤ color_idx < 9223372036854775808)
        then Some (<[r := <[c := color_idx]> row]> regions)
        else None
      else None
  | None => None
  end.

End StarBattleApp.

(** ** The objects behind the tracked attributes

    The attributes of the solver are references to mutable Python objects,
    and a snapshot is a dictionary of five fresh copies.  This store keeps
    the references apart, so that what a restore reads back depends on who
    may have mutated which object. *)

Module Store.

Inductive Obj : Type :=
  | ListObj (l : list Z)
  | RegsObj (m : gmap Z Z)
  | CountsObj (m : gmap (nat * nat) Z)
  | SetObj (X : gset (nat * nat)).

(** The attributes of [self], or the values of a snapshot dictionary. *)
Record Refs : Type := mkRefs {
  ref_rows_needed : nat;
  ref_cols_needed : nat;
  ref_regs_needed : nat;
  ref_forbidden_counts : nat;
  ref_solution : nat
}.

Definition refs_list (r : Refs) : list nat :=
  [ref_rows_needed r; ref_cols_needed r; ref_regs_needed r;
   ref_forbidden_counts r; ref_solution r].

Definition alloc (h : gmap nat Obj) (o : Obj) : nat * gmap nat Obj :=
  let a := fresh (dom h) in (a, <[a := o]> h).

(** [list(x)], [dict(x)], [set(x)], [defaultdict(int, x)]: a new object
    with the contents of the old one. *)
Definition copy (h : gmap nat Obj) (a : nat) : option (nat * gmap nat Obj) :=
  o ← h !! a; Some (alloc h o).

Definition copy_all (h : gmap nat Obj) (r : Refs) : option (Refs * gmap nat Obj) :=
  '(a1, h1) ← copy h (ref_rows_needed r);
  '(a2, h2) ← copy h1 (ref_cols_needed r);
  '(a3, h3) ← copy h2 (ref_regs_needed r);
  '(a4, h4) ← copy h3 (ref_forbidden_counts r);
  '(a5, h5) ← copy h4 (ref_solution r);
  Some (mkRefs a1 a2 a3 a4 a5, h5).

(** The snapshot literal of [backtrack]: the result is the dictionary. *)
Definition take_snapshot (h : gmap nat Obj) (self : Refs) : option (Refs * gmap nat Obj) :=
  copy_all h self.

(** [_restore_from_snapshot]: the result is the new binding of [self]. *)
Definition _restore_from_snapshot (h : gmap nat Obj) (snapshot : Refs)
  : option (Refs * gmap nat Obj) :=
  copy_all h snapshot.

(** The in-place updates the methods of the solver perform. *)
Inductive Mutation : Type :=
  | AddRow (r : nat) (d : Z)
  | AddCol (c : nat) (d : Z)
  | AddReg (rid : Z) (d : Z)
  | AddCount (rc : nat * nat) (d : Z)
  | DelCount (rc : nat * nat)
  | AddStar (rc : nat * nat)
  | RemoveStar (rc : nat * nat).

Definition mutate (m : Mutation) (self : Refs) (h : gmap nat Obj) : gmap nat Obj :=
  match m with
  | AddRow r d =>
      alter (λ o, match o with ListObj l => ListObj (<[r := idx l r + d]> l) | _ => o end)
            (ref_rows_needed self) h
  | AddCol c d =>
      alter (λ o, match o with ListObj l => ListObj (<[c := idx l c + d]> l) | _ => o end)
            (ref_cols_needed self) h
  | AddReg rid d =>
      alter (λ o, match o with RegsObj m => RegsObj (bump d m rid) | _ => o end)
            (ref_regs_needed self) h
  | AddCount rc d =>
      alter (λ o, match o with CountsObj m => CountsObj (bump d m rc) | _ => o end)
            (ref_forbidden_counts self) h
  | DelCount rc =>
      alter (λ o, match o with CountsObj m => CountsObj (delete rc m) | _ => o end)
            (ref_forbidden_counts self) h
  | AddStar rc =>
      alter (λ o, match o with SetObj X => SetObj ({[rc]} ∪ X) | _ => o end)
            (ref_solution self) h
  | RemoveStar rc =>
      alter (λ o, match o with SetObj X => SetObj (X ∖ {[rc]}) | _ => o end)
            (ref_solution self) h
  end.

(** The tracked attributes as [refs] shows them. *)
Definition read (h : gmap nat Obj) (refs : Refs) : option Tracked :=
  match h !! ref_rows_needed refs, h !! ref_cols_needed refs, h !! ref_regs_needed refs,
        h !! ref_forbidden_counts refs, h !! ref_solution refs with
  | Some (ListObj rows), Some (ListObj cols), Some (RegsObj regs),
    Some (CountsObj counts), Some (SetObj stars) =>
      Some (mkTracked rows cols regs counts stars)
  | _, _, _, _, _ => None
  end.

(** What can happen to the store and to [self] between taking a snapshot
    and restoring it: updates in place, further snapshots, and restores. *)
Inductive step : gmap nat Obj * Refs → gmap nat Obj * Refs → Prop :=
  | step_mutate m h self :
      step (h, self) (mutate m self h, self)
  | step_snapshot h self snapshot h' :
      take_snapshot h self = Some (snapshot, h') → step (h, self) (h', self)
  | step_restore h self snapshot self' h' :
      (∀ a, a ∈ refs_list snapshot → is_Some (h !! a)) →
      _restore_from_snapshot h snapshot = Some (self', h') → step (h, self) (h', self').

(** Every reference is bound to an object. *)
Definition valid (h : gmap nat Obj) (r : Refs) : Prop :=
  ∀ a, a ∈ refs_list r → is_Some (h !! a).

(** The snapshot [snapshot] is intact in the configuration [c]: its
    objects have the contents they had in [h1], and no attribute of [self]
    refers to them. *)
Definition intact (snapshot : Refs) (h1 : gmap nat Obj) (c : gmap nat Obj * Refs) : Prop :=
  (∀ a, a ∈ refs_list snapshot → is_Some (h1 !! a) ∧ c.1 !! a = h1 !! a)
  ∧ (∀ a, a ∈ refs_list c.2 → a ∉ refs_list snapshot)
  ∧ valid c.1 c.2.

End Store.

(** ** Instances used as examples *)

Module Examples.

(** Four 2 by 2 quadrants, one star each. *)
Definition quadrants : list (list Z) :=
  [[0; 0; 1; 1]; [0; 0; 1; 1]; [2; 2; 3; 3]; [2; 2; 3; 3]].

(** A 2 by 2 board with a single region: no solution for [k = 1]. *)
Definition tiny : list (list Z) := [[0; 0]; [0; 0]].

(** A 4 by 4 board with a single region, used with [k = 4]. *)
Definition crowded : list (list Z) := replicate 4 (replicate 4 1).

(** Two regions of two cells each on a 5 by 5 board, the second one
    inside row 0, used with [k = 2]. *)
Definition overfull : list (list Z) :=
  [[0; -1; 1; -1; 1];
   [-1; -1; -1; -1; -1];
   [0; -1; -1; -1; -1];
   [-1; -1; -1; -1; -1];
   [-1; -1; -1; -1; -1]].

(** A 4 by 4 board whose region 2 has a single cell, used with [k = 2]. *)
Definition undersized : list (list Z) :=
  [[1; 1; 1; 2]; [1; 1; 1; 1]; [1; 1; 1; 1]; [1; 1; 1; 1]].

(** A time budget that is never exceeded. *)
Definition never : nat → bool := λ _, false.

(** The objects of a fresh solver with [k = 1] on a board of size 1 whose
    cell is in region 0, and the attributes that refer to them. *)
Definition store0 : gmap nat Store.Obj :=
  <[0%nat := Store.ListObj [1]]> (<[1%nat := Store.ListObj [1]]>
  (<[2%nat := Store.RegsObj {[0 := 1]}]> (<[3%nat := Store.CountsObj ∅]>
  (<[4%nat := Store.SetObj ∅]> ∅)))).

Definition self0 : Store.Refs := Store.mkRefs 0 1 2 3 4.

(** The solver object a solve of the quadrant board ends in. *)
Definition quadrants_solved : Solver :=
  (ImprovedStarBattleSolver.solve 4 quadrants (-1) never 5
     (ImprovedStarBattleSolver.init 4 quadrants 1 (-1))).2.

(** A fresh solver of the quadrant board after a star on (0, 0). *)
Definition one_star : Solver :=
  let s := ImprovedStarBattleSolver.init 4 quadrants 1 (-1) in
  log (OpPlace (0, 0)%nat)
      (ImprovedStarBattleSolver.put_star 4 quadrants (-1) (tracked s) (0, 0)%nat) s.

(** The empty 4 by 4 board after a click on (1, 2) with colour index 0. *)
Definition blank_marked : list (list Z) :=
  [[-1; -1; -1; -1]; [-1; -1; 0; -1]; [-1; -1; -1; -1]; [-1; -1; -1; -1]].

End Examples.

(** * Specification *)

Import ImprovedStarBattleSolver.

(** Counting the members of a set along a duplicate-free list. *)
Definition count_in (X : gset (nat * nat)) (cells : list (nat * nat)) : Z :=
  Z.of_nat (length (filter (λ rc, rc ∈ X) cells)).

(** The sizes of the lists of a region table. *)
Definition sizes_of (cells : list (Z * list (nat * nat))) : list (Z * Z) :=
  (λ e, (e.1, Z.of_nat (length e.2))) <$> cells.

Section Properties.

Variable n : nat.
Variable regions : list (list Z).
Variable k : Z.
Variable unlabeled : Z.

Local Abbreviation region_of := (region_of regions unlabeled).
Local Abbreviation row_cells := (row_cells n).
Local Abbreviation col_cells := (col_cells n).
Local Abbreviation grid_cells := (grid_cells n).
Local Abbreviation neighbors := (neighbors n).
Local Abbreviation region_cells := (region_cells n regions unlabeled).
Local Abbreviation can_place_star := (can_place_star n regions unlabeled).
Local Abbreviation put_star := (put_star n regions unlabeled).

(** ** Predicates on cells, states and solver objects *)

(** A cell of the [n] by [n] grid. *)
Definition in_grid (rc : nat * nat) : Prop := (rc.1 < n)%nat ∧ (rc.2 < n)%nat.

(** King adjacency: distinct cells whose coordinates differ by at most 1. *)
Definition king_adjacent (a b : nat * nat) : Prop :=
  a ≠ b ∧ Z.abs (Z.of_nat a.1 - Z.of_nat b.1) ≤ 1 ∧ Z.abs (Z.of_nat a.2 - Z.of_nat b.2) ≤ 1.

(** The cells labelled [rid], in row-major order. *)
Definition region_members (rid : Z) : list (nat * nat) :=
  filter (λ rc, region_of rc = rid) grid_cells.

(** A region identifier that labels at least one cell of the grid. *)
Definition labeled (rid : Z) : Prop :=
  rid ≠ unlabeled ∧ ∃ rc, in_grid rc ∧ region_of rc = rid.

(** One step of the loop that builds [region_cells]. *)
Definition region_step (acc : list (Z * list (nat * nat))) (rc : nat * nat) :=
  let rid := region_of rc in
  if rid =? unlabeled then acc else assoc_append rid rc acc.

(** The number of stars among [cells]. *)
Definition stars_in (t : Tracked) (cells : list (nat * nat)) : Z :=
  count_in (solution t) cells.

(** The number of neighbours of [rc] that hold a star. *)
Definition star_neighbors (t : Tracked) (rc : nat * nat) : Z := stars_in t (neighbors rc).

(** By how much the forbidden count of [rc] exceeds its star neighbours. *)
Definition excess (t : Tracked) (rc : nat * nat) : Z :=
  get0 (forbidden_counts t) rc - star_neighbors t rc.

(** The tables have the sizes [__init__] gave them, and every star is on
    the grid. *)
Record shaped (t : Tracked) : Prop := {
  shaped_rows : length (rows_needed t) = n;
  shaped_cols : length (cols_needed t) = n;
  shaped_regs : ∀ rid, rid ∈ dom (regs_needed t) ↔ labeled rid;
  shaped_solution : ∀ rc, rc ∈ solution t → in_grid rc
}.

(** Quota plus stars already placed is [k], in every unit. *)
Record quotas_ok (t : Tracked) : Prop := {
  quota_rows : ∀ r, (r < n)%nat → idx (rows_needed t) r + stars_in t (row_cells r) = k;
  quota_cols : ∀ c, (c < n)%nat → idx (cols_needed t) c + stars_in t (col_cells c) = k;
  quota_regs : ∀ rid, labeled rid →
    get0 (regs_needed t) rid + stars_in t (region_members rid) = k
}.

(** The forbidden count of a cell is the number of its star neighbours,
    or one more. *)
Definition counts_within_one (t : Tracked) : Prop :=
  ∀ rc, in_grid rc →
    star_neighbors t rc ≤ get0 (forbidden_counts t) rc ≤ star_neighbors t rc + 1.

(** The forbidden count of a cell is the number of its star neighbours. *)
Definition counts_exact (t : Tracked) : Prop :=
  ∀ rc, in_grid rc → get0 (forbidden_counts t) rc = star_neighbors t rc.

(** The invariant of the tracked attributes. *)
Record consistent (t : Tracked) : Prop := {
  cons_shaped : shaped t;
  cons_quotas : quotas_ok t;
  cons_counts : counts_within_one t
}.

(** The availability predicate of a cell, stated on the board: the cell
    holds no star and has no positive forbidden count, its row, its column
    and, when it is labelled, its region still need a star, and no star of
    the board is king-adjacent to it. *)
Definition available (t : Tracked) (rc : nat * nat) : Prop :=
  (rc ∉ solution t)
  ∧ get0 (forbidden_counts t) rc ≤ 0
  ∧ 0 < idx (rows_needed t) rc.1
  ∧ 0 < idx (cols_needed t) rc.2
  ∧ (region_of rc ≠ unlabeled → 0 < get0 (regs_needed t) (region_of rc))
  ∧ set_Forall (λ nb, in_grid nb → ¬ king_adjacent nb rc) (solution t).

#[global] Instance available_dec (t : Tracked) (rc : nat * nat) : Decision (available t rc).
Proof. unfold available, in_grid, king_adjacent. apply _. Defined.

(** The cells of the board, row by row. *)
Definition board : list (nat * nat) := r ← seq 0 n; (λ c, (r, c)) <$> seq 0 n.

(** The number of available cells of the board that satisfy [Q]. *)
Definition available_where (t : Tracked) (Q : nat * nat → Prop) `{!∀ x, Decision (Q x)} : Z :=
  Z.of_nat (length (filter (λ x, Q x ∧ available t x) board)).

(** The choices of a cell: the available cells of its row, of its column
    and, for a labelled cell, of its region. *)
Definition choices (t : Tracked) (rc : nat * nat) : Z :=
  available_where t (λ x, x.1 = rc.1)
  + available_where t (λ x, x.2 = rc.2)
  + (if decide (region_of rc = unlabeled) then 0
     else available_where t (λ x, region_of x = region_of rc)).

(** The constraints of a cell: the available cells king-adjacent to it. *)
Definition constraints (t : Tracked) (rc : nat * nat) : Z :=
  available_where t (λ x, king_adjacent x rc).

(** The units a pass of [propagate_constraints] examines, in order: the
    rows, the columns, then the regions in the order of the region table,
    each with the read of its quota and its cells. *)
Definition pass_units : list unit :=
  ((λ r, (λ t : Tracked, idx (rows_needed t) r, (λ c, (r, c)) <$> seq 0 n)) <$> seq 0 n)
  ++ ((λ c, (λ t : Tracked, idx (cols_needed t) c, (λ r, (r, c)) <$> seq 0 n)) <$> seq 0 n)
  ++ ((λ rid, (λ t : Tracked, get0 (regs_needed t) rid, region_members rid))
        <$> region_cells.*1).

(** The counts that the scan of [select_next_cell] computes for [rc]: the
    available cells in its row, its column and its region. *)
Definition scan_choices (t : Tracked) (rc : nat * nat) : Z :=
  count_available n regions unlabeled t (row_cells rc.1)
  + count_available n regions unlabeled t (col_cells rc.2)
  + (if region_of rc =? unlabeled then 0
     else count_available n regions unlabeled t (region_members (region_of rc))).

(** The available cells in the neighbour list of [rc]. *)
Definition scan_constraints (t : Tracked) (rc : nat * nat) : Z :=
  count_available n regions unlabeled t (neighbors rc).

(** [b] is at least as good as [x]: fewer choices, or as many choices and
    at least as many constraints. *)
Definition beats (t : Tracked) (b x : nat * nat) : Prop :=
  scan_choices t b < scan_choices t x
  ∨ (scan_choices t b = scan_choices t x ∧ scan_constraints t x ≤ scan_constraints t b).

(** The invariant of the scan of [select_next_cell] over the cells [seen]. *)
Definition select_inv (t : Tracked) (seen : list (nat * nat))
    (best : option (nat * nat) * option Z * Z) : Prop :=
  match best with
  | (None, min_choices, _) =>
      min_choices = None ∧ ∀ x, x ∈ seen → can_place_star t x = false
  | (Some b, min_choices, max_constraints) =>
      b ∈ seen ∧ can_place_star t b = true
      ∧ min_choices = Some (scan_choices t b) ∧ max_constraints = scan_constraints t b
      ∧ ∀ x, x ∈ seen → can_place_star t x = true → beats t b x
  end.

(** No forbid mark was logged in [h]. *)
Definition no_forbid (h : list (Op * Tracked)) : Prop :=
  ∀ e rc, e ∈ h → e.1 ≠ OpForbid rc.

(** Until the first forbid mark the forbidden counts are exact. *)
Definition exact_until_forbid (h : list (Op * Tracked)) : Prop :=
  ∀ later earlier, h = later ++ earlier → no_forbid earlier →
    Forall (λ e, counts_exact e.2) earlier.

(** The last logged entry is the current state. *)
Definition logged (s : Solver) : Prop :=
  ∃ op rest, history s = (op, tracked s) :: rest.

(** The invariant of the solver object: every state it went through is
    consistent. *)
Record sound (s : Solver) : Prop := {
  sound_logged : logged s;
  sound_history : Forall (λ e, consistent e.2) (history s);
  sound_exact : exact_until_forbid (history s)
}.

(** [s'] is reached from [s] by forced placements only. *)
Record forces (s s' : Solver) : Prop := {
  forces_history : ∃ new, history s' = new ++ history s
                          ∧ Forall (λ e, ∃ rc, e.1 = OpForced rc) new;
  forces_solution : solution (tracked s) ⊆ solution (tracked s');
  forces_excess : ∀ rc, in_grid rc → excess (tracked s') rc = excess (tracked s) rc;
  forces_nodes : nodes_visited s' = nodes_visited s
}.

(** The cells of every unit are distinct cells of the grid. *)
Definition units_ok (units : list unit) : Prop :=
  ∀ u, u ∈ units → NoDup u.2 ∧ ∀ rc, rc ∈ u.2 → in_grid rc.

(** [s'] comes after [s]: its history continues that of [s], and no
    forbidden count lost ground against the star neighbours. *)
Record extends (s s' : Solver) : Prop := {
  extends_history : ∃ new, history s' = new ++ history s;
  extends_excess : ∀ rc, in_grid rc → excess (tracked s) rc ≤ excess (tracked s') rc
}.

(** The region matrix is [n] by [n]. *)
Definition well_formed : Prop :=
  length regions = n ∧ Forall (λ row : list Z, length row = n) regions.

(** The Chebyshev distance of two cells. *)
Definition chebyshev (a b : nat * nat) : Z :=
  Z.max (Z.abs (Z.of_nat a.1 - Z.of_nat b.1)) (Z.abs (Z.of_nat a.2 - Z.of_nat b.2)).

(** The conditions of the puzzle on a set of cells. *)
Record valid_placement (sol : gset (nat * nat)) : Prop := {
  placement_in_grid : ∀ rc, rc ∈ sol → in_grid rc;
  placement_rows : ∀ r, (r < n)%nat → count_in sol (row_cells r) = k;
  placement_cols : ∀ c, (c < n)%nat → count_in sol (col_cells c) = k;
  placement_regions : ∀ rid, labeled rid → count_in sol (region_members rid) = k;
  placement_apart : ∀ a b, a ∈ sol → b ∈ sol → a ≠ b → 2 ≤ chebyshev a b;
  placement_size : Z.of_nat (size sol) = Z.of_nat n * k
}.

(** Every quota is at least 0. *)
Definition quotas_nonneg (t : Tracked) : Prop :=
  (∀ r, (r < n)%nat → 0 ≤ idx (rows_needed t) r)
  ∧ (∀ c, (c < n)%nat → 0 ≤ idx (cols_needed t) c)
  ∧ (∀ rid, labeled rid → 0 ≤ get0 (regs_needed t) rid).

(** Every quota is at most [k]. *)
Definition quotas_at_most_k (t : Tracked) : Prop :=
  (∀ r, (r < n)%nat → idx (rows_needed t) r ≤ k)
  ∧ (∀ c, (c < n)%nat → idx (cols_needed t) c ≤ k)
  ∧ (∀ rid, labeled rid → get0 (regs_needed t) rid ≤ k).

(** A unit that cannot be satisfied in any consistent state. *)
Definition doomed (u : unit) : Prop :=
  ∀ t, consistent t →
    0 < u.1 t ∧ Z.of_nat (length (valid_positions_of n regions unlabeled t u.2)) < u.1 t.

(** The number of cells of the grid that hold a star. *)
Definition grid_stars (t : Tracked) : nat :=
  length (filter (λ rc, rc ∈ solution t) grid_cells).

(** The number of cells of the grid that hold no star and have no
    positive forbidden count: the cells a search may still branch on. *)
Definition open_cells (t : Tracked) : nat :=
  length (filter (λ rc, (rc ∉ solution t) ∧ get0 (forbidden_counts t) rc ≤ 0) grid_cells).

(** No star has a star among its neighbours. *)
Definition apart (t : Tracked) : Prop :=
  ∀ rc nb, rc ∈ solution t → nb ∈ neighbors rc → nb ∉ solution t.

(** A unit that a pass of [propagate_constraints] leaves alone: it needs
    no star, or it has more available cells than it needs. *)
Definition quiet (t : Tracked) (u : unit) : Prop :=
  u.1 t ≤ 0 ∨ u.1 t < Z.of_nat (length (valid_positions_of n regions unlabeled t u.2)).

(** The units in the order in which a pass examines them. *)
Definition all_units : list unit :=
  row_units n ++ col_units n ++ region_units n regions unlabeled.

(** A state in which a pass of [propagate_constraints] finds nothing to do. *)
Definition settled (t : Tracked) : Prop := ∀ u, u ∈ all_units → quiet t u.



(** * Properties *)

(** ** Auxiliary facts on lists, maps and counting *)

Lemma get0_bump `{Countable K} (d : Z) (m : gmap K Z) (key key' : K) :
  get0 (bump d m key) key' = if decide (key = key') then get0 m key + d else get0 m key'.
Proof.
  unfold get0, bump. rewrite lookup_insert. case_decide; subst; simpl; done.
Qed.

Lemma get0_foldl_bump `{Countable K} (m : gmap K Z) (keys : list K) (key : K) :
  NoDup keys →
  get0 (foldl (bump 1) m keys) key = get0 m key + (if decide (key ∈ keys) then 1 else 0).
Proof.
  intros Hnd. revert m. induction Hnd as [|x l Hx Hnd IH]; intros m; cbn [foldl].
  - rewrite decide_False; [lia | apply not_elem_of_nil].
  - rewrite IH, get0_bump.
    destruct (decide (x = key)) as [Heq|Hne]; [subst x|].
    + rewrite (decide_False (P := key ∈ l)) by done.
      rewrite decide_True by apply list_elem_of_here. lia.
    + destruct (decide (key ∈ l)) as [Hin|Hin].
      * rewrite decide_True by (by apply list_elem_of_further). lia.
      * rewrite decide_False; [lia|]. rewrite elem_of_cons. naive_solver.
Qed.

Lemma idx_insert (l : list Z) (i j : nat) (x : Z) :
  (i < length l)%nat →
  idx (<[i := x]> l) j = if decide (i = j) then x else idx l j.
Proof.
  intros Hi. unfold idx. case_decide; subst.
  - by rewrite list_lookup_insert_eq.
  - by rewrite list_lookup_insert_ne.
Qed.

Lemma count_in_nil X : count_in X [] = 0.
Proof. done. Qed.

Lemma count_in_cons X rc cells :
  count_in X (rc :: cells) = (if decide (rc ∈ X) then 1 else 0) + count_in X cells.
Proof.
  unfold count_in. rewrite filter_cons. case_decide; simpl; lia.
Qed.

Lemma count_in_app X l1 l2 : count_in X (l1 ++ l2) = count_in X l1 + count_in X l2.
Proof. unfold count_in. rewrite filter_app, length_app. lia. Qed.

Lemma count_in_nonneg X cells : 0 ≤ count_in X cells.
Proof. unfold count_in. lia. Qed.

Lemma count_in_add X rc cells :
  NoDup cells → rc ∉ X →
  count_in ({[rc]} ∪ X) cells = count_in X cells + (if decide (rc ∈ cells) then 1 else 0).
Proof.
  intros Hnd Hrc. induction Hnd as [|x l Hx Hnd IH].
  - rewrite !count_in_nil. rewrite decide_False; [done | apply not_elem_of_nil].
  - rewrite !count_in_cons, IH.
    destruct (decide (x = rc)) as [Heq|Hne]; [subst x|].
    + rewrite (decide_True (P := rc ∈ {[rc]} ∪ X)) by set_solver.
      rewrite (decide_False (P := rc ∈ X)) by done.
      rewrite (decide_False (P := rc ∈ l)) by done.
      rewrite decide_True by apply list_elem_of_here. lia.
    + assert (x ∈ {[rc]} ∪ X ↔ x ∈ X) as Hiff by set_solver.
      destruct (decide (rc ∈ l)) as [Hin|Hin].
      * rewrite (decide_True (P := rc ∈ x :: l)) by (by apply list_elem_of_further).
        destruct (decide (x ∈ X)).
        -- rewrite decide_True by (by apply Hiff). lia.
        -- rewrite decide_False by (by rewrite Hiff). lia.
      * rewrite (decide_False (P := rc ∈ x :: l)).
        2:{ rewrite elem_of_cons. naive_solver. }
        destruct (decide (x ∈ X)).
        -- rewrite decide_True by (by apply Hiff). lia.
        -- rewrite decide_False by (by rewrite Hiff). lia.
Qed.


(** ** The grid and the neighbour table *)

Lemma elem_of_row_cells r rc : rc ∈ row_cells r ↔ rc.1 = r ∧ (rc.2 < n)%nat.
Proof.
  unfold ImprovedStarBattleSolver.row_cells. rewrite list_elem_of_fmap. split.
  - intros (c & -> & Hc). apply elem_of_seq in Hc. simpl. lia.
  - intros [<- Hc]. exists rc.2. split; [by destruct rc|]. apply elem_of_seq. lia.
Qed.

Lemma elem_of_col_cells c rc : rc ∈ col_cells c ↔ rc.2 = c ∧ (rc.1 < n)%nat.
Proof.
  unfold ImprovedStarBattleSolver.col_cells. rewrite list_elem_of_fmap. split.
  - intros (r & -> & Hr). apply elem_of_seq in Hr. simpl. lia.
  - intros [<- Hr]. exists rc.1. split; [by destruct rc|]. apply elem_of_seq. lia.
Qed.

Lemma NoDup_row_cells r : NoDup (row_cells r).
Proof.
  apply NoDup_fmap_2; [|apply NoDup_seq]. intros c1 c2 Heq. congruence.
Qed.

Lemma NoDup_col_cells c : NoDup (col_cells c).
Proof.
  apply NoDup_fmap_2; [|apply NoDup_seq]. intros r1 r2 Heq. congruence.
Qed.

Lemma length_row_cells r : length (row_cells r) = n.
Proof. unfold ImprovedStarBattleSolver.row_cells. by rewrite length_fmap, length_seq. Qed.

Lemma elem_of_grid_cells rc : rc ∈ grid_cells ↔ in_grid rc.
Proof.
  unfold ImprovedStarBattleSolver.grid_cells, in_grid. rewrite list_elem_of_bind. split.
  - intros (r & Hrc & Hr). apply elem_of_row_cells in Hrc. apply elem_of_seq in Hr. lia.
  - intros [Hr Hc]. exists rc.1. split; [by apply elem_of_row_cells|]. apply elem_of_seq. lia.
Qed.

Lemma NoDup_grid_cells : NoDup grid_cells.
Proof.
  apply NoDup_bind; [| intros; apply NoDup_row_cells | apply NoDup_seq].
  intros r1 r2 rc _ _ H1 H2.
  apply elem_of_row_cells in H1. apply elem_of_row_cells in H2. lia.
Qed.

Lemma length_grid_cells : length grid_cells = (n * n)%nat.
Proof.
  unfold ImprovedStarBattleSolver.grid_cells.
  assert (∀ l : list nat, length (l ≫= row_cells) = (length l * n)%nat) as Hgen.
  { induction l as [|r l IH]; [done|].
    rewrite bind_cons, length_app, IH, length_row_cells. simpl. lia. }
  by rewrite Hgen, length_seq.
Qed.

(** The neighbour table lists the cells of the grid at Chebyshev distance 1. *)
Lemma elem_of_neighbors rc nb :
  nb ∈ neighbors rc ↔ in_grid nb ∧ king_adjacent nb rc.
Proof.
  unfold ImprovedStarBattleSolver.neighbors, in_grid, king_adjacent.
  destruct rc as [r c], nb as [nr nc]. cbn [fst snd].
  rewrite list_elem_of_bind. split.
  - intros (dr & Hin & Hdr). apply list_elem_of_bind in Hin as (dc & Hin & Hdc).
    destruct ((dr =? 0) && (dc =? 0)) eqn:Hz; [by apply elem_of_nil in Hin|].
    match type of Hin with context [if ?b then _ else _] => destruct b eqn:Hb end;
      [|by apply elem_of_nil in Hin].
    apply list_elem_of_singleton in Hin. injection Hin as -> ->.
    assert (dr = -1 ∨ dr = 0 ∨ dr = 1) as Hdr'.
    { rewrite !elem_of_cons, elem_of_nil in Hdr. tauto. }
    assert (dc = -1 ∨ dc = 0 ∨ dc = 1) as Hdc'.
    { rewrite !elem_of_cons, elem_of_nil in Hdc. tauto. }
    apply andb_false_iff in Hz.
    rewrite !andb_true_iff in Hb. destruct Hb as [[[H1 H2] H3] H4].
    apply Z.leb_le in H1, H3. apply Z.ltb_lt in H2, H4.
    rewrite !Z.eqb_neq in Hz.
    split; [lia|]. split; [|lia].
    intros [= Ha Hb]. lia.
  - intros [[Hr Hc] (Hne & Hdr & Hdc)].
    exists (Z.of_nat nr - Z.of_nat r). split.
    2:{ rewrite !elem_of_cons. lia. }
    apply list_elem_of_bind. exists (Z.of_nat nc - Z.of_nat c). split.
    2:{ rewrite !elem_of_cons. lia. }
    match goal with |- context [if ?b then _ else _] => destruct b eqn:Hz end.
    { apply andb_true_iff in Hz as [H1 H2]. apply Z.eqb_eq in H1, H2.
      exfalso. apply Hne. f_equal; lia. }
    replace (Z.of_nat r + (Z.of_nat nr - Z.of_nat r)) with (Z.of_nat nr) by lia.
    replace (Z.of_nat c + (Z.of_nat nc - Z.of_nat c)) with (Z.of_nat nc) by lia.
    match goal with |- context [if ?b then _ else _] => destruct b eqn:Hb end.
    + rewrite !Nat2Z.id. apply list_elem_of_here.
    + exfalso. rewrite !andb_false_iff in Hb.
      rewrite !Z.leb_gt, !Z.ltb_ge in Hb. lia.
Qed.

Lemma NoDup_neighbors rc : NoDup (neighbors rc).
Proof.
  unfold ImprovedStarBattleSolver.neighbors.
  assert (NoDup [-1; 0; 1]) as Hnd3.
  { repeat (apply NoDup_cons; split; [rewrite ?elem_of_cons, ?elem_of_nil; lia|]).
    apply NoDup_nil_2. }
  apply NoDup_bind; [| |exact Hnd3].
  - intros dr1 dr2 nb _ _ H1 H2.
    apply list_elem_of_bind in H1 as (dc1 & H1 & _).
    apply list_elem_of_bind in H2 as (dc2 & H2 & _).
    repeat case_match; try (by apply elem_of_nil in H1); try (by apply elem_of_nil in H2).
    apply list_elem_of_singleton in H1, H2. subst nb.
    rewrite !andb_true_iff in *. rewrite !Z.leb_le, !Z.ltb_lt in *.
    apply pair_equal_spec in H2 as [Ha Hb]. lia.
  - intros dr _. apply NoDup_bind; [| |exact Hnd3].
    + intros dc1 dc2 nb _ _ H1 H2.
      repeat case_match; try (by apply elem_of_nil in H1); try (by apply elem_of_nil in H2).
      apply list_elem_of_singleton in H1, H2. subst nb.
      rewrite !andb_true_iff in *. rewrite !Z.leb_le, !Z.ltb_lt in *.
      apply pair_equal_spec in H2 as [Ha Hb]. lia.
    + intros dc _. repeat case_match; try apply NoDup_nil_2. apply NoDup_singleton.
Qed.

Lemma king_adjacent_sym a b : king_adjacent a b → king_adjacent b a.
Proof. unfold king_adjacent. intros (Hne & H1 & H2). split; [congruence|lia]. Qed.

Lemma neighbors_sym a b : in_grid a → a ∈ neighbors b → in_grid b → b ∈ neighbors a.
Proof.
  rewrite !elem_of_neighbors. intros Ha [_ Hadj] Hb. split; [done|].
  by apply king_adjacent_sym.
Qed.

Lemma neighbors_in_grid a b : a ∈ neighbors b → in_grid a.
Proof. rewrite elem_of_neighbors. tauto. Qed.

Lemma not_self_neighbor a : a ∉ neighbors a.
Proof. rewrite elem_of_neighbors. unfold king_adjacent. tauto. Qed.

(** ** The region table *)

Lemma assoc_append_keys rid rc acc x :
  x ∈ (assoc_append rid rc acc).*1 ↔ x = rid ∨ x ∈ acc.*1.
Proof.
  induction acc as [|[rid' cs] acc IH]; cbn [assoc_append].
  - rewrite fmap_cons, elem_of_cons. cbn. rewrite !elem_of_nil. done.
  - destruct (rid' =? rid) eqn:He.
    + apply Z.eqb_eq in He. subst. rewrite !fmap_cons, !elem_of_cons. cbn. tauto.
    + rewrite !fmap_cons, !elem_of_cons, IH. cbn. tauto.
Qed.

Lemma assoc_append_NoDup rid rc acc :
  NoDup acc.*1 → NoDup (assoc_append rid rc acc).*1.
Proof.
  induction acc as [|[rid' cs] acc IH]; cbn [assoc_append]; intros Hnd.
  - rewrite fmap_cons. apply NoDup_singleton.
  - rewrite fmap_cons in Hnd. apply NoDup_cons in Hnd as [Hni Hnd].
    destruct (rid' =? rid) eqn:He.
    + rewrite fmap_cons. by apply NoDup_cons.
    + rewrite fmap_cons. apply NoDup_cons. split; [|by apply IH].
      cbn. rewrite assoc_append_keys. apply Z.eqb_neq in He. cbn in Hni. naive_solver.
Qed.

Lemma assoc_cells_append rid rc acc rid' :
  assoc_cells rid' (assoc_append rid rc acc)
  = if decide (rid' = rid) then assoc_cells rid acc ++ [rc] else assoc_cells rid' acc.
Proof.
  induction acc as [|[rid0 cs0] acc IH]; cbn [assoc_append assoc_cells].
  - case_decide; subst.
    + by rewrite Z.eqb_refl.
    + destruct (rid =? rid') eqn:He; [apply Z.eqb_eq in He; congruence|done].
  - destruct (rid0 =? rid) eqn:He; cbn [assoc_cells].
    + apply Z.eqb_eq in He. subst rid0. case_decide; subst.
      * by rewrite Z.eqb_refl.
      * destruct (rid =? rid') eqn:He'; [apply Z.eqb_eq in He'; congruence|done].
    + apply Z.eqb_neq in He. rewrite IH. case_decide; subst.
      * destruct (rid0 =? rid) eqn:He'; [apply Z.eqb_eq in He'; congruence|done].
      * done.
Qed.

Lemma assoc_cells_absent rid acc : rid ∉ acc.*1 → assoc_cells rid acc = [].
Proof.
  induction acc as [|[rid0 cs0] acc IH]; cbn [assoc_cells]; [done|].
  rewrite fmap_cons, not_elem_of_cons. cbn. intros [Hne Hni].
  destruct (rid0 =? rid) eqn:He; [apply Z.eqb_eq in He; congruence|by apply IH].
Qed.

Lemma assoc_cells_elem rid cs acc :
  NoDup acc.*1 → (rid, cs) ∈ acc ↔ rid ∈ acc.*1 ∧ cs = assoc_cells rid acc.
Proof.
  induction acc as [|[rid0 cs0] acc IH]; cbn [assoc_cells]; intros Hnd.
  - rewrite fmap_nil, !elem_of_nil. tauto.
  - rewrite fmap_cons in Hnd. apply NoDup_cons in Hnd as [Hni Hnd]. cbn in Hni.
    rewrite fmap_cons, !elem_of_cons, (IH Hnd). cbn.
    destruct (rid0 =? rid) eqn:He.
    + apply Z.eqb_eq in He. subst rid0. split.
      * intros [[= ->]|[Hin _]]; [tauto|done].
      * intros [_ ->]. by left.
    + apply Z.eqb_neq in He. split.
      * intros [[= -> ->]|[Hin ->]]; [done|tauto].
      * intros [[->|Hin] ->]; [done|tauto].
Qed.

Lemma region_fold_keys l acc x :
  x ∈ (foldl region_step acc l).*1
  ↔ x ∈ acc.*1 ∨ (x ≠ unlabeled ∧ ∃ rc, rc ∈ l ∧ region_of rc = x).
Proof.
  revert acc. induction l as [|rc l IH]; intros acc; cbn [foldl].
  - split; [tauto|]. intros [?|(_ & rc & Hin & _)]; [done|by apply elem_of_nil in Hin].
  - rewrite IH. unfold region_step.
    destruct (region_of rc =? unlabeled) eqn:He.
    + apply Z.eqb_eq in He. split.
      * intros [?|(Hne & rc' & Hin & Hr)]; [tauto|]. right. split; [done|].
        exists rc'. split; [by apply list_elem_of_further|done].
      * intros [?|(Hne & rc' & Hin & Hr)]; [tauto|]. right. split; [done|].
        apply elem_of_cons in Hin as [->|Hin]; [congruence|]. by exists rc'.
    + apply Z.eqb_neq in He. rewrite assoc_append_keys. split.
      * intros [[->|?]|(Hne & rc' & Hin & Hr)]; [|tauto|].
        -- right. split; [done|]. exists rc. split; [apply list_elem_of_here|done].
        -- right. split; [done|]. exists rc'. split; [by apply list_elem_of_further|done].
      * intros [?|(Hne & rc' & Hin & Hr)]; [tauto|].
        apply elem_of_cons in Hin as [->|Hin]; [by left; left|]. right. split; [done|]. by exists rc'.
Qed.

Lemma region_fold_NoDup l acc : NoDup acc.*1 → NoDup (foldl region_step acc l).*1.
Proof.
  revert acc. induction l as [|rc l IH]; intros acc Hnd; cbn [foldl]; [done|].
  apply IH. unfold region_step. case_match; [done|by apply assoc_append_NoDup].
Qed.

Lemma region_fold_cells l acc rid :
  rid ≠ unlabeled →
  assoc_cells rid (foldl region_step acc l)
  = assoc_cells rid acc ++ filter (λ rc, region_of rc = rid) l.
Proof.
  intros Hrid. revert acc. induction l as [|rc l IH]; intros acc; cbn [foldl].
  - by rewrite filter_nil, app_nil_r.
  - rewrite IH, filter_cons. unfold region_step.
    destruct (region_of rc =? unlabeled) eqn:He.
    + apply Z.eqb_eq in He. rewrite decide_False by congruence. done.
    + rewrite assoc_cells_append. case_decide as Hd.
      * subst rid. rewrite decide_True by done. by rewrite <- app_assoc.
      * rewrite decide_False by congruence. done.
Qed.

Lemma region_cells_unfold : region_cells = foldl region_step [] grid_cells.
Proof. done. Qed.

Lemma NoDup_region_ids : NoDup region_cells.*1.
Proof. rewrite region_cells_unfold. apply region_fold_NoDup. apply NoDup_nil_2. Qed.

Lemma elem_of_region_ids rid : rid ∈ region_cells.*1 ↔ labeled rid.
Proof.
  rewrite region_cells_unfold, region_fold_keys. unfold labeled.
  rewrite fmap_nil, elem_of_nil. split.
  - intros [[]|(Hne & rc & Hin & Hr)]. split; [done|].
    exists rc. by rewrite <- elem_of_grid_cells.
  - intros (Hne & rc & Hin & Hr). right. split; [done|].
    exists rc. by rewrite elem_of_grid_cells.
Qed.

Lemma assoc_cells_region_cells rid :
  rid ≠ unlabeled → assoc_cells rid region_cells = region_members rid.
Proof. intros Hrid. rewrite region_cells_unfold. by rewrite region_fold_cells. Qed.

(** The table holds exactly the labelled regions, each with its cells. *)
Lemma elem_of_region_cells rid cs :
  (rid, cs) ∈ region_cells ↔ labeled rid ∧ cs = region_members rid.
Proof.
  rewrite (assoc_cells_elem _ _ _ NoDup_region_ids), elem_of_region_ids.
  split; intros [Hl ->]; (split; [done|]).
  - apply assoc_cells_region_cells, Hl.
  - symmetry. apply assoc_cells_region_cells, Hl.
Qed.

Lemma elem_of_region_members rid rc :
  rc ∈ region_members rid ↔ in_grid rc ∧ region_of rc = rid.
Proof.
  unfold region_members. rewrite list_elem_of_filter, elem_of_grid_cells. tauto.
Qed.

Lemma NoDup_region_members rid : NoDup (region_members rid).
Proof. apply NoDup_filter, NoDup_grid_cells. Qed.

(** ** Consistency of the tracked attributes *)

Lemma stars_in_put_star t rc cells :
  NoDup cells → rc ∉ solution t →
  stars_in (put_star t rc) cells = stars_in t cells + (if decide (rc ∈ cells) then 1 else 0).
Proof. intros. unfold stars_in. cbn. by apply count_in_add. Qed.

Lemma rows_needed_put_star t rc r :
  shaped t → in_grid rc →
  idx (rows_needed (put_star t rc)) r
  = idx (rows_needed t) r - (if decide (rc ∈ row_cells r) then 1 else 0).
Proof.
  intros Hs [Hr Hc]. cbn [ImprovedStarBattleSolver.put_star rows_needed].
  rewrite idx_insert by (rewrite (shaped_rows _ Hs); done).
  destruct (decide (rc.1 = r)) as [<-|Hne].
  - rewrite decide_True; [lia|]. by apply elem_of_row_cells.
  - rewrite decide_False; [lia|]. rewrite elem_of_row_cells. tauto.
Qed.

Lemma cols_needed_put_star t rc c :
  shaped t → in_grid rc →
  idx (cols_needed (put_star t rc)) c
  = idx (cols_needed t) c - (if decide (rc ∈ col_cells c) then 1 else 0).
Proof.
  intros Hs [Hr Hc]. cbn [ImprovedStarBattleSolver.put_star cols_needed].
  rewrite idx_insert by (rewrite (shaped_cols _ Hs); done).
  destruct (decide (rc.2 = c)) as [<-|Hne].
  - rewrite decide_True; [lia|]. by apply elem_of_col_cells.
  - rewrite decide_False; [lia|]. rewrite elem_of_col_cells. tauto.
Qed.

Lemma regs_needed_put_star t rc rid :
  rid ≠ unlabeled → in_grid rc →
  get0 (regs_needed (put_star t rc)) rid
  = get0 (regs_needed t) rid - (if decide (rc ∈ region_members rid) then 1 else 0).
Proof.
  intros Hrid Hg. cbn [ImprovedStarBattleSolver.put_star regs_needed].
  destruct (region_of rc =? unlabeled) eqn:He.
  - apply Z.eqb_eq in He. rewrite decide_False; [lia|].
    rewrite elem_of_region_members. intros [_ Hr]. congruence.
  - rewrite get0_bump. case_decide as Hd.
    + subst rid. rewrite decide_True; [lia|]. by apply elem_of_region_members.
    + rewrite decide_False; [lia|]. rewrite elem_of_region_members. tauto.
Qed.

Lemma put_star_shaped t rc : shaped t → in_grid rc → shaped (put_star t rc).
Proof.
  intros Hs Hg. split; cbn.
  - rewrite length_insert. apply Hs.
  - rewrite length_insert. apply Hs.
  - intros rid. destruct (region_of rc =? unlabeled) eqn:He; [apply Hs|].
    apply Z.eqb_neq in He. unfold bump. rewrite dom_insert_L, elem_of_union, elem_of_singleton.
    rewrite (shaped_regs _ Hs). split; [|tauto].
    intros [->|?]; [|done]. split; [done|]. by exists rc.
  - intros rc'. rewrite elem_of_union, elem_of_singleton. intros [->|?]; [done|].
    by apply Hs.
Qed.

Lemma put_star_quotas t rc :
  shaped t → quotas_ok t → in_grid rc → rc ∉ solution t → quotas_ok (put_star t rc).
Proof.
  intros Hs Hq Hg Hrc. split.
  - intros r Hr. rewrite rows_needed_put_star, stars_in_put_star by auto using NoDup_row_cells.
    pose proof (quota_rows _ Hq r Hr). lia.
  - intros c Hc. rewrite cols_needed_put_star, stars_in_put_star by auto using NoDup_col_cells.
    pose proof (quota_cols _ Hq c Hc). lia.
  - intros rid Hl. rewrite regs_needed_put_star by (done || apply Hl).
    rewrite stars_in_put_star by auto using NoDup_region_members.
    pose proof (quota_regs _ Hq rid Hl). lia.
Qed.

(** Placing a star raises the forbidden count and the number of star
    neighbours of every cell by the same amount. *)
Lemma put_star_excess t rc rc' :
  in_grid rc → rc ∉ solution t → in_grid rc' →
  excess (put_star t rc) rc' = excess t rc'.
Proof.
  intros Hg Hrc Hg'. unfold excess, star_neighbors.
  rewrite stars_in_put_star by auto using NoDup_neighbors.
  cbn [ImprovedStarBattleSolver.put_star forbidden_counts].
  rewrite get0_foldl_bump by apply NoDup_neighbors.
  destruct (decide (rc' ∈ neighbors rc)) as [Hin|Hni].
  - rewrite decide_True by (by apply neighbors_sym). lia.
  - rewrite decide_False; [lia|]. intros Hin. apply Hni. by apply neighbors_sym.
Qed.

Lemma put_star_consistent t rc :
  consistent t → in_grid rc → rc ∉ solution t → consistent (put_star t rc).
Proof.
  intros [Hs Hq Hc] Hg Hrc. split.
  - by apply put_star_shaped.
  - by apply put_star_quotas.
  - intros rc' Hg'. pose proof (put_star_excess t rc rc' Hg Hrc Hg') as He.
    pose proof (Hc rc' Hg'). unfold excess in He. lia.
Qed.

Lemma put_star_counts_exact t rc :
  counts_exact t → in_grid rc → rc ∉ solution t → counts_exact (put_star t rc).
Proof.
  intros Hc Hg Hrc rc' Hg'. pose proof (put_star_excess t rc rc' Hg Hrc Hg') as He.
  pose proof (Hc rc' Hg'). unfold excess in He. lia.
Qed.

(** The state built by [__init__]. *)
Lemma init_regs_dom (ids : list Z) (m : gmap Z Z) rid :
  rid ∈ dom (foldl (λ m rid, <[rid := k]> m) m ids) ↔ rid ∈ ids ∨ rid ∈ dom m.
Proof.
  revert m. induction ids as [|x ids IH]; intros m; cbn [foldl].
  - rewrite elem_of_nil. tauto.
  - rewrite IH, dom_insert_L, elem_of_cons, elem_of_union, elem_of_singleton. tauto.
Qed.

Lemma init_regs_get (ids : list Z) (m : gmap Z Z) rid :
  rid ∈ ids → get0 (foldl (λ m rid, <[rid := k]> m) m ids) rid = k.
Proof.
  revert m. induction ids as [|x ids IH]; intros m; cbn [foldl].
  - by rewrite elem_of_nil.
  - intros Hin. destruct (decide (rid ∈ ids)) as [Hi|Hi]; [by apply IH|].
    apply elem_of_cons in Hin as [->|?]; [|done].
    assert (∀ m', get0 m' x = k → get0 (foldl (λ m rid, <[rid := k]> m) m' ids) x = k) as Hkeep.
    { clear. induction ids as [|y ids IH]; intros m' Hm'; cbn [foldl]; [done|].
      apply IH. unfold get0. rewrite lookup_insert. case_decide; [done|exact Hm']. }
    apply Hkeep. unfold get0. by rewrite lookup_insert_eq.
Qed.

Lemma stars_in_empty t cells : solution t = ∅ → stars_in t cells = 0.
Proof.
  intros He. unfold stars_in, count_in. rewrite He.
  induction cells as [|x l IH]; [done|].
  rewrite filter_cons_False by set_solver. exact IH.
Qed.

Lemma init_consistent : consistent (init_tracked n regions k unlabeled).
Proof.
  split.
  - split; cbn.
    + apply length_replicate.
    + apply length_replicate.
    + intros rid. rewrite init_regs_dom, dom_empty_L, elem_of_region_ids. set_solver.
    + set_solver.
  - split; intros; rewrite stars_in_empty by done; cbn.
    + unfold idx. rewrite lookup_replicate_2 by done. cbn. lia.
    + unfold idx. rewrite lookup_replicate_2 by done. cbn. lia.
    + rewrite init_regs_get; [lia|]. by apply elem_of_region_ids.
  - intros rc _. unfold star_neighbors. rewrite stars_in_empty by done.
    unfold get0. cbn. rewrite lookup_empty. cbn. lia.
Qed.

Lemma init_counts_exact : counts_exact (init_tracked n regions k unlabeled).
Proof.
  intros rc _. unfold star_neighbors. rewrite stars_in_empty by done. done.
Qed.

(** ** The variable selector *)

Lemma select_step_choices t rc :
  count_available n regions unlabeled t (row_cells rc.1)
  + count_available n regions unlabeled t (col_cells rc.2)
  + (if region_of rc =? unlabeled then 0
     else count_available n regions unlabeled t (assoc_cells (region_of rc) region_cells))
  = scan_choices t rc.
Proof.
  unfold scan_choices. destruct (region_of rc =? unlabeled) eqn:He; [done|].
  apply Z.eqb_neq in He. by rewrite assoc_cells_region_cells.
Qed.

Lemma select_step_inv t seen best rc :
  select_inv t seen best →
  select_inv t (seen ++ [rc]) (select_step n regions unlabeled t best rc).
Proof.
  unfold select_step. rewrite select_step_choices. fold (scan_constraints t rc).
  destruct best as [[[b|] mc] mx]; cbn [select_inv].
  - intros (Hb & Hcan & -> & -> & Hbest).
    destruct (can_place_star t rc) eqn:Hrc.
    + destruct ((scan_choices t rc <? scan_choices t b)
                || (scan_choices t rc =? scan_choices t b) && (scan_constraints t b <? scan_constraints t rc))
        eqn:Hbetter; cbn [select_inv].
      * split; [rewrite elem_of_app, list_elem_of_singleton; tauto|].
        split; [done|]. split; [done|]. split; [done|].
        intros x Hx Hcx. unfold beats.
        apply orb_true_iff in Hbetter.
        rewrite andb_true_iff, Z.eqb_eq, !Z.ltb_lt in Hbetter.
        apply elem_of_app in Hx as [Hx|Hx].
        -- pose proof (Hbest x Hx Hcx) as Hbx. unfold beats in Hbx. lia.
        -- apply list_elem_of_singleton in Hx. subst x. lia.
      * split; [rewrite elem_of_app; tauto|].
        split; [done|]. split; [done|]. split; [done|].
        intros x Hx Hcx. apply elem_of_app in Hx as [Hx|Hx]; [by apply Hbest|].
        apply list_elem_of_singleton in Hx. subst x. unfold beats.
        apply orb_false_iff in Hbetter as [H1 H2].
        apply andb_false_iff in H2.
        rewrite Z.eqb_neq in H2. rewrite !Z.ltb_ge in *. lia.
    + cbn [select_inv]. split; [rewrite elem_of_app; tauto|].
      split; [done|]. split; [done|]. split; [done|].
      intros x Hx Hcx. apply elem_of_app in Hx as [Hx|Hx]; [by apply Hbest|].
      apply list_elem_of_singleton in Hx. congruence.
  - intros [-> Hnone]. destruct (can_place_star t rc) eqn:Hrc; cbn [select_inv].
    + split; [rewrite elem_of_app, list_elem_of_singleton; tauto|].
      split; [done|]. split; [done|]. split; [done|].
      intros x Hx Hcx. apply elem_of_app in Hx as [Hx|Hx].
      * rewrite (Hnone x Hx) in Hcx. done.
      * apply list_elem_of_singleton in Hx. subst x. unfold beats. lia.
    + split; [done|]. intros x Hx. apply elem_of_app in Hx as [Hx|Hx]; [by apply Hnone|].
      apply list_elem_of_singleton in Hx. by subst.
Qed.

Lemma select_fold_inv t cells seen best :
  select_inv t seen best →
  select_inv t (seen ++ cells) (foldl (select_step n regions unlabeled t) best cells).
Proof.
  revert seen best. induction cells as [|rc cells IH]; intros seen best Hinv; cbn [foldl].
  - by rewrite app_nil_r.
  - replace (seen ++ rc :: cells) with ((seen ++ [rc]) ++ cells) by (by rewrite <- app_assoc).
    apply IH. by apply select_step_inv.
Qed.

Lemma select_next_cell_inv t :
  select_inv t grid_cells
    (foldl (select_step n regions unlabeled t) (None, None, -1) grid_cells).
Proof.
  apply (select_fold_inv t grid_cells []). cbn. split; [done|].
  intros x Hx. by apply elem_of_nil in Hx.
Qed.

Lemma select_next_cell_Some t rc :
  select_next_cell n regions unlabeled t = Some rc →
  in_grid rc ∧ can_place_star t rc = true
  ∧ ∀ x, in_grid x → can_place_star t x = true → beats t rc x.
Proof.
  unfold select_next_cell. pose proof (select_next_cell_inv t) as Hinv.
  destruct (foldl _ _ _) as [[[b|] mc] mx]; cbn [fst]; [|done].
  intros [= ->]. destruct Hinv as (Hb & Hcan & _ & _ & Hbest).
  split; [by apply elem_of_grid_cells|]. split; [done|].
  intros x Hx. apply Hbest. by apply elem_of_grid_cells.
Qed.

Lemma select_next_cell_None t :
  select_next_cell n regions unlabeled t = None ↔
  ∀ x, in_grid x → can_place_star t x = false.
Proof.
  unfold select_next_cell. pose proof (select_next_cell_inv t) as Hinv.
  destruct (foldl _ _ _) as [[[b|] mc] mx]; cbn [fst].
  - destruct Hinv as (Hb & Hcan & _). split; [done|].
    intros Hall. rewrite Hall in Hcan; [done|]. by apply elem_of_grid_cells.
  - destruct Hinv as [_ Hnone]. split; [|done].
    intros _ x Hx. apply Hnone. by apply elem_of_grid_cells.
Qed.

(** ** What availability implies *)

(** The availability predicate, spelled out. *)
Lemma can_place_star_true t rc :
  can_place_star t rc = true ↔
    (rc ∉ solution t)
    ∧ get0 (forbidden_counts t) rc ≤ 0
    ∧ 0 < idx (rows_needed t) rc.1
    ∧ 0 < idx (cols_needed t) rc.2
    ∧ (region_of rc ≠ unlabeled → 0 < get0 (regs_needed t) (region_of rc))
    ∧ ∀ nb, nb ∈ neighbors rc → nb ∉ solution t.
Proof.
  unfold ImprovedStarBattleSolver.can_place_star, has_star.
  assert (forallb (λ nb, negb (bool_decide (nb ∈ solution t))) (neighbors rc) = true
          ↔ ∀ nb, nb ∈ neighbors rc → nb ∉ solution t) as Hnb.
  { rewrite forallb_forall. split; intros Hall nb Hin.
    - apply list_elem_of_In, Hall in Hin. apply negb_true_iff in Hin.
      by apply bool_decide_eq_false in Hin.
    - apply negb_true_iff, bool_decide_eq_false, Hall. by apply list_elem_of_In. }
  case_bool_decide as Hsol; [split; [done|tauto]|].
  destruct (0 <? get0 (forbidden_counts t) rc) eqn:Hfc.
  { apply Z.ltb_lt in Hfc. split; [done|]. lia. }
  apply Z.ltb_ge in Hfc.
  destruct (idx (rows_needed t) rc.1 <=? 0) eqn:Hr; cbn [orb].
  { apply Z.leb_le in Hr. split; [done|]. lia. }
  apply Z.leb_gt in Hr.
  destruct (idx (cols_needed t) rc.2 <=? 0) eqn:Hc.
  { apply Z.leb_le in Hc. split; [done|]. lia. }
  apply Z.leb_gt in Hc.
  destruct (region_of rc =? unlabeled) eqn:Hu; cbn [negb andb].
  { apply Z.eqb_eq in Hu. rewrite Hnb. split; [|tauto]. intros Hall.
    repeat (split; [done|]). done. }
  apply Z.eqb_neq in Hu.
  destruct (get0 (regs_needed t) (region_of rc) <=? 0) eqn:Hg.
  { apply Z.leb_le in Hg. split; [done|]. intros (_ & _ & _ & _ & Hreg & _).
    specialize (Hreg Hu). lia. }
  apply Z.leb_gt in Hg. rewrite Hnb. split; [|tauto]. intros Hall.
  repeat (split; [done|]). done.
Qed.

Lemma can_place_star_no_star t rc : can_place_star t rc = true → rc ∉ solution t.
Proof. rewrite can_place_star_true. tauto. Qed.

Lemma adjacent_star_false t rc :
  existsb (has_star t) (neighbors rc) = false ↔ ∀ nb, nb ∈ neighbors rc → nb ∉ solution t.
Proof.
  rewrite <- not_true_iff_false, existsb_exists. unfold has_star. split.
  - intros Hno nb Hin Hsol. apply Hno. exists nb. split; [by apply list_elem_of_In|].
    by apply bool_decide_eq_true.
  - intros Hall (nb & Hin & Hsol). apply bool_decide_eq_true in Hsol.
    apply list_elem_of_In in Hin. by apply (Hall nb).
Qed.

Lemma adjacent_star_true t rc :
  existsb (has_star t) (neighbors rc) = true ↔ ∃ nb, nb ∈ neighbors rc ∧ nb ∈ solution t.
Proof.
  rewrite existsb_exists. unfold has_star. split.
  - intros (nb & Hin & Hsol). exists nb. split; [by apply list_elem_of_In|].
    by apply bool_decide_eq_true in Hsol.
  - intros (nb & Hin & Hsol). exists nb. split; [by apply list_elem_of_In|].
    by apply bool_decide_eq_true.
Qed.

Lemma can_place_star_no_adjacent t rc :
  can_place_star t rc = true → existsb (has_star t) (neighbors rc) = false.
Proof. rewrite can_place_star_true, adjacent_star_false. tauto. Qed.

(** ** Invariants of the solver object *)

Lemma sound_consistent s : sound s → consistent (tracked s).
Proof.
  intros [(op & rest & Hh) Hall _]. rewrite Hh in Hall.
  by apply Forall_cons in Hall as [Hc _].
Qed.

Lemma no_forbid_cons e h : no_forbid (e :: h) ↔ (∀ rc, e.1 ≠ OpForbid rc) ∧ no_forbid h.
Proof.
  unfold no_forbid. split.
  - intros Hall. split.
    + intros rc. apply Hall, list_elem_of_here.
    + intros e' rc Hin. by apply Hall, list_elem_of_further.
  - intros [He Hh] e' rc Hin. apply elem_of_cons in Hin as [->|Hin]; [apply He|by apply Hh].
Qed.

Lemma no_forbid_app h1 h2 : no_forbid (h1 ++ h2) ↔ no_forbid h1 ∧ no_forbid h2.
Proof.
  unfold no_forbid. split.
  - intros Hall. split; intros e rc Hin; apply Hall; rewrite elem_of_app; tauto.
  - intros [H1 H2] e rc Hin. apply elem_of_app in Hin as [Hin|Hin]; [by apply H1|by apply H2].
Qed.

Lemma exact_until_forbid_cons e h :
  exact_until_forbid h → (no_forbid (e :: h) → counts_exact e.2) →
  exact_until_forbid (e :: h).
Proof.
  intros Hh He later earlier Heq Hnf. destruct later as [|e' later].
  - cbn in Heq. subst earlier. apply Forall_cons. split; [by apply He|].
    apply (Hh [] h); [done|]. by apply no_forbid_cons in Hnf as [_ ?].
  - cbn in Heq. injection Heq as -> ->. by apply (Hh later earlier).
Qed.

Lemma exact_until_forbid_head s :
  sound s → no_forbid (history s) → Forall (λ e, counts_exact e.2) (history s).
Proof. intros Hs Hnf. by apply (sound_exact _ Hs [] (history s)). Qed.

(** Logging a consistent state keeps the solver sound. *)
Lemma sound_log op t s :
  sound s → consistent t →
  (no_forbid ((op, t) :: history s) → counts_exact t) →
  sound (log op t s).
Proof.
  intros Hs Hc He. split; cbn.
  - by exists op, (history s).
  - apply Forall_cons. split; [done|apply Hs].
  - apply exact_until_forbid_cons; [apply Hs|done].
Qed.

Lemma sound_counts_exact s :
  sound s → no_forbid (history s) → counts_exact (tracked s).
Proof.
  intros Hs Hnf. pose proof (exact_until_forbid_head s Hs Hnf) as Hall.
  destruct (sound_logged _ Hs) as (op & rest & Hh). rewrite Hh in Hall.
  by apply Forall_cons in Hall as [? _].
Qed.

Lemma sound_put_star op s rc :
  sound s → in_grid rc → rc ∉ solution (tracked s) →
  sound (log op (put_star (tracked s) rc) s).
Proof.
  intros Hs Hg Hrc. apply sound_log; [done| |].
  - apply put_star_consistent; [by apply sound_consistent|done|done].
  - intros Hnf. apply no_forbid_cons in Hnf as [_ Hnf].
    apply put_star_counts_exact; [by apply sound_counts_exact|done|done].
Qed.

Lemma forces_refl s : forces s s.
Proof. split; try done. exists []. split; [done|apply Forall_nil_2]. Qed.

Lemma forces_trans s1 s2 s3 : forces s1 s2 → forces s2 s3 → forces s1 s3.
Proof.
  intros [(h1 & Hh1 & Hf1) Hs1 He1 Hn1] [(h2 & Hh2 & Hf2) Hs2 He2 Hn2]. split.
  - exists (h2 ++ h1). split; [by rewrite Hh2, Hh1, app_assoc|by apply Forall_app].
  - set_solver.
  - intros rc Hg. by rewrite He2, He1.
  - congruence.
Qed.

Lemma forces_put_star s rc :
  in_grid rc → rc ∉ solution (tracked s) →
  forces s (log (OpForced rc) (put_star (tracked s) rc) s).
Proof.
  intros Hg Hrc. split; cbn.
  - exists [(OpForced rc, put_star (tracked s) rc)]. split; [done|].
    apply Forall_singleton. by exists rc.
  - set_solver.
  - intros rc' Hg'. by apply put_star_excess.
  - done.
Qed.

Lemma size_put_star (X : gset (nat * nat)) rc : rc ∉ X → size ({[rc]} ∪ X) = S (size X).
Proof. intros Hrc. rewrite size_union by set_solver. by rewrite size_singleton. Qed.

(** The loop of forced placements over cells that hold no star yet. *)
Lemma force_positions_sound vs changed s :
  sound s → NoDup vs →
  (∀ v, v ∈ vs → in_grid v ∧ v ∉ solution (tracked s)) →
  let r := force_positions n regions unlabeled vs changed s in
  sound r.2 ∧ forces s r.2
  ∧ solution (tracked r.2) ⊆ solution (tracked s) ∪ list_to_set vs
  ∧ (changed = true → r.1 = true)
  ∧ (r.1 = true → changed = true
                   ∨ (size (solution (tracked s)) < size (solution (tracked r.2)))%nat).
Proof.
  revert changed s. induction vs as [|v vs IH]; intros changed s Hs Hnd Hvs; cbn zeta.
  - cbn. split; [done|]. split; [apply forces_refl|]. split; [set_solver|]. tauto.
  - apply NoDup_cons in Hnd as [Hv Hnd].
    destruct (Hvs v (list_elem_of_here _ _)) as [Hg Hvsol].
    cbn [force_positions]. unfold place_star_forced.
    destruct (existsb (has_star (tracked s)) (neighbors v)) eqn:Hadj.
    + specialize (IH changed s Hs Hnd).
      destruct IH as (H1 & H2 & H3 & H4 & H5).
      { intros v' Hv'. apply Hvs. by apply list_elem_of_further. }
      split; [done|]. split; [done|]. split; [|done].
      rewrite list_to_set_cons. set_solver.
    + pose proof (sound_put_star (OpForced v) s v Hs Hg Hvsol) as Hs'.
      pose proof (forces_put_star s v Hg Hvsol) as Hf'.
      specialize (IH true _ Hs' Hnd).
      destruct IH as (H1 & H2 & H3 & H4 & H5).
      { intros v' Hv'. split; [apply Hvs; by apply list_elem_of_further|].
        cbn. rewrite elem_of_union, elem_of_singleton. intros [->|Hin]; [done|].
        by apply (Hvs v'); [apply list_elem_of_further|]. }
      split; [done|]. split; [by eapply forces_trans|]. split.
      { cbn in H3. rewrite list_to_set_cons. set_solver. }
      split; [intros _; by apply H4|].
      intros _. right. pose proof (forces_solution _ _ H2) as Hsub. cbn in Hsub.
      apply subseteq_size in Hsub. rewrite size_put_star in Hsub by done. lia.
Qed.

Lemma valid_positions_spec t cells v :
  v ∈ valid_positions_of n regions unlabeled t cells ↔ can_place_star t v = true ∧ v ∈ cells.
Proof.
  unfold valid_positions_of. rewrite list_elem_of_filter. by rewrite Is_true_true.
Qed.

Lemma check_units_sound units changed s :
  sound s → units_ok units →
  let r := check_units n regions unlabeled units changed s in
  sound r.2 ∧ forces s r.2
  ∧ (r.1 = Some true → changed = true
        ∨ (size (solution (tracked s)) < size (solution (tracked r.2)))%nat).
Proof.
  revert changed s. induction units as [|[needed cells] units IH];
    intros changed s Hs Hok; cbn zeta.
  - cbn. split; [done|]. split; [apply forces_refl|]. intros [= ->]. by left.
  - assert (units_ok units) as Hok'.
    { intros u Hu. apply Hok. by apply list_elem_of_further. }
    destruct (Hok _ (list_elem_of_here _ _)) as [Hnd Hgrid]. cbn in Hnd, Hgrid.
    cbn [check_units].
    destruct (0 <? needed (tracked s)); [|by apply IH].
    destruct (_ =? needed (tracked s)).
    + pose proof (force_positions_sound
                    (valid_positions_of n regions unlabeled (tracked s) cells) changed s Hs)
        as Hforce.
      destruct (force_positions _ _ _ _ _ _) as [changed' s'] eqn:Hfp.
      destruct Hforce as (H1 & H2 & _ & H4 & H5).
      { by apply NoDup_filter. }
      { intros v Hv. apply valid_positions_spec in Hv as [Hcan Hin].
        split; [by apply Hgrid|by apply can_place_star_no_star]. }
      cbn in H1, H2, H4, H5.
      destruct (IH changed' s' H1 Hok') as (G1 & G2 & G3).
      split; [done|]. split; [by eapply forces_trans|].
      intros Hr. destruct (G3 Hr) as [->|Hlt].
      * destruct (H5 eq_refl) as [?|?]; [by left|right].
        pose proof (forces_solution _ _ G2) as Hsub.
        apply subseteq_size in Hsub. lia.
      * right. pose proof (forces_solution _ _ H2) as Hsub.
        apply subseteq_size in Hsub. lia.
    + destruct (_ <? needed (tracked s)); [|by apply IH].
      cbn. split; [done|]. split; [apply forces_refl|done].
Qed.

Lemma row_units_ok : units_ok (row_units n).
Proof.
  intros u Hu. apply list_elem_of_fmap in Hu as (r & -> & Hr). apply elem_of_seq in Hr. cbn.
  split; [apply NoDup_row_cells|]. intros rc Hrc. apply elem_of_row_cells in Hrc.
  unfold in_grid. lia.
Qed.

Lemma col_units_ok : units_ok (col_units n).
Proof.
  intros u Hu. apply list_elem_of_fmap in Hu as (c & -> & Hc). apply elem_of_seq in Hc. cbn.
  split; [apply NoDup_col_cells|]. intros rc Hrc. apply elem_of_col_cells in Hrc.
  unfold in_grid. lia.
Qed.

Lemma region_units_ok : units_ok (region_units n regions unlabeled).
Proof.
  intros u Hu. apply list_elem_of_fmap in Hu as ([rid cs] & -> & He).
  apply elem_of_region_cells in He as [_ ->]. cbn.
  split; [apply NoDup_region_members|]. intros rc Hrc.
  by apply elem_of_region_members in Hrc as [? _].
Qed.

(** ** Propagation keeps the solver sound and terminates *)

Lemma sound_count_propagation s : sound s → sound (count_propagation s).
Proof. intros [Hl Hh He]. split; cbn; done. Qed.

Lemma forces_count_propagation s : forces s (count_propagation s).
Proof. split; cbn; try done. exists []. split; [done|apply Forall_nil_2]. Qed.

Lemma propagate_pass_sound s :
  sound s →
  let r := propagate_pass n regions unlabeled s in
  sound r.2 ∧ forces s r.2
  ∧ (r.1 = Some true → (size (solution (tracked s)) < size (solution (tracked r.2)))%nat).
Proof.
  intros Hs. cbn zeta. unfold propagate_pass.
  pose proof (check_units_sound (row_units n) false s Hs row_units_ok) as Hrows.
  destruct (check_units _ _ _ (row_units n) false s) as [[ch1|] s1]; cbn in Hrows;
    destruct Hrows as (Hs1 & Hf1 & Hc1); [|cbn; done].
  pose proof (check_units_sound (col_units n) ch1 s1 Hs1 col_units_ok) as Hcols.
  destruct (check_units _ _ _ (col_units n) ch1 s1) as [[ch2|] s2]; cbn in Hcols;
    destruct Hcols as (Hs2 & Hf2 & Hc2); [|cbn; split; [done|]; split; [|done]].
  2:{ by eapply forces_trans. }
  pose proof (check_units_sound (region_units n regions unlabeled) ch2 s2 Hs2 region_units_ok)
    as Hregs.
  destruct (check_units _ _ _ (region_units n regions unlabeled) ch2 s2) as [r3 s3];
    cbn in Hregs; destruct Hregs as (Hs3 & Hf3 & Hc3). cbn.
  split; [done|]. split; [eapply forces_trans; [|done]; by eapply forces_trans|].
  intros Hr. pose proof (subseteq_size _ _ (forces_solution _ _ Hf1)) as Hle1.
  pose proof (subseteq_size _ _ (forces_solution _ _ Hf2)) as Hle2.
  pose proof (subseteq_size _ _ (forces_solution _ _ Hf3)) as Hle3.
  destruct (Hc3 Hr) as [->|Hlt]; [|lia].
  destruct (Hc2 eq_refl) as [->|Hlt]; [|lia].
  destruct (Hc1 eq_refl) as [?|Hlt]; [done|lia].
Qed.

Lemma propagate_loop_sound fuel s :
  sound s →
  let r := propagate_loop n regions unlabeled fuel s in
  sound r.2 ∧ forces s r.2.
Proof.
  revert s. induction fuel as [|fuel IH]; intros s Hs; cbn zeta; cbn [propagate_loop].
  - cbn. split; [done|apply forces_refl].
  - pose proof (propagate_pass_sound _ (sound_count_propagation s Hs)) as Hpass.
    destruct (propagate_pass _ _ _ _) as [[[|]|] s']; cbn in Hpass;
      destruct Hpass as (Hs' & Hf' & _).
    + destruct (IH s' Hs') as [G1 G2]. split; [done|].
      eapply forces_trans; [apply forces_count_propagation|]. by eapply forces_trans.
    + cbn. split; [done|]. eapply forces_trans; [apply forces_count_propagation|done].
    + cbn. split; [done|]. eapply forces_trans; [apply forces_count_propagation|done].
Qed.

Lemma solution_size_bound t : shaped t → (size (solution t) ≤ n * n)%nat.
Proof.
  intros Hs. rewrite <- length_grid_cells.
  rewrite <- (size_list_to_set (C := gset (nat * nat)) grid_cells) by apply NoDup_grid_cells.
  apply subseteq_size. intros rc Hrc. apply elem_of_list_to_set, elem_of_grid_cells.
  by apply Hs.
Qed.

Lemma propagate_loop_returns fuel s :
  sound s → (n * n < fuel + size (solution (tracked s)))%nat →
  ∃ b, (propagate_loop n regions unlabeled fuel s).1 = Ret b.
Proof.
  revert s. induction fuel as [|fuel IH]; intros s Hs Hfuel; cbn [propagate_loop].
  - pose proof (solution_size_bound _ (cons_shaped _ (sound_consistent _ Hs))). lia.
  - pose proof (propagate_pass_sound _ (sound_count_propagation s Hs)) as Hpass.
    destruct (propagate_pass _ _ _ _) as [[[|]|] s']; cbn in Hpass;
      destruct Hpass as (Hs' & Hf' & Hlt).
    + apply IH; [done|]. specialize (Hlt eq_refl). lia.
    + by exists true.
    + by exists false.
Qed.

Lemma propagate_constraints_sound s :
  sound s →
  let r := propagate_constraints n regions unlabeled s in
  sound r.2 ∧ forces s r.2.
Proof. apply propagate_loop_sound. Qed.

(** The [while] loop of [propagate_constraints] always ends. *)
Lemma propagate_constraints_returns s :
  sound s → ∃ b, (propagate_constraints n regions unlabeled s).1 = Ret b.
Proof. intros Hs. apply propagate_loop_returns; [done|lia]. Qed.

(** ** The search keeps the solver sound *)

Lemma extends_refl s : extends s s.
Proof. split; [by exists []|done]. Qed.

Lemma extends_trans s1 s2 s3 : extends s1 s2 → extends s2 s3 → extends s1 s3.
Proof.
  intros [(h1 & Hh1) He1] [(h2 & Hh2) He2]. split.
  - exists (h2 ++ h1). by rewrite Hh2, Hh1, app_assoc.
  - intros rc Hg. specialize (He1 rc Hg). specialize (He2 rc Hg). lia.
Qed.

Lemma forces_extends s s' : forces s s' → extends s s'.
Proof.
  intros [(new & Hh & _) _ He _]. split; [by exists new|].
  intros rc Hg. rewrite (He rc Hg). done.
Qed.

Lemma extends_log op t s :
  (∀ rc, in_grid rc → excess (tracked s) rc ≤ excess t rc) → extends s (log op t s).
Proof. intros He. split; [by exists [(op, t)]|done]. Qed.

Lemma sound_visit s : sound s → sound (visit s).
Proof. intros [Hl Hh He]. split; cbn; done. Qed.

Lemma extends_visit s : extends s (visit s).
Proof. split; [by exists []|done]. Qed.

(** A state that was logged before any forbid mark has exact counts. *)
Lemma extends_counts_exact s s' :
  logged s → sound s' → extends s s' → no_forbid (history s') → counts_exact (tracked s).
Proof.
  intros (op & rest & Hh) Hs' [(new & Hnew) _] Hnf.
  rewrite Hnew in Hnf. apply no_forbid_app in Hnf as [_ Hnf].
  pose proof (sound_exact _ Hs' new (history s) Hnew Hnf) as Hall.
  rewrite Hh in Hall. by apply Forall_cons in Hall as [? _].
Qed.

Lemma forbid_in_history s s' op t rc :
  extends (log (OpForbid rc) t s) s' → ¬ no_forbid ((op, tracked s') :: history s').
Proof.
  intros [(new & Hnew) _] Hnf. apply no_forbid_cons in Hnf as [_ Hnf].
  rewrite Hnew in Hnf. apply no_forbid_app in Hnf as [_ Hnf]. cbn in Hnf.
  apply (Hnf (OpForbid rc, t) rc); [apply list_elem_of_here|done].
Qed.

Lemma stars_in_with_forbidden fc t cells :
  stars_in (with_forbidden fc t) cells = stars_in t cells.
Proof. done. Qed.

Lemma consistent_with_forbidden fc t :
  consistent t →
  (∀ rc, in_grid rc → star_neighbors t rc ≤ get0 fc rc ≤ star_neighbors t rc + 1) →
  consistent (with_forbidden fc t).
Proof.
  intros [[H1 H2 H3 H4] [Q1 Q2 Q3] Hc] Hfc. split; [split|split|]; try done.
Qed.

Lemma get0_unforbid (fc : gmap (nat * nat) Z) rc rc' :
  let fc1 := bump (-1) fc rc in
  get0 (if get0 fc1 rc =? 0 then delete rc fc1 else fc1) rc'
  = get0 fc rc' - (if decide (rc = rc') then 1 else 0).
Proof.
  cbn zeta. destruct (get0 (bump (-1) fc rc) rc =? 0) eqn:Hz.
  - apply Z.eqb_eq in Hz. rewrite get0_bump in *. rewrite decide_True in Hz by done.
    unfold get0 at 1. rewrite lookup_delete. case_decide; cbn; [subst rc'; lia|].
    fold (get0 (bump (-1) fc rc) rc'). rewrite get0_bump, decide_False by done. lia.
  - rewrite get0_bump. case_decide; [subst rc'|]; lia.
Qed.

Lemma sound_restore snapshot s :
  sound s → consistent snapshot →
  (no_forbid (history s) → counts_exact snapshot) →
  sound (_restore_from_snapshot snapshot s).
Proof.
  intros Hs Hc He. apply sound_log; [done|done|].
  intros Hnf. apply no_forbid_cons in Hnf as [_ Hnf]. by apply He.
Qed.

Lemma excess_forbid rc s rc' :
  excess (tracked (forbid rc s)) rc'
  = excess (tracked s) rc' + (if decide (rc = rc') then 1 else 0).
Proof.
  unfold excess, star_neighbors. cbn. rewrite stars_in_with_forbidden, get0_bump.
  case_decide; [subst rc'|]; lia.
Qed.

Lemma sound_forbid rc s :
  sound s → can_place_star (tracked s) rc = true → sound (forbid rc s).
Proof.
  intros Hs Hcan. apply sound_log; [done| |].
  - apply consistent_with_forbidden; [by apply sound_consistent|].
    intros rc' Hg. pose proof (cons_counts _ (sound_consistent _ Hs) rc' Hg).
    apply can_place_star_true in Hcan as (_ & Hfc & _).
    pose proof (count_in_nonneg (solution (tracked s)) (neighbors rc')) as Hnn.
    unfold star_neighbors, stars_in in *.
    rewrite get0_bump. case_decide; [subst rc'|]; lia.
  - intros Hnf. apply no_forbid_cons in Hnf as [Hne _]. by destruct (Hne rc).
Qed.

Lemma sound_unforbid rc s :
  sound s → (in_grid rc → 1 ≤ excess (tracked s) rc) → ¬ no_forbid (history s) →
  sound (unforbid rc s).
Proof.
  intros Hs Hex Hnf. apply sound_log; [done| |].
  - apply consistent_with_forbidden; [by apply sound_consistent|].
    intros rc' Hg. pose proof (cons_counts _ (sound_consistent _ Hs) rc' Hg) as Hc.
    rewrite get0_unforbid. case_decide; [subst rc'|lia].
    specialize (Hex Hg). unfold excess in Hex. lia.
  - intros Hnf'. apply no_forbid_cons in Hnf' as [_ Hnf']. done.
Qed.

Lemma extends_no_forbid s s' : extends s s' → ¬ no_forbid (history s) → ¬ no_forbid (history s').
Proof.
  intros [(new & Hnew) _] Hnf Hnf'. apply Hnf. rewrite Hnew in Hnf'.
  by apply no_forbid_app in Hnf' as [_ ?].
Qed.

Lemma forbid_marks_history rc s : ¬ no_forbid (history (forbid rc s)).
Proof.
  cbn. intros Hnf. apply no_forbid_cons in Hnf as [Hne _]. by destruct (Hne rc).
Qed.

Section SearchSound.

Variable clock : nat → bool.

Lemma backtrack_sound fuel s :
  sound s →
  let r := backtrack n regions unlabeled clock fuel s in
  sound r.2 ∧ extends s r.2.
Proof.
  revert s. induction fuel as [|fuel IH]; intros s Hs; cbn zeta; cbn [backtrack].
  { cbn. split; [done|apply extends_refl]. }
  pose proof (sound_visit s Hs) as Hs0. pose proof (extends_visit s) as He0.
  destruct (clock (nodes_visited (visit s))); [cbn; done|].
  pose proof (propagate_constraints_sound (visit s) Hs0) as Hprop.
  destruct (propagate_constraints n regions unlabeled (visit s)) as [r1 s1].
  cbn in Hprop. destruct Hprop as [Hs1 Hf1].
  assert (extends s s1) as He1.
  { eapply extends_trans; [exact He0|by apply forces_extends]. }
  destruct r1 as [[|]| |]; try (cbn; done).
  destruct (is_complete (tracked s1)); [cbn; done|].
  destruct (is_impossible n regions unlabeled (tracked s1)); [cbn; done|].
  destruct (select_next_cell n regions unlabeled (tracked s1)) as [rc|] eqn:Hsel;
    [|cbn; done].
  apply select_next_cell_Some in Hsel as (Hg & Hcan & _).
  pose proof (can_place_star_no_star _ _ Hcan) as Hfree.
  unfold place_star. rewrite (can_place_star_no_adjacent _ _ Hcan).
  set (s2 := log (OpPlace rc) (put_star (tracked s1) rc) s1).
  assert (sound s2) as Hs2 by (by apply sound_put_star).
  assert (extends s1 s2) as He2.
  { apply extends_log. intros rc' Hg'. by rewrite put_star_excess. }
  destruct (IH s2 Hs2) as [Hs3 He3].
  destruct (backtrack n regions unlabeled clock fuel s2) as [r3 s3].
  cbn in Hs3, He3.
  assert (extends s1 s3) as He13 by (by eapply extends_trans).
  destruct r3 as [[|]| |]; cbn [fst snd].
  1,3,4: (split; [done|by eapply extends_trans]).
  unfold take_snapshot.
  set (s3' := _restore_from_snapshot (tracked s1) s3).
  assert (sound s3') as Hs3'.
  { apply sound_restore; [done|by apply sound_consistent|].
    intros Hnf. by apply (extends_counts_exact s1 s3); [apply Hs1|..]. }
  set (s4 := forbid rc s3').
  assert (sound s4) as Hs4 by (by apply sound_forbid).
  assert (∀ rc', in_grid rc' → excess (tracked s4) rc'
            = excess (tracked s1) rc' + (if decide (rc = rc') then 1 else 0)) as Hex4.
  { intros rc' _. unfold s4. by rewrite excess_forbid. }
  assert (extends s1 s4) as He14.
  { split.
    - destruct (extends_history _ _ He13) as (new & Hnew). cbn. rewrite Hnew.
      exists ((OpForbid rc, tracked s4) :: (OpRestore, tracked s1) :: new). done.
    - intros rc' Hg'. rewrite (Hex4 rc' Hg'). case_decide; lia. }
  destruct (IH s4 Hs4) as [Hs5 He5].
  destruct (backtrack n regions unlabeled clock fuel s4) as [r5 s5].
  cbn in Hs5, He5.
  assert (extends s s5) as He05.
  { eapply extends_trans; [exact He1|]. by eapply extends_trans. }
  destruct r5 as [[|]| |]; cbn [fst snd]; try done.
  assert (¬ no_forbid (history s5)) as Hnf5.
  { eapply extends_no_forbid; [exact He5|]. apply forbid_marks_history. }
  assert (sound (unforbid rc s5)) as Hs6.
  { apply sound_unforbid; [done| |done].
    intros _. pose proof (extends_excess _ _ He5 rc Hg) as Hle.
    rewrite (Hex4 rc Hg), decide_True in Hle by done.
    pose proof (cons_counts _ (sound_consistent _ Hs1) rc Hg) as Hc.
    unfold excess in *. lia. }
  split.
  - apply sound_restore; [done|by apply sound_consistent|].
    cbn. intros Hnf. apply no_forbid_cons in Hnf as [_ Hnf]. done.
  - split.
    + destruct (extends_history _ _ He05) as (new & Hnew). cbn. rewrite Hnew.
      eexists (_ :: _ :: new). done.
    + intros rc' Hg'. cbn. apply (extends_excess _ _ He1 rc' Hg').
Qed.

Lemma init_sound : sound (init n regions k unlabeled).
Proof.
  split; cbn.
  - by exists OpInit, [].
  - apply Forall_singleton. apply init_consistent.
  - apply exact_until_forbid_cons.
    + intros later earlier Heq _. destruct later; [|done]. cbn in Heq. subst.
      apply Forall_nil_2.
    + intros _. apply init_counts_exact.
Qed.

Lemma solve_sound fuel s :
  sound s →
  let r := solve n regions unlabeled clock fuel s in
  sound r.2 ∧ extends s r.2.
Proof.
  intros Hs. cbn zeta. unfold solve.
  pose proof (propagate_constraints_sound s Hs) as Hprop.
  destruct (propagate_constraints n regions unlabeled s) as [r1 s1].
  cbn in Hprop. destruct Hprop as [Hs1 Hf1]. apply forces_extends in Hf1.
  destruct r1 as [[|]| |]; try (cbn; done).
  destruct (is_complete (tracked s1)).
  { destruct (validate_no_adjacent n (tracked s1)); cbn; done. }
  destruct (is_impossible n regions unlabeled (tracked s1)); [cbn; done|].
  destruct (backtrack_sound fuel s1 Hs1) as [Hs2 He2].
  destruct (backtrack n regions unlabeled clock fuel s1) as [r2 s2]. cbn in Hs2, He2.
  assert (extends s s2) by (by eapply extends_trans).
  destruct r2 as [[|]| |]; try (cbn; done).
  destruct (validate_no_adjacent n (tracked s2)); cbn; done.
Qed.

End SearchSound.

(** ** What a returned placement satisfies *)

Lemma is_complete_true t :
  is_complete t = true →
  (∀ r, (r < length (rows_needed t))%nat → idx (rows_needed t) r = 0)
  ∧ (∀ c, (c < length (cols_needed t))%nat → idx (cols_needed t) c = 0)
  ∧ ∀ rid, get0 (regs_needed t) rid = 0.
Proof.
  unfold is_complete. rewrite !andb_true_iff, !forallb_forall. intros [[Hr Hc] Hg].
  assert (∀ (l : list Z) i, (∀ x, In x l → (x =? 0) = true) →
            (i < length l)%nat → idx l i = 0) as Hidx.
  { intros l i Hall Hi. unfold idx. destruct (lookup_lt_is_Some_2 l i Hi) as [x Hx].
    rewrite Hx. cbn. apply Z.eqb_eq, Hall, list_elem_of_In. by eapply list_elem_of_lookup_2. }
  split; [intros r; by apply Hidx|]. split; [intros c; by apply Hidx|].
  intros rid. unfold get0. destruct (regs_needed t !! rid) as [x|] eqn:Hx; [|done].
  cbn. apply Z.eqb_eq, Hg, list_elem_of_In.
  apply list_elem_of_fmap. exists (rid, x). split; [done|]. by apply elem_of_map_to_list.
Qed.

Lemma validate_no_adjacent_true t :
  validate_no_adjacent n t = true →
  ∀ rc nb, rc ∈ solution t → nb ∈ neighbors rc → nb ∉ solution t.
Proof.
  unfold validate_no_adjacent. rewrite forallb_forall. intros Hall rc nb Hrc Hnb.
  apply elem_of_elements, list_elem_of_In, Hall in Hrc.
  rewrite forallb_forall in Hrc. apply list_elem_of_In, Hrc in Hnb.
  apply negb_true_iff in Hnb. by apply bool_decide_eq_false in Hnb.
Qed.

Lemma chebyshev_adjacent a b : a ≠ b → chebyshev a b < 2 → king_adjacent a b.
Proof. unfold chebyshev, king_adjacent. intros Hne Hd. split; [done|lia]. Qed.

Lemma size_count_in (X : gset (nat * nat)) (cells : list (nat * nat)) :
  NoDup cells → (∀ rc, rc ∈ X → rc ∈ cells) → Z.of_nat (size X) = count_in X cells.
Proof.
  intros Hnd Hsub. unfold count_in. f_equal.
  assert (X = list_to_set (filter (λ rc, rc ∈ X) cells)) as HX.
  { apply set_eq. intros rc. rewrite elem_of_list_to_set, list_elem_of_filter.
    split; [intros ?; split; [done|by apply Hsub]|tauto]. }
  rewrite HX at 1. apply size_list_to_set. by apply NoDup_filter.
Qed.

Lemma count_in_rows (X : gset (nat * nat)) (rs : list nat) :
  (∀ r, r ∈ rs → count_in X (row_cells r) = k) →
  count_in X (rs ≫= row_cells) = Z.of_nat (length rs) * k.
Proof.
  induction rs as [|r rs IH]; intros Hall.
  - reflexivity.
  - rewrite bind_cons, count_in_app, IH, Hall.
    + cbn [length]. lia.
    + apply list_elem_of_here.
    + intros r' Hr'. by apply Hall, list_elem_of_further.
Qed.

(** A consistent complete state that passes validation is a solution. *)
Lemma complete_valid_placement t :
  consistent t → is_complete t = true → validate_no_adjacent n t = true →
  valid_placement (solution t).
Proof.
  intros [Hs Hq Hc] Hcomp Hval. apply is_complete_true in Hcomp as (Hr0 & Hc0 & Hg0).
  assert (∀ r, (r < n)%nat → count_in (solution t) (row_cells r) = k) as Hrows.
  { intros r Hr. pose proof (quota_rows _ Hq r Hr) as Hsum.
    rewrite Hr0 in Hsum by (by rewrite (shaped_rows _ Hs)). unfold stars_in in Hsum. lia. }
  split.
  - apply Hs.
  - done.
  - intros c Hcn. pose proof (quota_cols _ Hq c Hcn) as Hsum.
    rewrite Hc0 in Hsum by (by rewrite (shaped_cols _ Hs)). unfold stars_in in Hsum. lia.
  - intros rid Hl. pose proof (quota_regs _ Hq rid Hl) as Hsum.
    rewrite Hg0 in Hsum. unfold stars_in in Hsum. lia.
  - intros a b Ha Hb Hne. destruct (Z_lt_le_dec (chebyshev a b) 2) as [Hlt|]; [|done].
    exfalso. apply (validate_no_adjacent_true t Hval b a Hb); [|done].
    apply elem_of_neighbors. split; [by apply Hs|by apply chebyshev_adjacent].
  - rewrite (size_count_in _ grid_cells).
    + unfold ImprovedStarBattleSolver.grid_cells. rewrite count_in_rows.
      * by rewrite length_seq.
      * intros r Hr. apply Hrows. apply elem_of_seq in Hr. lia.
    + apply NoDup_grid_cells.
    + intros rc Hrc. apply elem_of_grid_cells. by apply Hs.
Qed.

Section SolveResult.

Variable clock : nat → bool.

Lemma backtrack_true fuel s :
  (backtrack n regions unlabeled clock fuel s).1 = Ret true →
  is_complete (tracked (backtrack n regions unlabeled clock fuel s).2) = true.
Proof.
  revert s. induction fuel as [|fuel IH]; intros s; cbn [backtrack]; [done|].
  destruct (clock _); [done|].
  destruct (propagate_constraints _ _ _ _) as [[[|]| |] s1]; try done.
  destruct (is_complete (tracked s1)) eqn:Hcomp; [done|].
  destruct (is_impossible _ _ _ _); [done|].
  destruct (select_next_cell _ _ _ _) as [rc|]; [|done].
  destruct (place_star _ _ _ _ _) as [[nf s2]|]; [|done].
  pose proof (IH s2) as IH2.
  destruct (backtrack n regions unlabeled clock fuel s2) as [[[|]| |] s3];
    [by auto| |done|done].
  match goal with |- context [backtrack _ _ _ _ fuel ?s4] => pose proof (IH s4) as IH4 end.
  destruct (backtrack n regions unlabeled clock fuel _) as [[[|]| |] s5];
    [by auto|done|done|done].
Qed.

Lemma solve_Some fuel s sol :
  (solve n regions unlabeled clock fuel s).1 = Ret (Some sol) →
  let s' := (solve n regions unlabeled clock fuel s).2 in
  sol = solution (tracked s') ∧ is_complete (tracked s') = true
  ∧ validate_no_adjacent n (tracked s') = true.
Proof.
  unfold solve.
  destruct (propagate_constraints _ _ _ _) as [[[|]| |] s1]; try done.
  destruct (is_complete (tracked s1)) eqn:Hcomp.
  { destruct (validate_no_adjacent n (tracked s1)) eqn:Hval; [|done].
    cbn. intros [= <-]. done. }
  destruct (is_impossible _ _ _ _); [done|].
  pose proof (backtrack_true fuel s1) as Hbt.
  destruct (backtrack n regions unlabeled clock fuel s1) as [[[|]| |] s2]; try done.
  destruct (validate_no_adjacent n (tracked s2)) eqn:Hval; [|done].
  cbn. intros [= <-]. split; [done|]. split; [by apply Hbt|done].
Qed.

End SolveResult.

(** ** Claims on the whole solve *)

Section Claims.

Variable clock : nat → bool.

Local Abbreviation run fuel :=
  (solve n regions unlabeled clock fuel (init n regions k unlabeled)).

(** C1. Whenever [solve] returns a placement, it lies in the grid, has
    exactly [k] stars in every row, in every column and in every labelled
    region, no two of its stars are king-adjacent (Chebyshev distance at
    least 2), and it has exactly [n * k] cells. *)
Theorem solve_returns_valid_placement (fuel : nat) (sol : gset (nat * nat)) :
  well_formed →
  (run fuel).1 = Ret (Some sol) →
  valid_placement sol.
Proof.
  intros _ Hret. apply solve_Some in Hret as (-> & Hcomp & Hval).
  apply complete_valid_placement; [|done|done].
  apply sound_consistent. apply (solve_sound clock fuel _ init_sound).
Qed.

(** C3. After every mutating operation of a solve (each entry of the
    history, whose head is the current state), quota plus stars placed
    equals [k] in every row, every column and every labelled region. *)
Theorem quotas_hold_at_every_state (fuel : nat) :
  well_formed →
  logged (run fuel).2
  ∧ Forall (λ e : Op * Tracked, quotas_ok e.2) (history (run fuel).2).
Proof.
  intros _. destruct (solve_sound clock fuel _ init_sound) as [[Hl Hh _] _].
  split; [done|]. eapply Forall_impl; [exact Hh|]. intros e He. apply He.
Qed.

(** C4, as amended. At every state of a solve the forbidden count of each
    cell of the grid is the number of its star-holding neighbours or that
    number plus one (the forbid mark of a branch B), and it is that number
    at every state reached before the first forbid mark of the search. *)
Theorem forbidden_counts_track_star_neighbors (fuel : nat) :
  well_formed →
  Forall (λ e : Op * Tracked, counts_within_one e.2) (history (run fuel).2)
  ∧ exact_until_forbid (history (run fuel).2).
Proof.
  intros _. destruct (solve_sound clock fuel _ init_sound) as [[Hl Hh Hex] _].
  split; [|done]. eapply Forall_impl; [exact Hh|]. intros e He. apply He.
Qed.

End Claims.

(** ** Sign of the quotas *)

Lemma quotas_ok_at_most_k t : quotas_ok t → quotas_at_most_k t.
Proof.
  intros [Hr Hc Hg]. unfold quotas_at_most_k, stars_in in *.
  split; [|split]; intros x Hx.
  - pose proof (Hr x Hx). pose proof (count_in_nonneg (solution t) (row_cells x)). lia.
  - pose proof (Hc x Hx). pose proof (count_in_nonneg (solution t) (col_cells x)). lia.
  - pose proof (Hg x Hx). pose proof (count_in_nonneg (solution t) (region_members x)). lia.
Qed.

Lemma put_star_nonneg t rc :
  shaped t → quotas_nonneg t → in_grid rc → can_place_star t rc = true →
  quotas_nonneg (put_star t rc).
Proof.
  intros Hs (Hr & Hc & Hg) Hgrid Hcan.
  apply can_place_star_true in Hcan as (_ & _ & Hrow & Hcol & Hreg & _).
  split; [|split].
  - intros r Hrn. rewrite rows_needed_put_star by done. specialize (Hr r Hrn).
    case_decide as Hin; [|lia]. apply elem_of_row_cells in Hin as [<- _]. lia.
  - intros c Hcn. rewrite cols_needed_put_star by done. specialize (Hc c Hcn).
    case_decide as Hin; [|lia]. apply elem_of_col_cells in Hin as [<- _]. lia.
  - intros rid Hl. rewrite regs_needed_put_star by (done || apply Hl). specialize (Hg rid Hl).
    case_decide as Hin; [|lia]. apply elem_of_region_members in Hin as [_ <-].
    specialize (Hreg (proj1 Hl)). lia.
Qed.

(** C9, as amended. The quotas start at [k], never exceed [k] at any state
    of a solve, and a placement, forced or made by the search, on a cell
    that satisfies the availability predicate at that moment keeps every
    quota at least 0. *)
Theorem quotas_nonneg_on_available_cells (clock : nat → bool) (fuel : nat) :
  well_formed → 0 ≤ k →
  quotas_nonneg (init_tracked n regions k unlabeled)
  ∧ (∀ s rc, shaped (tracked s) → quotas_nonneg (tracked s) → in_grid rc →
       can_place_star (tracked s) rc = true →
       quotas_nonneg (tracked (place_star_forced n regions unlabeled rc s).2)
       ∧ ∃ new_forbidden s', place_star n regions unlabeled rc s = Some (new_forbidden, s')
                             ∧ quotas_nonneg (tracked s'))
  ∧ Forall (λ e : Op * Tracked, quotas_at_most_k e.2)
      (history (solve n regions unlabeled clock fuel (init n regions k unlabeled)).2).
Proof.
  intros _ Hk. split; [|split].
  - pose proof init_consistent as [_ [Hr Hc Hg] _].
    split; [|split]; intros x Hx.
    + specialize (Hr x Hx). rewrite stars_in_empty in Hr by done. lia.
    + specialize (Hc x Hx). rewrite stars_in_empty in Hc by done. lia.
    + specialize (Hg x Hx). rewrite stars_in_empty in Hg by done. lia.
  - intros s rc Hs Hq Hg Hcan.
    unfold place_star_forced, place_star.
    rewrite (can_place_star_no_adjacent _ _ Hcan). cbn.
    split; [by apply put_star_nonneg|].
    eexists _, _. split; [done|]. cbn. by apply put_star_nonneg.
  - destruct (solve_sound clock fuel _ init_sound) as [[_ Hh _] _].
    eapply Forall_impl; [exact Hh|]. intros e He. apply quotas_ok_at_most_k, He.
Qed.

(** ** A region with fewer than [k] cells *)

Lemma length_filter_disjoint {A} (P Q : A → Prop)
    `{∀ x, Decision (P x)} `{∀ x, Decision (Q x)} (l : list A) :
  (∀ x, P x → Q x → False) →
  (length (filter P l) + length (filter Q l) ≤ length l)%nat.
Proof.
  intros Hdis. induction l as [|x l IH]; [done|].
  rewrite !filter_cons. destruct (decide (P x)) as [HP|HP], (decide (Q x)) as [HQ|HQ];
    cbn [length]; try lia.
  by destruct (Hdis x).
Qed.

Lemma small_region_doomed rid :
  labeled rid → Z.of_nat (length (region_members rid)) < k →
  doomed (λ t : Tracked, get0 (regs_needed t) rid, region_members rid).
Proof.
  intros Hl Hsmall t Hc. cbn [fst snd].
  pose proof (quota_regs _ (cons_quotas _ Hc) rid Hl) as Hsum.
  unfold stars_in, count_in in Hsum. unfold valid_positions_of.
  pose proof (length_filter_disjoint
                (λ rc, can_place_star t rc) (λ rc, rc ∈ solution t) (region_members rid))
    as Hlen.
  assert (∀ x, can_place_star t x → x ∈ solution t → False) as Hdis.
  { intros x Hx Hin. apply Is_true_true in Hx. by apply can_place_star_no_star in Hx. }
  specialize (Hlen Hdis). lia.
Qed.

Lemma check_units_doomed units changed s :
  sound s → units_ok units → (∃ u, u ∈ units ∧ doomed u) →
  (check_units n regions unlabeled units changed s).1 = None.
Proof.
  revert changed s. induction units as [|[needed cells] units IH];
    intros changed s Hs Hok (u & Hu & Hdoom).
  { by apply elem_of_nil in Hu. }
  assert (units_ok units) as Hok'.
  { intros u' Hu'. apply Hok. by apply list_elem_of_further. }
  destruct (Hok _ (list_elem_of_here _ _)) as [Hnd Hgrid]. cbn in Hnd, Hgrid.
  assert (u = (needed, cells) → 0 < needed (tracked s)
            ∧ Z.of_nat (length (valid_positions_of n regions unlabeled (tracked s) cells))
              < needed (tracked s)) as Hhead.
  { intros ->. apply (Hdoom (tracked s)). by apply sound_consistent. }
  apply elem_of_cons in Hu as [Hu|Hu].
  - destruct (Hhead Hu) as [Hpos Hlt]. cbn [check_units].
    rewrite (proj2 (Z.ltb_lt _ _) Hpos).
    destruct (_ =? needed (tracked s)) eqn:Heq; [apply Z.eqb_eq in Heq; lia|].
    by rewrite (proj2 (Z.ltb_lt _ _) Hlt).
  - assert (∃ u, u ∈ units ∧ doomed u) as Hrest by (by exists u).
    cbn [check_units].
    destruct (0 <? needed (tracked s)); [|by apply IH].
    destruct (_ =? needed (tracked s)).
    + pose proof (force_positions_sound
                    (valid_positions_of n regions unlabeled (tracked s) cells) changed s Hs)
        as Hforce.
      destruct (force_positions _ _ _ _ _ _) as [changed' s'].
      destruct Hforce as (Hs' & _).
      { by apply NoDup_filter. }
      { intros v Hv. apply valid_positions_spec in Hv as [Hcan Hin].
        split; [by apply Hgrid|by apply can_place_star_no_star]. }
      by apply IH.
    + destruct (_ <? needed (tracked s)); [done|by apply IH].
Qed.

Lemma propagate_pass_doomed s :
  sound s → (∃ u, u ∈ region_units n regions unlabeled ∧ doomed u) →
  (propagate_pass n regions unlabeled s).1 = None.
Proof.
  intros Hs Hdoom. unfold propagate_pass.
  pose proof (check_units_sound (row_units n) false s Hs row_units_ok) as Hrows.
  destruct (check_units _ _ _ (row_units n) false s) as [[ch1|] s1]; [|done].
  cbn in Hrows. destruct Hrows as (Hs1 & _).
  pose proof (check_units_sound (col_units n) ch1 s1 Hs1 col_units_ok) as Hcols.
  destruct (check_units _ _ _ (col_units n) ch1 s1) as [[ch2|] s2]; [|done].
  cbn in Hcols. destruct Hcols as (Hs2 & _).
  by apply check_units_doomed; [|apply region_units_ok|].
Qed.

Lemma propagate_loop_doomed fuel s :
  sound s → (∃ u, u ∈ region_units n regions unlabeled ∧ doomed u) →
  (propagate_loop n regions unlabeled (S fuel) s).1 = Ret false.
Proof.
  intros Hs Hdoom. cbn [propagate_loop].
  pose proof (propagate_pass_doomed _ (sound_count_propagation s Hs) Hdoom) as Hpass.
  destruct (propagate_pass _ _ _ _) as [[[|]|] s']; done.
Qed.

(** C10. When some labelled region has fewer than [k] cells, [solve]
    returns [None] for every time budget: in the initial state that region
    has fewer available cells than its quota, the first call of
    [propagate_constraints] returns false, and no call of [backtrack] is
    made. *)
Theorem small_region_returns_none (clock : nat → bool) (fuel : nat) (rid : Z) :
  well_formed → labeled rid → Z.of_nat (length (region_members rid)) < k →
  let s0 := init n regions k unlabeled in
  count_available n regions unlabeled (tracked s0) (region_members rid)
    < get0 (regs_needed (tracked s0)) rid
  ∧ (propagate_constraints n regions unlabeled s0).1 = Ret false
  ∧ (solve n regions unlabeled clock fuel s0).1 = Ret None
  ∧ nodes_visited (solve n regions unlabeled clock fuel s0).2 = 0%nat.
Proof.
  intros _ Hl Hsmall s0.
  pose proof (small_region_doomed rid Hl Hsmall) as Hdoom.
  assert (∃ u, u ∈ region_units n regions unlabeled ∧ doomed u) as Hex.
  { eexists. split; [|exact Hdoom].
    apply list_elem_of_fmap. exists (rid, region_members rid). split; [done|].
    by apply elem_of_region_cells. }
  pose proof (propagate_loop_doomed (n * n) s0 init_sound Hex) as Hprop.
  split.
  { destruct (Hdoom (tracked s0) init_consistent) as [_ Hlt]. exact Hlt. }
  split; [exact Hprop|].
  pose proof (propagate_constraints_sound s0 init_sound) as [_ Hf].
  unfold solve. unfold propagate_constraints in *.
  destruct (propagate_loop n regions unlabeled (S (n * n)) s0) as [r1 s1].
  cbn in Hprop. subst r1. cbn. split; [done|]. apply (forces_nodes _ _ Hf).
Qed.

(** ** The propagation loop, unit by unit *)

Lemma grid_stars_bound t : (grid_stars t ≤ n * n)%nat.
Proof. unfold grid_stars. rewrite <- length_grid_cells. apply length_filter. Qed.

Lemma length_filter_mono {A} (P Q : A → Prop)
    `{∀ x, Decision (P x)} `{∀ x, Decision (Q x)} (l : list A) :
  (∀ x, P x → Q x) → (length (filter P l) ≤ length (filter Q l))%nat.
Proof.
  intros Himp. induction l as [|x l IH]; [done|].
  rewrite !filter_cons. destruct (decide (P x)) as [HP|HP], (decide (Q x)) as [HQ|HQ];
    cbn [length]; try lia.
  by destruct HQ; apply Himp.
Qed.

Lemma length_filter_strict {A} (P Q : A → Prop)
    `{∀ x, Decision (P x)} `{∀ x, Decision (Q x)} (l : list A) (v : A) :
  (∀ x, P x → Q x) → v ∈ l → ¬ P v → Q v →
  (length (filter P l) < length (filter Q l))%nat.
Proof.
  intros Himp Hin HP HQ. induction l as [|x l IH]; [by apply elem_of_nil in Hin|].
  pose proof (length_filter_mono P Q l Himp) as Hmono.
  rewrite !filter_cons. apply elem_of_cons in Hin as [<-|Hin].
  - rewrite decide_False, decide_True by done. cbn [length]. lia.
  - specialize (IH Hin).
    destruct (decide (P x)) as [HPx|HPx], (decide (Q x)) as [HQx|HQx]; cbn [length]; try lia.
    by destruct HQx; apply Himp.
Qed.

Lemma grid_stars_mono t t' : solution t ⊆ solution t' → (grid_stars t ≤ grid_stars t')%nat.
Proof. intros Hsub. apply length_filter_mono. intros x. apply Hsub. Qed.

Lemma grid_stars_strict t t' v :
  solution t ⊆ solution t' → in_grid v → v ∉ solution t → v ∈ solution t' →
  (grid_stars t < grid_stars t')%nat.
Proof.
  intros Hsub Hg Hv Hv'.
  apply (length_filter_strict _ _ _ v);
    first [done | by apply elem_of_grid_cells | intros x; apply Hsub].
Qed.

Lemma force_positions_app pre post changed s :
  force_positions n regions unlabeled (pre ++ post) changed s
  = force_positions n regions unlabeled post
      (force_positions n regions unlabeled pre changed s).1
      (force_positions n regions unlabeled pre changed s).2.
Proof.
  revert changed s. induction pre as [|v pre IH]; intros changed s; [done|].
  cbn [app force_positions]. destruct (place_star_forced _ _ _ v s) as [placed s'].
  apply IH.
Qed.

Lemma place_star_forced_solution v s :
  solution (tracked (place_star_forced n regions unlabeled v s).2)
  = if existsb (has_star (tracked s)) (neighbors v)
    then solution (tracked s) else {[v]} ∪ solution (tracked s).
Proof. unfold place_star_forced. by destruct (existsb _ _). Qed.

Lemma force_positions_solution vs changed s :
  let r := force_positions n regions unlabeled vs changed s in
  solution (tracked s) ⊆ solution (tracked r.2)
  ∧ solution (tracked r.2) ⊆ solution (tracked s) ∪ list_to_set vs.
Proof.
  revert changed s. induction vs as [|v vs IH]; intros changed s; cbn zeta.
  - cbn. set_solver.
  - cbn [force_positions]. pose proof (place_star_forced_solution v s) as Hsol.
    destruct (place_star_forced _ _ _ v s) as [placed s']. cbn in Hsol.
    destruct (IH (if placed then true else changed) s') as [H1 H2].
    rewrite Hsol in H1, H2. rewrite list_to_set_cons.
    destruct (existsb _ _); set_solver.
Qed.

(** A cell of the list receives a star exactly when no neighbour holds one
    at its turn. *)
Lemma force_positions_placed pre v post changed s :
  NoDup (pre ++ v :: post) → v ∉ solution (tracked s) →
  v ∈ solution (tracked (force_positions n regions unlabeled (pre ++ v :: post) changed s).2)
  ↔ ∀ nb, nb ∈ neighbors v →
      nb ∉ solution (tracked (force_positions n regions unlabeled pre changed s).2).
Proof.
  intros Hnd Hv. apply NoDup_app in Hnd as (_ & Hpre & Hnd).
  apply NoDup_cons in Hnd as [Hpost _].
  rewrite force_positions_app.
  destruct (force_positions_solution pre changed s) as [_ Hsub].
  destruct (force_positions n regions unlabeled pre changed s) as [ch1 s1].
  cbn [fst snd] in *.
  assert (v ∉ solution (tracked s1)) as Hv1.
  { intros Hin. apply Hsub in Hin. apply elem_of_union in Hin as [?|Hin]; [done|].
    apply elem_of_list_to_set in Hin. apply (Hpre v Hin), list_elem_of_here. }
  rewrite <- adjacent_star_false.
  cbn [force_positions]. pose proof (place_star_forced_solution v s1) as Hsol.
  destruct (place_star_forced _ _ _ v s1) as [placed s2]. cbn in Hsol.
  destruct (force_positions_solution post (if placed then true else ch1) s2) as [Hlow Hup].
  destruct (existsb _ _).
  - split; [|done]. intros Hin. apply Hup in Hin. rewrite Hsol in Hin.
    apply elem_of_union in Hin as [?|Hin]; [done|].
    by apply elem_of_list_to_set in Hin.
  - split; [done|]. intros _. apply Hlow. rewrite Hsol. set_solver.
Qed.

Lemma force_positions_grows vs changed s :
  NoDup vs → (∀ v, v ∈ vs → in_grid v ∧ v ∉ solution (tracked s)) →
  let r := force_positions n regions unlabeled vs changed s in
  (r.1 = false → changed = false ∧ r.2 = s)
  ∧ (r.1 = true → changed = true
                   ∨ (grid_stars (tracked s) < grid_stars (tracked r.2))%nat).
Proof.
  revert changed s. induction vs as [|v vs IH]; intros changed s Hnd Hvs; cbn zeta.
  - cbn. split; [done|]. by left.
  - apply NoDup_cons in Hnd as [Hv Hnd].
    destruct (Hvs v (list_elem_of_here _ _)) as [Hg Hvsol].
    cbn [force_positions]. pose proof (place_star_forced_solution v s) as Hsol.
    unfold place_star_forced in *.
    destruct (existsb (has_star (tracked s)) (neighbors v)) eqn:Hadj.
    + apply IH; [done|]. intros v' Hv'. apply Hvs. by apply list_elem_of_further.
    + cbn [fst snd] in *.
      set (s' := log (OpForced v) (put_star (tracked s) v) s) in *.
      destruct (IH true s' Hnd) as [H1 H2].
      { intros v' Hv'. split; [apply Hvs; by apply list_elem_of_further|].
        rewrite Hsol, elem_of_union, elem_of_singleton. intros [->|Hin]; [done|].
        by apply (Hvs v'); [apply list_elem_of_further|]. }
      split; [intros Hr; by destruct (H1 Hr)|].
      intros _. right.
      destruct (force_positions_solution vs true s') as [Hlow _].
      apply (grid_stars_strict _ _ v); try done.
      * rewrite Hsol in Hlow. set_solver.
      * apply Hlow. rewrite Hsol. set_solver.
Qed.

Lemma check_units_solution units changed s :
  solution (tracked s)
  ⊆ solution (tracked (check_units n regions unlabeled units changed s).2).
Proof.
  revert changed s. induction units as [|[needed cells] units IH]; intros changed s.
  - done.
  - cbn [check_units]. destruct (0 <? needed (tracked s)); [|by apply IH].
    destruct (_ =? needed (tracked s)).
    + pose proof (force_positions_solution
                    (valid_positions_of n regions unlabeled (tracked s) cells) changed s)
        as [Hlow _].
      destruct (force_positions _ _ _ _ _ _) as [changed' s']. cbn [fst snd] in *.
      specialize (IH changed' s'). set_solver.
    + destruct (_ <? needed (tracked s)); [done|by apply IH].
Qed.

Lemma check_units_grows units changed s :
  units_ok units →
  let r := check_units n regions unlabeled units changed s in
  (r.1 = Some false → changed = false ∧ r.2 = s)
  ∧ (r.1 = Some true → changed = true
                        ∨ (grid_stars (tracked s) < grid_stars (tracked r.2))%nat).
Proof.
  revert changed s. induction units as [|[needed cells] units IH];
    intros changed s Hok; cbn zeta.
  - cbn. split; intros [= ->]; [done|by left].
  - assert (units_ok units) as Hok'.
    { intros u Hu. apply Hok. by apply list_elem_of_further. }
    destruct (Hok _ (list_elem_of_here _ _)) as [Hnd Hgrid]. cbn in Hnd, Hgrid.
    cbn [check_units].
    destruct (0 <? needed (tracked s)); [|by apply IH].
    destruct (_ =? needed (tracked s)).
    + pose proof (force_positions_grows
                    (valid_positions_of n regions unlabeled (tracked s) cells) changed s)
        as Hforce.
      pose proof (force_positions_solution
                    (valid_positions_of n regions unlabeled (tracked s) cells) changed s)
        as [Hlow _].
      destruct (force_positions _ _ _ _ _ _) as [changed' s'].
      destruct Hforce as [H1 H2].
      { by apply NoDup_filter. }
      { intros v Hv. apply valid_positions_spec in Hv as [Hcan Hin].
        split; [by apply Hgrid|by apply can_place_star_no_star]. }
      cbn [fst snd] in *. destruct (IH changed' s' Hok') as [G1 G2]. split.
      * intros Hr. destruct (G1 Hr) as [-> ->]. by apply H1.
      * intros Hr. pose proof (grid_stars_mono _ _ Hlow) as Hle.
        destruct (G2 Hr) as [->|Hlt]; [|right; lia].
        destruct (H2 eq_refl) as [?|Hlt]; [by left|right].
        pose proof (grid_stars_mono _ _ (check_units_solution units true s')). lia.
    + destruct (_ <? needed (tracked s)); [|by apply IH]. cbn. done.
Qed.

Lemma propagate_pass_grows s :
  let r := propagate_pass n regions unlabeled s in
  (r.1 = Some false → r.2 = s)
  ∧ (r.1 = Some true → (grid_stars (tracked s) < grid_stars (tracked r.2))%nat).
Proof.
  cbn zeta. unfold propagate_pass.
  pose proof (check_units_grows (row_units n) false s row_units_ok) as [R1 R2].
  pose proof (check_units_solution (row_units n) false s) as Rsub.
  destruct (check_units _ _ _ (row_units n) false s) as [[ch1|] s1]; [|done].
  pose proof (check_units_grows (col_units n) ch1 s1 col_units_ok) as [C1 C2].
  pose proof (check_units_solution (col_units n) ch1 s1) as Csub.
  destruct (check_units _ _ _ (col_units n) ch1 s1) as [[ch2|] s2]; [|done].
  pose proof (check_units_grows (region_units n regions unlabeled) ch2 s2 region_units_ok)
    as [G1 G2].
  pose proof (check_units_solution (region_units n regions unlabeled) ch2 s2) as Gsub.
  destruct (check_units _ _ _ (region_units n regions unlabeled) ch2 s2) as [r3 s3].
  cbn [fst snd] in *.
  apply grid_stars_mono in Rsub, Csub, Gsub. split.
  - intros Hr. destruct (G1 Hr) as [-> ->]. destruct (C1 eq_refl) as [-> ->].
    by destruct (R1 eq_refl) as [_ ->].
  - intros Hr. destruct (G2 Hr) as [->|?]; [|lia].
    destruct (C2 eq_refl) as [->|?]; [|lia].
    destruct (R2 eq_refl) as [?|?]; [done|lia].
Qed.

(** The [while] loop ends from every state: [n * n + 1] passes suffice. *)
Lemma propagate_loop_ends fuel s :
  (n * n < fuel + grid_stars (tracked s))%nat →
  ∃ b, (propagate_loop n regions unlabeled fuel s).1 = Ret b.
Proof.
  revert s. induction fuel as [|fuel IH]; intros s Hfuel; cbn [propagate_loop].
  - pose proof (grid_stars_bound (tracked s)). lia.
  - pose proof (propagate_pass_grows (count_propagation s)) as [_ Hlt].
    destruct (propagate_pass _ _ _ _) as [[[|]|] s'].
    + apply IH. specialize (Hlt eq_refl). cbn in Hlt. lia.
    + by exists true.
    + by exists false.
Qed.

Lemma propagate_constraints_ends s :
  ∃ b, (propagate_constraints n regions unlabeled s).1 = Ret b.
Proof. apply propagate_loop_ends. lia. Qed.

(** C6. A cell with a king-adjacent star: [place_star_forced] returns
    false and leaves the solver untouched, the loop of forced placements
    goes on with the remaining cells and the same flag, and [place_star]
    raises instead of placing. *)
Theorem adjacent_star_skip_or_raise (s : Solver) (rc : nat * nat) :
  in_grid rc →
  (∃ nb, in_grid nb ∧ king_adjacent nb rc ∧ nb ∈ solution (tracked s)) →
  place_star_forced n regions unlabeled rc s = (false, s)
  ∧ (∀ rest changed,
       force_positions n regions unlabeled (rc :: rest) changed s
       = force_positions n regions unlabeled rest changed s)
  ∧ place_star n regions unlabeled rc s = None.
Proof.
  intros _ (nb & Hg & Hadj & Hsol).
  assert (existsb (has_star (tracked s)) (neighbors rc) = true) as Hex.
  { apply adjacent_star_true. exists nb. split; [|done]. by apply elem_of_neighbors. }
  unfold place_star. cbn [force_positions]. unfold place_star_forced. rewrite Hex. done.
Qed.

(** ** The counts of the selector, stated on the board *)

(** [can_place_star] decides the availability predicate. *)
Lemma available_spec t rc : can_place_star t rc = true ↔ available t rc.
Proof.
  rewrite can_place_star_true. unfold available.
  assert ((∀ nb, nb ∈ neighbors rc → nb ∉ solution t)
          ↔ set_Forall (λ nb, in_grid nb → ¬ king_adjacent nb rc) (solution t)) as Hnb.
  { unfold set_Forall. split.
    - intros Hall nb Hnb Hg Hadj. apply (Hall nb); [|done]. by apply elem_of_neighbors.
    - intros Hall nb Hnb Hstar. apply elem_of_neighbors in Hnb as [Hg Hadj].
      by apply (Hall nb). }
  tauto.
Qed.

Lemma elem_of_board x : x ∈ board ↔ in_grid x.
Proof. apply elem_of_grid_cells. Qed.

Lemma NoDup_board : NoDup board.
Proof. apply NoDup_grid_cells. Qed.

(** The count the code takes over a list of distinct cells is the number
    of available cells of the board that the list holds. *)
Lemma count_available_where t cells (Q : nat * nat → Prop) `{!∀ x, Decision (Q x)} :
  NoDup cells → (∀ x, x ∈ cells ↔ in_grid x ∧ Q x) →
  count_available n regions unlabeled t cells = available_where t Q.
Proof.
  intros Hnd Hin. unfold count_available, available_where, valid_positions_of. f_equal.
  apply Permutation_length, NoDup_Permutation.
  - by apply NoDup_filter.
  - apply NoDup_filter, NoDup_board.
  - intros x. rewrite !list_elem_of_filter, Hin, elem_of_board, <- available_spec.
    rewrite Is_true_true. tauto.
Qed.

Lemma scan_choices_spec t rc : in_grid rc → scan_choices t rc = choices t rc.
Proof.
  intros [Hr Hc]. unfold scan_choices, choices.
  rewrite (count_available_where t (row_cells rc.1) (λ x, x.1 = rc.1)).
  2: { apply NoDup_row_cells. }
  2: { intros x. rewrite elem_of_row_cells. unfold in_grid. split.
       - intros [Heq Hlt]. rewrite Heq. tauto.
       - intros [[_ Hlt] Heq]. tauto. }
  rewrite (count_available_where t (col_cells rc.2) (λ x, x.2 = rc.2)).
  2: { apply NoDup_col_cells. }
  2: { intros x. rewrite elem_of_col_cells. unfold in_grid. split.
       - intros [Heq Hlt]. rewrite Heq. tauto.
       - intros [[Hlt _] Heq]. tauto. }
  destruct (region_of rc =? unlabeled) eqn:He.
  - apply Z.eqb_eq in He. by rewrite decide_True.
  - apply Z.eqb_neq in He. rewrite decide_False by done.
    rewrite (count_available_where t (region_members (region_of rc))
               (λ x, region_of x = region_of rc)); [done| |].
    + apply NoDup_region_members.
    + intros x. apply elem_of_region_members.
Qed.

Lemma scan_constraints_spec t rc : scan_constraints t rc = constraints t rc.
Proof.
  unfold scan_constraints, constraints.
  apply count_available_where; [apply NoDup_neighbors|].
  intros x. apply elem_of_neighbors.
Qed.

(** C8. On an [n] by [n] region matrix and in every state,
    [select_next_cell] returns [None] exactly when no cell of the board
    satisfies the availability predicate; otherwise it returns an available
    cell of the board with the fewest choices and, among those, the most
    constraints.  The availability predicate and the two counts are stated
    on the board, independently of the functions the scan calls. *)
Theorem select_next_cell_most_constrained (t : Tracked) :
  well_formed →
  (select_next_cell n regions unlabeled t = None
   ↔ ∀ x, in_grid x → ¬ available t x)
  ∧ ∀ rc, select_next_cell n regions unlabeled t = Some rc →
      in_grid rc ∧ available t rc
      ∧ ∀ x, in_grid x → available t x →
          choices t rc ≤ choices t x
          ∧ (choices t rc = choices t x → constraints t x ≤ constraints t rc).
Proof.
  intros _. split.
  - rewrite select_next_cell_None. split; intros Hall x Hx.
    + rewrite <- available_spec, (Hall x Hx). done.
    + destruct (can_place_star t x) eqn:Hc; [|done].
      by apply available_spec, Hall in Hc.
  - intros rc Hsel. apply select_next_cell_Some in Hsel as (Hg & Hcan & Hbest).
    split; [done|]. split; [by apply available_spec|]. intros x Hx Hax.
    apply available_spec in Hax. specialize (Hbest x Hx Hax). unfold beats in Hbest.
    rewrite !scan_choices_spec, !scan_constraints_spec in Hbest by done. lia.
Qed.

(** ** The rule a pass applies to every unit *)

Lemma valid_positions_available t cells :
  valid_positions_of n regions unlabeled t cells = filter (λ rc, available t rc) cells.
Proof.
  unfold valid_positions_of. apply list_filter_iff. intros x.
  rewrite Is_true_true. apply available_spec.
Qed.

(** Examining two lists of units one after the other. *)
Lemma check_units_app pre post changed s :
  check_units n regions unlabeled (pre ++ post) changed s
  = match check_units n regions unlabeled pre changed s with
    | (Some changed', s') => check_units n regions unlabeled post changed' s'
    | (None, s') => (None, s')
    end.
Proof.
  revert changed s. induction pre as [|[needed cells] pre IH]; intros changed s; [done|].
  cbn [app check_units].
  destruct (0 <? needed (tracked s)); [|apply IH].
  destruct (Z.of_nat _ =? needed (tracked s)).
  - destruct (force_positions _ _ _ _ _ _) as [changed' s']. apply IH.
  - destruct (Z.of_nat _ <? needed (tracked s)); [done|apply IH].
Qed.

(** Every list of the region table holds the cells of its region. *)
Lemma region_units_members :
  region_units n regions unlabeled
  = (λ rid, (λ t : Tracked, get0 (regs_needed t) rid, region_members rid))
      <$> region_cells.*1.
Proof.
  unfold region_units. rewrite <- list_fmap_compose. apply list_fmap_ext.
  intros i [rid cs] He. apply list_elem_of_lookup_2 in He.
  apply elem_of_region_cells in He as [_ ->]. done.
Qed.

Lemma pass_units_eq :
  pass_units = row_units n ++ col_units n ++ region_units n regions unlabeled.
Proof. unfold pass_units. by rewrite <- region_units_members. Qed.

(** A pass examines the rows, the columns and the regions, in this order. *)
Lemma propagate_pass_units s :
  propagate_pass n regions unlabeled s
  = check_units n regions unlabeled pass_units false s.
Proof.
  rewrite pass_units_eq, check_units_app. unfold propagate_pass.
  destruct (check_units _ _ _ (row_units n) false s) as [[ch1|] s1]; [|reflexivity].
  rewrite check_units_app.
  destruct (check_units _ _ _ (col_units n) ch1 s1) as [[ch2|] s2]; reflexivity.
Qed.

Lemma pass_units_ok : units_ok pass_units.
Proof.
  intros u Hu. rewrite pass_units_eq, !elem_of_app in Hu.
  destruct Hu as [Hu|[Hu|Hu]];
    [by apply row_units_ok|by apply col_units_ok|by apply region_units_ok].
Qed.

(** C2, as amended. On an [n] by [n] region matrix, a pass of
    [propagate_constraints] examines the rows,
    the columns and the regions of the table in order.  For each of these
    units, in the state [s1] in which the pass reaches it: with a quota
    that is not positive the unit is skipped; with a positive quota and as
    many available cells as the quota, a forced placement is attempted on
    each of these cells in order, and a cell receives its star exactly when
    no cell of the board king-adjacent to it holds a star at its turn (a
    cell next to a star placed just before is skipped); with fewer
    available cells the pass stops there and [propagate_constraints]
    returns false; with more, the unit changes nothing.  The loop runs
    passes until one places no star, then returns true with the state that
    pass started from, and it always ends. *)
Theorem propagate_constraints_unit_rule
    (s0 : Solver) (fuel : nat) (pre post : list unit)
    (needed : Tracked → Z) (cells : list (nat * nat)) (changed : bool) (s1 : Solver) :
  well_formed →
  pass_units = pre ++ (needed, cells) :: post →
  check_units n regions unlabeled pre false (count_propagation s0) = (Some changed, s1) →
  let pass := propagate_pass n regions unlabeled (count_propagation s0) in
  let valid_positions := filter (λ rc, available (tracked s1) rc) cells in
  let count := Z.of_nat (length valid_positions) in
  let forced := force_positions n regions unlabeled valid_positions changed s1 in
  (needed (tracked s1) ≤ 0 →
     pass = check_units n regions unlabeled post changed s1)
  ∧ (0 < needed (tracked s1) → count = needed (tracked s1) →
     pass = check_units n regions unlabeled post forced.1 forced.2
     ∧ solution (tracked forced.2) ⊆ solution (tracked s1) ∪ list_to_set valid_positions
     ∧ ∀ before v after, valid_positions = before ++ v :: after →
         (v ∈ solution (tracked forced.2)
          ↔ ∀ nb, in_grid nb → king_adjacent nb v →
              nb ∉ solution
                     (tracked (force_positions n regions unlabeled before changed s1).2)))
  ∧ (0 < needed (tracked s1) → count < needed (tracked s1) →
     pass = (None, s1)
     ∧ propagate_loop n regions unlabeled (S fuel) s0 = (Ret false, s1)
     ∧ propagate_constraints n regions unlabeled s0 = (Ret false, s1))
  ∧ (0 < needed (tracked s1) → needed (tracked s1) < count →
     pass = check_units n regions unlabeled post changed s1)
  ∧ (pass.1 = None →
     propagate_loop n regions unlabeled (S fuel) s0 = (Ret false, pass.2))
  ∧ (pass.1 = Some true →
     propagate_loop n regions unlabeled (S fuel) s0
     = propagate_loop n regions unlabeled fuel pass.2
     ∧ (grid_stars (tracked s0) < grid_stars (tracked pass.2))%nat)
  ∧ (pass.1 = Some false →
     propagate_loop n regions unlabeled (S fuel) s0 = (Ret true, pass.2)
     ∧ tracked pass.2 = tracked s0)
  ∧ ∃ b, (propagate_constraints n regions unlabeled s0).1 = Ret b.
Proof.
  intros _ Hsplit Hpre pass valid_positions count forced.
  assert (pass = check_units n regions unlabeled ((needed, cells) :: post) changed s1)
    as Hpass.
  { unfold pass. by rewrite propagate_pass_units, Hsplit, check_units_app, Hpre. }
  assert (NoDup cells) as Hnd.
  { apply (pass_units_ok (needed, cells)). rewrite Hsplit, elem_of_app, elem_of_cons. tauto. }
  assert (propagate_loop n regions unlabeled (S fuel) s0
          = match pass with
            | (None, s') => (Ret false, s')
            | (Some true, s') => propagate_loop n regions unlabeled fuel s'
            | (Some false, s') => (Ret true, s')
            end) as Hloop by done.
  cbn [check_units] in Hpass. rewrite valid_positions_available in Hpass.
  fold valid_positions in Hpass. fold count in Hpass.
  split; [|split; [|split; [|split; [|split; [|split; [|split]]]]]].
  - intros Hle. rewrite Hpass. by rewrite (proj2 (Z.ltb_ge _ _) Hle).
  - intros Hpos Heq. rewrite (proj2 (Z.ltb_lt _ _) Hpos) in Hpass.
    rewrite (proj2 (Z.eqb_eq _ _) Heq) in Hpass. fold forced in Hpass.
    split; [rewrite Hpass; by destruct forced|].
    split; [apply force_positions_solution|].
    intros before v after Hvs.
    assert ((∀ nb, in_grid nb → king_adjacent nb v →
               nb ∉ solution
                      (tracked (force_positions n regions unlabeled before changed s1).2))
            ↔ ∀ nb, nb ∈ neighbors v →
                nb ∉ solution
                       (tracked (force_positions n regions unlabeled before changed s1).2))
      as ->.
    { split.
      - intros Hall nb Hnb. apply elem_of_neighbors in Hnb as [Hg Hadj]. by apply Hall.
      - intros Hall nb Hg Hadj. apply Hall. by apply elem_of_neighbors. }
    unfold forced. rewrite Hvs. apply force_positions_placed.
    + rewrite <- Hvs. by apply NoDup_filter.
    + assert (v ∈ valid_positions) as Hv.
      { rewrite Hvs, elem_of_app, elem_of_cons. tauto. }
      apply list_elem_of_filter in Hv as [Hv _]. apply Hv.
  - intros Hpos Hlt. rewrite (proj2 (Z.ltb_lt _ _) Hpos) in Hpass.
    destruct (count =? needed (tracked s1)) eqn:Heq; [apply Z.eqb_eq in Heq; lia|].
    rewrite (proj2 (Z.ltb_lt _ _) Hlt) in Hpass.
    split; [done|]. split; [by rewrite Hloop, Hpass|].
    unfold propagate_constraints. cbn [propagate_loop]. fold pass. by rewrite Hpass.
  - intros Hpos Hgt. rewrite (proj2 (Z.ltb_lt _ _) Hpos) in Hpass.
    destruct (count =? needed (tracked s1)) eqn:Heq; [apply Z.eqb_eq in Heq; lia|].
    by rewrite (proj2 (Z.ltb_ge _ _) (Z.lt_le_incl _ _ Hgt)) in Hpass.
  - intros Hnone. rewrite Hloop. by destruct pass as [[[|]|] s'].
  - intros Htrue. rewrite Hloop.
    pose proof (propagate_pass_grows (count_propagation s0)) as [_ Hgrow].
    fold pass in Hgrow. destruct pass as [[[|]|] s']; try done.
    split; [done|]. by apply Hgrow.
  - intros Hfalse. rewrite Hloop.
    pose proof (propagate_pass_grows (count_propagation s0)) as [Hsame _].
    fold pass in Hsame. destruct pass as [[[|]|] s']; try done.
    split; [done|]. cbn in Hsame |- *. by rewrite Hsame.
  - apply propagate_constraints_ends.
Qed.

(** ** The search terminates *)

Lemma length_filter_mono_in {A} (P Q : A → Prop)
    `{∀ x, Decision (P x)} `{∀ x, Decision (Q x)} (l : list A) :
  (∀ x, x ∈ l → P x → Q x) → (length (filter P l) ≤ length (filter Q l))%nat.
Proof.
  induction l as [|x l IH]; intros Himp; [done|].
  assert (length (filter P l) ≤ length (filter Q l))%nat as Hle.
  { apply IH. intros y Hy. apply Himp. by apply list_elem_of_further. }
  rewrite !filter_cons. destruct (decide (P x)) as [HP|HP], (decide (Q x)) as [HQ|HQ];
    cbn [length]; try lia.
  destruct HQ. apply Himp; [apply list_elem_of_here|done].
Qed.

Lemma length_filter_strict_in {A} (P Q : A → Prop)
    `{∀ x, Decision (P x)} `{∀ x, Decision (Q x)} (l : list A) (v : A) :
  (∀ x, x ∈ l → P x → Q x) → v ∈ l → ¬ P v → Q v →
  (length (filter P l) < length (filter Q l))%nat.
Proof.
  induction l as [|x l IH]; intros Himp Hin HP HQ; [by apply elem_of_nil in Hin|].
  assert (∀ y, y ∈ l → P y → Q y) as Himp'.
  { intros y Hy. apply Himp. by apply list_elem_of_further. }
  pose proof (length_filter_mono_in P Q l Himp') as Hmono.
  rewrite !filter_cons. apply elem_of_cons in Hin as [<-|Hin].
  - rewrite decide_False, decide_True by done. cbn [length]. lia.
  - specialize (IH Himp' Hin HP HQ).
    destruct (decide (P x)) as [HPx|HPx], (decide (Q x)) as [HQx|HQx]; cbn [length]; try lia.
    destruct HQx. apply Himp; [apply list_elem_of_here|done].
Qed.

Lemma open_cells_mono t t' :
  (∀ rc, in_grid rc → rc ∉ solution t' → rc ∉ solution t) →
  (∀ rc, in_grid rc → get0 (forbidden_counts t) rc ≤ get0 (forbidden_counts t') rc) →
  (open_cells t' ≤ open_cells t)%nat.
Proof.
  intros Hsol Hfc. apply length_filter_mono_in. intros rc Hrc [H1 H2].
  apply elem_of_grid_cells in Hrc. split; [by apply Hsol|].
  specialize (Hfc rc Hrc). lia.
Qed.

Lemma open_cells_strict t t' v :
  (∀ rc, in_grid rc → rc ∉ solution t' → rc ∉ solution t) →
  (∀ rc, in_grid rc → get0 (forbidden_counts t) rc ≤ get0 (forbidden_counts t') rc) →
  in_grid v → v ∉ solution t → get0 (forbidden_counts t) v ≤ 0 →
  (v ∈ solution t' ∨ 0 < get0 (forbidden_counts t') v) →
  (open_cells t' < open_cells t)%nat.
Proof.
  intros Hsol Hfc Hg Hv Hv0 Hv'. apply (length_filter_strict_in _ _ _ v).
  - intros rc Hrc [H1 H2]. apply elem_of_grid_cells in Hrc. split; [by apply Hsol|].
    specialize (Hfc rc Hrc). lia.
  - by apply elem_of_grid_cells.
  - intros [H1 H2]. destruct Hv' as [?|?]; [done|lia].
  - done.
Qed.

Lemma stars_in_mono t t' cells :
  solution t ⊆ solution t' → stars_in t cells ≤ stars_in t' cells.
Proof.
  intros Hsub. unfold stars_in, count_in.
  pose proof (length_filter_mono (λ rc, rc ∈ solution t) (λ rc, rc ∈ solution t') cells) as Hle.
  assert (∀ x, x ∈ solution t → x ∈ solution t') as Himp by (intros x; apply Hsub).
  specialize (Hle Himp). lia.
Qed.

Lemma forces_open_cells s s' :
  forces s s' → (open_cells (tracked s') ≤ open_cells (tracked s))%nat.
Proof.
  intros [_ Hsub Hex _]. apply open_cells_mono.
  - intros rc _ Hrc Hin. apply Hrc. by apply Hsub.
  - intros rc Hg. specialize (Hex rc Hg). unfold excess, star_neighbors in Hex.
    pose proof (stars_in_mono _ _ (neighbors rc) Hsub). lia.
Qed.

Lemma put_star_open_cells t rc :
  in_grid rc → can_place_star t rc = true →
  (open_cells (put_star t rc) < open_cells t)%nat.
Proof.
  intros Hg Hcan. apply can_place_star_true in Hcan as (Hfree & Hfc & _).
  apply (open_cells_strict _ _ rc); try done.
  - intros rc' _ Hrc' Hin. apply Hrc'. cbn. set_solver.
  - intros rc' _. cbn. rewrite get0_foldl_bump by apply NoDup_neighbors.
    case_decide; lia.
  - left. cbn. set_solver.
Qed.

Lemma forbid_open_cells t rc :
  consistent t → in_grid rc → can_place_star t rc = true →
  (open_cells (with_forbidden (bump 1 (forbidden_counts t) rc) t) < open_cells t)%nat.
Proof.
  intros Hc Hg Hcan. apply can_place_star_true in Hcan as (Hfree & Hfc & _).
  pose proof (cons_counts _ Hc rc Hg) as Hcover.
  pose proof (count_in_nonneg (solution t) (neighbors rc)) as Hnn.
  unfold star_neighbors, stars_in in Hcover.
  apply (open_cells_strict _ _ rc); try done.
  - intros rc' _. cbn. rewrite get0_bump. case_decide; [subst rc'|]; lia.
  - right. cbn. rewrite get0_bump, decide_True by done. lia.
Qed.

Section SearchEnds.

Variable clock : nat → bool.

(** The state branch B starts from is sound. *)
Lemma sound_branch_b rc s1 s3 :
  sound s1 → sound s3 → extends s1 s3 → can_place_star (tracked s1) rc = true →
  sound (forbid rc (_restore_from_snapshot (take_snapshot s1) s3)).
Proof.
  intros Hs1 Hs3 He Hcan. apply sound_forbid; [|done]. apply sound_restore; [done| |].
  - by apply sound_consistent.
  - intros Hnf. by apply (extends_counts_exact s1 s3); [apply Hs1|..].
Qed.

(** With more fuel than open cells, [backtrack] returns a boolean: it
    neither runs out of fuel nor raises. *)
Lemma backtrack_returns fuel s :
  sound s → (open_cells (tracked s) < fuel)%nat →
  ∃ b, (backtrack n regions unlabeled clock fuel s).1 = Ret b.
Proof.
  revert s. induction fuel as [|fuel IH]; intros s Hs Hfuel; [lia|].
  cbn [backtrack].
  destruct (clock (nodes_visited (visit s))); [by exists false|].
  pose proof (propagate_constraints_sound (visit s) (sound_visit s Hs)) as Hprop.
  destruct (propagate_constraints_ends (visit s)) as [b1 Hb1].
  destruct (propagate_constraints n regions unlabeled (visit s)) as [r1 s1].
  cbn in Hprop, Hb1. destruct Hprop as [Hs1 Hf1]. subst r1.
  pose proof (forces_open_cells _ _ Hf1) as Hopen1. cbn in Hopen1.
  destruct b1; [|by exists false].
  destruct (is_complete (tracked s1)); [by exists true|].
  destruct (is_impossible n regions unlabeled (tracked s1)); [by exists false|].
  destruct (select_next_cell n regions unlabeled (tracked s1)) as [rc|] eqn:Hsel;
    [|by exists false].
  apply select_next_cell_Some in Hsel as (Hg & Hcan & _).
  pose proof (can_place_star_no_star _ _ Hcan) as Hfree.
  unfold place_star. rewrite (can_place_star_no_adjacent _ _ Hcan).
  set (s2 := log (OpPlace rc) (put_star (tracked s1) rc) s1).
  assert (sound s2) as Hs2 by (by apply sound_put_star).
  pose proof (put_star_open_cells _ _ Hg Hcan) as Hopen2.
  destruct (IH s2 Hs2) as [b3 Hb3]; [cbn; lia|].
  destruct (backtrack_sound clock fuel s2 Hs2) as [Hs3 He3].
  destruct (backtrack n regions unlabeled clock fuel s2) as [r3 s3].
  cbn in Hb3, Hs3, He3. subst r3.
  destruct b3; [by exists true|].
  assert (extends s1 s3) as He13.
  { eapply extends_trans; [|exact He3]. apply extends_log.
    intros rc' Hg'. by rewrite put_star_excess. }
  pose proof (sound_branch_b rc s1 s3 Hs1 Hs3 He13 Hcan) as Hs4.
  pose proof (forbid_open_cells _ _ (sound_consistent _ Hs1) Hg Hcan) as Hopen4.
  destruct (IH _ Hs4) as [b5 Hb5]; [cbn; unfold take_snapshot; lia|].
  destruct (backtrack n regions unlabeled clock fuel _) as [r5 s5].
  cbn in Hb5. subst r5. destruct b5; [by exists true|by exists false].
Qed.

Lemma open_cells_bound t : (open_cells t ≤ n * n)%nat.
Proof. unfold open_cells. rewrite <- length_grid_cells. apply length_filter. Qed.

(** With fuel [n * n + 1], [solve] returns a placement or [None] on
    every board and for every time budget. *)
Lemma solve_returns :
  ∃ r, (solve n regions unlabeled clock (S (n * n)) (init n regions k unlabeled)).1 = Ret r.
Proof.
  unfold solve.
  pose proof (propagate_constraints_sound _ init_sound) as Hprop.
  destruct (propagate_constraints_ends (init n regions k unlabeled)) as [b1 Hb1].
  destruct (propagate_constraints n regions unlabeled (init n regions k unlabeled))
    as [r1 s1].
  cbn in Hprop, Hb1. destruct Hprop as [Hs1 _]. subst r1.
  destruct b1; [|by eexists].
  destruct (is_complete (tracked s1)).
  { destruct (validate_no_adjacent n (tracked s1)); by eexists. }
  destruct (is_impossible n regions unlabeled (tracked s1)); [by eexists|].
  destruct (backtrack_returns (S (n * n)) s1 Hs1) as [b2 Hb2].
  { pose proof (open_cells_bound (tracked s1)). lia. }
  destruct (backtrack n regions unlabeled clock (S (n * n)) s1) as [r2 s2].
  cbn in Hb2. subst r2. destruct b2; [|by eexists].
  destruct (validate_no_adjacent n (tracked s2)); by eexists.
Qed.

End SearchEnds.


(** ** The fixpoint of the propagation *)

Lemma force_positions_flag vs changed s :
  changed = true → (force_positions n regions unlabeled vs changed s).1 = true.
Proof.
  revert changed s. induction vs as [|v vs IH]; intros changed s ->; [done|].
  cbn [force_positions]. destruct (place_star_forced _ _ _ _ _) as [placed s'].
  apply IH. by destruct placed.
Qed.

(** The first cell of a forced loop is placed when it has no star among
    its neighbours, and the flag is then set. *)
Lemma force_positions_first v vs changed s :
  existsb (has_star (tracked s)) (neighbors v) = false →
  (force_positions n regions unlabeled (v :: vs) changed s).1 = true.
Proof.
  intros Hadj. cbn [force_positions]. unfold place_star_forced. rewrite Hadj.
  by apply force_positions_flag.
Qed.

(** A list of units examined without setting the flag: nothing was placed
    and every unit was quiet. *)
Lemma check_units_quiet units changed s :
  (check_units n regions unlabeled units changed s).1 = Some false →
  changed = false
  ∧ (check_units n regions unlabeled units changed s).2 = s
  ∧ ∀ u, u ∈ units → quiet (tracked s) u.
Proof.
  revert changed s. induction units as [|[needed cells] units IH]; intros changed s;
    cbn [check_units].
  - cbn. intros [= ->]. split; [done|]. split; [done|].
    intros u Hu. by apply elem_of_nil in Hu.
  - destruct (0 <? needed (tracked s)) eqn:Hpos.
    + destruct (_ =? needed (tracked s)) eqn:Heq.
      * destruct (valid_positions_of n regions unlabeled (tracked s) cells) as [|v vs] eqn:Hval.
        { apply Z.eqb_eq in Heq. apply Z.ltb_lt in Hpos. cbn in Heq. lia. }
        assert (existsb (has_star (tracked s)) (neighbors v) = false) as Hadj.
        { apply can_place_star_no_adjacent.
          apply (valid_positions_spec (tracked s) cells v). rewrite Hval. apply list_elem_of_here. }
        pose proof (force_positions_first v vs changed s Hadj) as Hfirst.
        destruct (force_positions n regions unlabeled (v :: vs) changed s) as [changed' s'].
        cbn in Hfirst. subst changed'. cbv beta iota. intros Hr.
        apply IH in Hr as [Hr _]. discriminate Hr.
      * destruct (Z.of_nat _ <? needed (tracked s)) eqn:Hlt; [cbn; done|].
        intros Hr. destruct (IH _ _ Hr) as (-> & Hs & Hq).
        split; [done|]. split; [done|].
        intros u [->|Hu]%elem_of_cons; [|by apply Hq]. right. cbn [fst snd].
        apply Z.eqb_neq in Heq. apply Z.ltb_ge in Hlt. lia.
    + intros Hr. destruct (IH _ _ Hr) as (-> & Hs & Hq).
      split; [done|]. split; [done|].
      intros u [->|Hu]%elem_of_cons; [|by apply Hq]. left. cbn [fst snd].
      apply Z.ltb_ge in Hpos. lia.
Qed.

(** Quiet units are skipped. *)
Lemma check_units_settled units changed s :
  (∀ u, u ∈ units → quiet (tracked s) u) →
  check_units n regions unlabeled units changed s = (Some changed, s).
Proof.
  revert changed. induction units as [|[needed cells] units IH]; intros changed Hq; [done|].
  cbn [check_units].
  assert (∀ u, u ∈ units → quiet (tracked s) u) as Hq'.
  { intros u Hu. apply Hq. by apply list_elem_of_further. }
  destruct (Hq _ (list_elem_of_here _ _)) as [Hle|Hlt]; cbn [fst snd] in *.
  - destruct (0 <? needed (tracked s)) eqn:Hpos; [apply Z.ltb_lt in Hpos; lia|]. by apply IH.
  - destruct (0 <? needed (tracked s)); [|by apply IH].
    destruct (Z.of_nat _ =? needed (tracked s)) eqn:Heq; [apply Z.eqb_eq in Heq; lia|].
    destruct (Z.of_nat _ <? needed (tracked s)) eqn:Hlt'; [apply Z.ltb_lt in Hlt'; lia|].
    by apply IH.
Qed.

Lemma propagate_pass_quiet s :
  (propagate_pass n regions unlabeled s).1 = Some false →
  (propagate_pass n regions unlabeled s).2 = s ∧ settled (tracked s).
Proof.
  unfold propagate_pass.
  pose proof (check_units_quiet (row_units n) false s) as Hrows.
  destruct (check_units _ _ _ (row_units n) false s) as [[ch1|] s1]; [|done].
  pose proof (check_units_quiet (col_units n) ch1 s1) as Hcols.
  destruct (check_units _ _ _ (col_units n) ch1 s1) as [[ch2|] s2]; [|done].
  pose proof (check_units_quiet (region_units n regions unlabeled) ch2 s2) as Hregs.
  destruct (check_units _ _ _ (region_units n regions unlabeled) ch2 s2) as [r3 s3].
  cbn in *. intros Hr. destruct (Hregs Hr) as (-> & -> & Hq3).
  destruct (Hcols eq_refl) as (-> & -> & Hq2).
  destruct (Hrows eq_refl) as (_ & -> & Hq1).
  split; [done|]. intros u Hu. unfold all_units in Hu.
  rewrite !elem_of_app in Hu. destruct Hu as [?|[?|?]]; auto.
Qed.

Lemma propagate_pass_settled s :
  settled (tracked s) → propagate_pass n regions unlabeled s = (Some false, s).
Proof.
  intros Hq. unfold propagate_pass.
  rewrite !check_units_settled; [done|..];
    intros u Hu; apply Hq; unfold all_units; rewrite !elem_of_app; auto.
Qed.

Lemma propagate_loop_settled fuel s :
  (propagate_loop n regions unlabeled fuel s).1 = Ret true →
  settled (tracked (propagate_loop n regions unlabeled fuel s).2).
Proof.
  revert s. induction fuel as [|fuel IH]; intros s; cbn [propagate_loop]; [done|].
  pose proof (propagate_pass_quiet (count_propagation s)) as Hpass.
  destruct (propagate_pass _ _ _ _) as [[[|]|] s']; cbn in Hpass; [by apply IH| |done].
  intros _. by destruct (Hpass eq_refl) as [-> Hq].
Qed.

Lemma all_units_ok : units_ok all_units.
Proof.
  intros u Hu. unfold all_units in Hu. rewrite !elem_of_app in Hu.
  destruct Hu as [Hu|[Hu|Hu]];
    [by apply row_units_ok|by apply col_units_ok|by apply region_units_ok].
Qed.

Lemma existsb_false {A} (f : A → bool) (l : list A) :
  existsb f l = false ↔ ∀ x, x ∈ l → f x = false.
Proof.
  induction l as [|a l IH]; cbn.
  - split; [intros _ x Hx; by apply elem_of_nil in Hx|done].
  - rewrite orb_false_iff, IH. split.
    + intros [Ha Hl] x [->|Hx]%elem_of_cons; auto.
    + intros Hall. split; [apply Hall, list_elem_of_here|].
      intros x Hx. by apply Hall, list_elem_of_further.
Qed.

Lemma settled_not_impossible t : settled t → is_impossible n regions unlabeled t = false.
Proof.
  intros Hq. unfold is_impossible. rewrite !orb_false_iff, !existsb_false.
  assert (∀ u, u ∈ all_units →
            (count_available n regions unlabeled t u.2 <? u.1 t) = false) as Hu.
  { intros u Hu. unfold count_available. apply Z.ltb_ge.
    destruct (Hq u Hu) as [?|?]; lia. }
  split; [split|].
  - intros r Hr. apply (Hu (λ t : Tracked, idx (rows_needed t) r, row_cells r)).
    unfold all_units, row_units. rewrite !elem_of_app. left.
    apply list_elem_of_fmap. by exists r.
  - intros c Hc. apply (Hu (λ t : Tracked, idx (cols_needed t) c, col_cells c)).
    unfold all_units, col_units. rewrite !elem_of_app. right. left.
    apply list_elem_of_fmap. by exists c.
  - intros e He. apply (Hu (λ t : Tracked, get0 (regs_needed t) e.1, e.2)).
    unfold all_units, region_units. rewrite !elem_of_app. right. right.
    apply list_elem_of_fmap. by exists e.
Qed.

(** X4. Whenever [propagate_constraints] returns [True], [is_impossible]
    is [False] in the state it leaves: every unit either needs no star or
    has more available cells than it needs.  The impossibility tests that
    [backtrack] and [solve] make right after a successful propagation
    never fire. *)
Theorem is_impossible_false_after_propagation (s : Solver) :
  (propagate_constraints n regions unlabeled s).1 = Ret true →
  let t := tracked (propagate_constraints n regions unlabeled s).2 in
  settled t ∧ is_impossible n regions unlabeled t = false.
Proof.
  intros Hret. cbn zeta. apply propagate_loop_settled in Hret.
  split; [done|by apply settled_not_impossible].
Qed.

(** X5. [propagate_constraints] is idempotent on success: run again on
    the state it left, it returns [True] after a single pass that places
    no star; only the pass counter moves. *)
Theorem propagate_constraints_idempotent (s : Solver) :
  (propagate_constraints n regions unlabeled s).1 = Ret true →
  let s1 := (propagate_constraints n regions unlabeled s).2 in
  propagate_constraints n regions unlabeled s1 = (Ret true, count_propagation s1).
Proof.
  intros Hret. cbn zeta. apply propagate_loop_settled in Hret.
  unfold propagate_constraints at 1. cbn [propagate_loop].
  by rewrite propagate_pass_settled.
Qed.

(** X6. After a successful propagation [select_next_cell] returns a cell
    as long as some row, column or region still needs a star: it returns
    [None] only in a state where no quota is positive. *)
Theorem select_next_cell_after_propagation (s : Solver) :
  (propagate_constraints n regions unlabeled s).1 = Ret true →
  let t := tracked (propagate_constraints n regions unlabeled s).2 in
  select_next_cell n regions unlabeled t = None →
  (∀ r, (r < n)%nat → idx (rows_needed t) r ≤ 0)
  ∧ (∀ c, (c < n)%nat → idx (cols_needed t) c ≤ 0)
  ∧ (∀ rid, labeled rid → get0 (regs_needed t) rid ≤ 0).
Proof.
  intros Hret. cbn zeta. apply propagate_loop_settled in Hret.
  fold (propagate_constraints n regions unlabeled s) in Hret.
  set (t := tracked (propagate_constraints n regions unlabeled s).2) in *.
  intros Hnone. rewrite select_next_cell_None in Hnone.
  assert (∀ u, u ∈ all_units → u.1 t ≤ 0) as Hu.
  { intros u Hu. destruct (Hret u Hu) as [?|Hlt]; [done|].
    destruct (valid_positions_of n regions unlabeled t u.2) as [|v vs] eqn:Hval.
    { cbn in Hlt. lia. }
    assert (v ∈ valid_positions_of n regions unlabeled t u.2) as Hv
      by (rewrite Hval; apply list_elem_of_here).
    apply valid_positions_spec in Hv as [Hcan Hin].
    rewrite Hnone in Hcan; [done|]. by apply (all_units_ok u Hu). }
  split; [|split].
  - intros r Hr. apply (Hu (λ t : Tracked, idx (rows_needed t) r, row_cells r)).
    unfold all_units, row_units. rewrite !elem_of_app. left.
    apply list_elem_of_fmap. exists r. split; [done|]. apply elem_of_seq. lia.
  - intros c Hc. apply (Hu (λ t : Tracked, idx (cols_needed t) c, col_cells c)).
    unfold all_units, col_units. rewrite !elem_of_app. right. left.
    apply list_elem_of_fmap. exists c. split; [done|]. apply elem_of_seq. lia.
  - intros rid Hl.
    apply (Hu (λ t : Tracked, get0 (regs_needed t) rid, region_members rid)).
    unfold all_units, region_units. rewrite !elem_of_app. right. right.
    apply list_elem_of_fmap. exists (rid, region_members rid). split; [done|].
    by apply elem_of_region_cells.
Qed.


(** ** Invariants of the tracked attributes along a solve *)

Section HistoryInvariant.

(** A property of the tracked attributes that a placement on a cell
    without star neighbours keeps, and that does not depend on the
    forbidden counts. *)
Variable P : Tracked → Prop.
Hypothesis P_put_star : ∀ t rc,
  consistent t → P t → in_grid rc → rc ∉ solution t →
  existsb (has_star t) (neighbors rc) = false → P (put_star t rc).
Hypothesis P_with_forbidden : ∀ fc t, P t → P (with_forbidden fc t).

Local Abbreviation always s := (Forall (λ e : Op * Tracked, P e.2) (history s)).

Lemma always_tracked s : logged s → always s → P (tracked s).
Proof.
  intros (op & rest & Hh) Hall. rewrite Hh in Hall. by apply Forall_cons in Hall as [? _].
Qed.

Lemma always_log op t s : always s → P t → always (log op t s).
Proof. intros Hall Ht. cbn. by apply Forall_cons. Qed.

Lemma force_positions_always vs changed s :
  sound s → NoDup vs →
  (∀ v, v ∈ vs → in_grid v ∧ v ∉ solution (tracked s)) →
  always s → always (force_positions n regions unlabeled vs changed s).2.
Proof.
  revert changed s. induction vs as [|v vs IH]; intros changed s Hs Hnd Hvs Hall; [done|].
  apply NoDup_cons in Hnd as [Hv Hnd].
  destruct (Hvs v (list_elem_of_here _ _)) as [Hg Hvsol].
  cbn [force_positions]. unfold place_star_forced.
  destruct (existsb (has_star (tracked s)) (neighbors v)) eqn:Hadj.
  - apply IH; [done|done| |done]. intros v' Hv'. apply Hvs. by apply list_elem_of_further.
  - apply IH; [by apply sound_put_star|done| |].
    + intros v' Hv'. split; [apply Hvs; by apply list_elem_of_further|].
      cbn. rewrite elem_of_union, elem_of_singleton. intros [->|Hin]; [done|].
      by apply (Hvs v'); [apply list_elem_of_further|].
    + apply always_log; [done|]. apply P_put_star; try done; [by apply sound_consistent|].
      apply always_tracked; [apply Hs|done].
Qed.

Lemma check_units_always units changed s :
  sound s → units_ok units → always s →
  always (check_units n regions unlabeled units changed s).2.
Proof.
  revert changed s. induction units as [|[needed cells] units IH];
    intros changed s Hs Hok Hall; [done|].
  assert (units_ok units) as Hok'.
  { intros u Hu. apply Hok. by apply list_elem_of_further. }
  destruct (Hok _ (list_elem_of_here _ _)) as [Hnd Hgrid]. cbn in Hnd, Hgrid.
  cbn [check_units].
  destruct (0 <? needed (tracked s)); [|by apply IH].
  destruct (Z.of_nat _ =? needed (tracked s)).
  - assert (NoDup (valid_positions_of n regions unlabeled (tracked s) cells)) as Hnd'
      by (by apply NoDup_filter).
    assert (∀ v, v ∈ valid_positions_of n regions unlabeled (tracked s) cells →
              in_grid v ∧ v ∉ solution (tracked s)) as Hvs.
    { intros v Hv. apply valid_positions_spec in Hv as [Hcan Hin].
      split; [by apply Hgrid|by apply can_place_star_no_star]. }
    pose proof (force_positions_sound _ changed s Hs Hnd' Hvs) as Hsound.
    pose proof (force_positions_always _ changed s Hs Hnd' Hvs Hall) as Hall'.
    destruct (force_positions _ _ _ _ _ _) as [changed' s'].
    cbn in Hsound, Hall'. destruct Hsound as (Hs' & _). by apply IH.
  - destruct (Z.of_nat _ <? needed (tracked s)); [done|by apply IH].
Qed.

Lemma propagate_pass_always s :
  sound s → always s → always (propagate_pass n regions unlabeled s).2.
Proof.
  intros Hs Hall. unfold propagate_pass.
  pose proof (check_units_sound (row_units n) false s Hs row_units_ok) as Hrows.
  pose proof (check_units_always (row_units n) false s Hs row_units_ok Hall) as Hall1.
  destruct (check_units _ _ _ (row_units n) false s) as [[ch1|] s1]; cbn in Hrows, Hall1;
    destruct Hrows as (Hs1 & _); [|done].
  pose proof (check_units_sound (col_units n) ch1 s1 Hs1 col_units_ok) as Hcols.
  pose proof (check_units_always (col_units n) ch1 s1 Hs1 col_units_ok Hall1) as Hall2.
  destruct (check_units _ _ _ (col_units n) ch1 s1) as [[ch2|] s2]; cbn in Hcols, Hall2;
    destruct Hcols as (Hs2 & _); [|done].
  by apply check_units_always; [|apply region_units_ok|].
Qed.

Lemma propagate_loop_always fuel s :
  sound s → always s → always (propagate_loop n regions unlabeled fuel s).2.
Proof.
  revert s. induction fuel as [|fuel IH]; intros s Hs Hall; cbn [propagate_loop]; [done|].
  pose proof (propagate_pass_sound _ (sound_count_propagation s Hs)) as Hpass.
  pose proof (propagate_pass_always _ (sound_count_propagation s Hs) Hall) as Hall'.
  destruct (propagate_pass _ _ _ _) as [[[|]|] s']; cbn in Hpass, Hall';
    destruct Hpass as (Hs' & _); [by apply IH|done|done].
Qed.

Lemma backtrack_always clock fuel s :
  sound s → always s → always (backtrack n regions unlabeled clock fuel s).2.
Proof.
  revert s. induction fuel as [|fuel IH]; intros s Hs Hall; cbn [backtrack]; [done|].
  pose proof (sound_visit s Hs) as Hs0.
  destruct (clock (nodes_visited (visit s))); [done|].
  pose proof (propagate_constraints_sound (visit s) Hs0) as Hprop.
  pose proof (propagate_loop_always (S (n * n)) (visit s) Hs0 Hall) as Hall1.
  fold (propagate_constraints n regions unlabeled (visit s)) in Hall1.
  destruct (propagate_constraints n regions unlabeled (visit s)) as [r1 s1].
  cbn in Hprop, Hall1. destruct Hprop as [Hs1 Hf1].
  destruct r1 as [[|]| |]; try done.
  destruct (is_complete (tracked s1)); [done|].
  destruct (is_impossible n regions unlabeled (tracked s1)); [done|].
  destruct (select_next_cell n regions unlabeled (tracked s1)) as [rc|] eqn:Hsel; [|done].
  apply select_next_cell_Some in Hsel as (Hg & Hcan & _).
  pose proof (can_place_star_no_star _ _ Hcan) as Hfree.
  pose proof (can_place_star_no_adjacent _ _ Hcan) as Hadj.
  unfold place_star. rewrite Hadj.
  assert (P (tracked s1)) as HP1 by (apply always_tracked; [apply Hs1|done]).
  set (s2 := log (OpPlace rc) (put_star (tracked s1) rc) s1).
  assert (sound s2) as Hs2 by (by apply sound_put_star).
  assert (always s2) as Hall2.
  { apply always_log; [done|]. apply P_put_star; try done. by apply sound_consistent. }
  pose proof (IH s2 Hs2 Hall2) as Hall3.
  destruct (backtrack_sound clock fuel s2 Hs2) as [Hs3 He3].
  destruct (backtrack n regions unlabeled clock fuel s2) as [r3 s3].
  cbn in Hall3, Hs3, He3.
  destruct r3 as [[|]| |]; cbn [fst snd]; try done.
  assert (extends s1 s3) as He13.
  { eapply extends_trans; [|exact He3]. apply extends_log.
    intros rc' Hg'. by rewrite put_star_excess. }
  pose proof (sound_branch_b rc s1 s3 Hs1 Hs3 He13 Hcan) as Hs4.
  unfold take_snapshot in *.
  set (s4 := forbid rc (_restore_from_snapshot (tracked s1) s3)) in *.
  assert (always s4) as Hall4.
  { apply always_log; [by apply always_log|]. by apply P_with_forbidden. }
  pose proof (IH s4 Hs4 Hall4) as Hall5.
  destruct (backtrack_sound clock fuel s4 Hs4) as [Hs5 _].
  destruct (backtrack n regions unlabeled clock fuel s4) as [r5 s5].
  cbn in Hall5, Hs5.
  destruct r5 as [[|]| |]; cbn [fst snd]; try done.
  apply always_log; [|done]. apply always_log; [done|].
  apply P_with_forbidden. apply always_tracked; [apply Hs5|done].
Qed.

Lemma solve_always clock fuel s :
  sound s → always s → always (solve n regions unlabeled clock fuel s).2.
Proof.
  intros Hs Hall. unfold solve.
  pose proof (propagate_constraints_sound s Hs) as Hprop.
  pose proof (propagate_loop_always (S (n * n)) s Hs Hall) as Hall1.
  fold (propagate_constraints n regions unlabeled s) in Hall1.
  destruct (propagate_constraints n regions unlabeled s) as [r1 s1].
  cbn in Hprop, Hall1. destruct Hprop as [Hs1 _].
  destruct r1 as [[|]| |]; try done.
  destruct (is_complete (tracked s1)).
  { by destruct (validate_no_adjacent n (tracked s1)). }
  destruct (is_impossible n regions unlabeled (tracked s1)); [done|].
  pose proof (backtrack_always clock fuel s1 Hs1 Hall1) as Hall2.
  destruct (backtrack n regions unlabeled clock fuel s1) as [r2 s2]. cbn in Hall2.
  destruct r2 as [[|]| |]; try done.
  by destruct (validate_no_adjacent n (tracked s2)).
Qed.

End HistoryInvariant.

Lemma apart_put_star t rc :
  consistent t → apart t → in_grid rc → rc ∉ solution t →
  existsb (has_star t) (neighbors rc) = false → apart (put_star t rc).
Proof.
  intros Hc Ha Hg Hfree Hadj a b. rewrite adjacent_star_false in Hadj.
  cbn. rewrite !elem_of_union, !elem_of_singleton.
  intros [->|Hin] Hb [->|Hbin].
  - by apply not_self_neighbor in Hb.
  - by apply (Hadj b).
  - apply (Hadj a); [|done]. apply neighbors_sym; [done|done|].
    by apply (shaped_solution _ (cons_shaped _ Hc)).
  - by apply (Ha a b).
Qed.

Lemma apart_validate t : apart t ↔ validate_no_adjacent n t = true.
Proof.
  split; [|intros Hval rc nb; by apply validate_no_adjacent_true].
  intros Ha. unfold validate_no_adjacent. rewrite forallb_forall. intros rc Hrc.
  apply list_elem_of_In, elem_of_elements in Hrc.
  rewrite forallb_forall. intros nb Hnb. apply list_elem_of_In in Hnb.
  apply negb_true_iff, bool_decide_eq_false. by apply (Ha rc nb).
Qed.

Lemma solve_apart (clock : nat → bool) (fuel : nat) :
  let r := solve n regions unlabeled clock fuel (init n regions k unlabeled) in
  Forall (λ e : Op * Tracked, apart e.2) (history r.2) ∧ apart (tracked r.2).
Proof.
  cbn zeta.
  pose proof (solve_sound clock fuel _ init_sound) as [Hs _].
  assert (Forall (λ e : Op * Tracked, apart e.2)
            (history (solve n regions unlabeled clock fuel (init n regions k unlabeled)).2))
    as Hall.
  { apply (solve_always apart); [apply apart_put_star|done|apply init_sound|].
    cbn. apply Forall_singleton. intros rc nb Hrc. by apply elem_of_empty in Hrc. }
  split; [done|]. destruct (sound_logged _ Hs) as (op & rest & Hh).
  rewrite Hh in Hall. by apply Forall_cons in Hall as [? _].
Qed.

(** X2. At every state a solve goes through, no two stars are on
    king-adjacent cells: every pair of distinct stars is at Chebyshev
    distance at least 2, and [validate_no_adjacent] holds, in particular in
    the state [solve] ends in.  The validation made before a placement is
    returned never rejects it. *)
Theorem stars_never_adjacent (clock : nat → bool) (fuel : nat) :
  let r := solve n regions unlabeled clock fuel (init n regions k unlabeled) in
  Forall (λ e : Op * Tracked,
            validate_no_adjacent n e.2 = true
            ∧ ∀ a b, a ∈ solution e.2 → b ∈ solution e.2 → a ≠ b → 2 ≤ chebyshev a b)
         (history r.2)
  ∧ validate_no_adjacent n (tracked r.2) = true.
Proof.
  cbn zeta.
  pose proof (solve_sound clock fuel _ init_sound) as [Hs _].
  destruct (solve_apart clock fuel) as [Hall Hfin].
  split.
  - pose proof (sound_history _ Hs) as Hcons.
    rewrite Forall_forall in Hall, Hcons. apply Forall_forall. intros e He.
    split; [by apply apart_validate, Hall|].
    intros a b Ha Hb Hne. destruct (Z_lt_le_dec (chebyshev a b) 2) as [Hlt|]; [|done].
    exfalso. apply (Hall e He b a Hb); [|done].
    apply elem_of_neighbors.
    split; [by apply (shaped_solution _ (cons_shaped _ (Hcons e He)))|].
    by apply chebyshev_adjacent.
  - by apply apart_validate.
Qed.


(** ** Completeness of the search *)


Lemma is_complete_intro t :
  shaped t →
  (∀ r, (r < n)%nat → idx (rows_needed t) r = 0) →
  (∀ c, (c < n)%nat → idx (cols_needed t) c = 0) →
  (∀ rid, labeled rid → get0 (regs_needed t) rid = 0) →
  is_complete t = true.
Proof.
  intros Hs Hr Hc Hg. unfold is_complete. rewrite !andb_true_iff, !forallb_forall.
  assert (∀ (l : list Z), length l = n → (∀ i, (i < n)%nat → idx l i = 0) →
            ∀ x, In x l → (x =? 0) = true) as Hidx.
  { intros l Hlen Hall x Hx. apply list_elem_of_In, list_elem_of_lookup in Hx as [i Hi].
    pose proof (lookup_lt_Some _ _ _ Hi) as Hlt. rewrite Hlen in Hlt.
    specialize (Hall i Hlt). unfold idx in Hall. rewrite Hi in Hall. cbn in Hall. lia. }
  split; [split|].
  - apply Hidx; [apply Hs|done].
  - apply Hidx; [apply Hs|done].
  - intros x Hx. apply list_elem_of_In, list_elem_of_fmap in Hx as ([rid y] & -> & Hin).
    apply elem_of_map_to_list in Hin. cbn.
    assert (labeled rid) as Hl.
    { apply (shaped_regs _ Hs). apply elem_of_dom. by eexists. }
    specialize (Hg rid Hl). unfold get0 in Hg. rewrite Hin in Hg. cbn in Hg. lia.
Qed.

Section Complete.

(** A placement that satisfies the conditions of the puzzle. *)
Variable sol : gset (nat * nat).
Hypothesis Hsol : valid_placement sol.














End Complete.


Section CompleteSearch.

Variable sol : gset (nat * nat).
Hypothesis Hsol : valid_placement sol.

(** A time budget that is never exceeded. *)
Variable clock : nat → bool.
Hypothesis Hclock : ∀ i, clock i = false.




End CompleteSearch.



(** ** The search never raises *)



(** ** The tables built by [__init__] *)

Lemma length_neighbors rc : (length (neighbors rc) ≤ 8)%nat.
Proof.
  unfold ImprovedStarBattleSolver.neighbors.
  cbn [mbind list_bind foldr app Z.eqb andb].
  rewrite !length_app.
  repeat match goal with
         | |- context [if ?b then [?x] else []] => destruct b
         end; cbn [length]; lia.
Qed.

(** X7. The table [neighbors] of [__init__] lists, for every cell, the
    cells of the board at Chebyshev distance 1, each once: at most eight
    cells, never the cell itself, and a cell of the board is a neighbour
    of each of its neighbours. *)
Theorem neighbors_are_king_moves (rc : nat * nat) :
  NoDup (neighbors rc)
  ∧ (length (neighbors rc) ≤ 8)%nat
  ∧ (∀ nb, nb ∈ neighbors rc ↔ in_grid nb ∧ nb ≠ rc ∧ chebyshev nb rc = 1)
  ∧ (in_grid rc → ∀ nb, nb ∈ neighbors rc → rc ∈ neighbors nb).
Proof.
  split; [apply NoDup_neighbors|]. split; [apply length_neighbors|]. split.
  - intros nb. rewrite elem_of_neighbors. unfold king_adjacent, chebyshev.
    split.
    + intros (Hg & Hne & H1 & H2). split; [done|]. split; [done|].
      destruct nb as [a b], rc as [c d]. cbn in *.
      assert (a ≠ c ∨ b ≠ d) as Hd.
      { destruct (decide (a = c)) as [->|]; [right|by left]. congruence. }
      lia.
    + intros (Hg & Hne & Hd). split; [done|]. split; [done|]. lia.
  - intros Hg nb Hnb. apply neighbors_sym; [by eapply neighbors_in_grid|done|done].
Qed.

(** X8. The table [region_cells] of [__init__] has one entry for every
    identifier that labels a cell of the board, none for [unlabeled], and
    the entry lists the cells of the region in row-major order; the quota
    [regs_needed] starts at [k] for exactly these identifiers and has no
    entry for any other. *)
Theorem region_tables_of_init :
  NoDup region_cells.*1
  ∧ (∀ rid cs, (rid, cs) ∈ region_cells ↔ labeled rid ∧ cs = region_members rid)
  ∧ (∀ rid rc, rc ∈ region_members rid ↔ in_grid rc ∧ region_of rc = rid)
  ∧ (∀ rid, labeled rid → regs_needed (init_tracked n regions k unlabeled) !! rid = Some k)
  ∧ (∀ rid, ¬ labeled rid → regs_needed (init_tracked n regions k unlabeled) !! rid = None).
Proof.
  split; [apply NoDup_region_ids|]. split; [apply elem_of_region_cells|].
  split; [apply elem_of_region_members|].
  assert (∀ rid, rid ∈ dom (regs_needed (init_tracked n regions k unlabeled)) ↔ labeled rid)
    as Hdom.
  { intros rid. cbn. rewrite init_regs_dom, dom_empty_L, elem_of_region_ids. set_solver. }
  split.
  - intros rid Hl. pose proof (init_regs_get region_cells.*1 ∅ rid) as Hget.
    rewrite elem_of_region_ids in Hget. specialize (Hget Hl).
    apply Hdom, elem_of_dom in Hl as [x Hx]. cbn in Hx |- *.
    unfold get0 in Hget. rewrite Hx in Hget. cbn in Hget. by subst x.
  - intros rid Hl. apply not_elem_of_dom. by rewrite Hdom.
Qed.

(** ** [remove_star] *)

Lemma elem_of_new_forbidden_of (fc : gmap (nat * nat) Z) nbs x :
  NoDup nbs → x ∈ new_forbidden_of fc nbs ↔ x ∈ nbs ∧ get0 fc x = 0.
Proof.
  revert fc. induction nbs as [|nb nbs IH]; intros fc Hnd; cbn [new_forbidden_of].
  { rewrite !elem_of_nil. tauto. }
  apply NoDup_cons in Hnd as [Hnb Hnd]. cbn zeta.
  assert (∀ y, y ∈ nbs → get0 (bump 1 fc nb) y = get0 fc y) as Hother.
  { intros y Hy. rewrite get0_bump, decide_False; [done|]. by intros ->. }
  rewrite get0_bump, decide_True by done.
  destruct (get0 fc nb + 1 =? 1) eqn:H1.
  - apply Z.eqb_eq in H1. rewrite !elem_of_cons, IH by done. split.
    + intros [->|[Hin H0]]; [split; [by left|lia]|].
      split; [by right|]. by rewrite <- Hother.
    + intros [[->|Hin] H0]; [by left|right]. split; [done|]. by rewrite Hother.
  - apply Z.eqb_neq in H1. rewrite elem_of_cons, IH by done. split.
    + intros [Hin H0]. split; [by right|]. by rewrite <- Hother.
    + intros [[->|Hin] H0]; [lia|]. split; [done|]. by rewrite Hother.
Qed.

Lemma NoDup_new_forbidden_of (fc : gmap (nat * nat) Z) nbs :
  NoDup nbs → NoDup (new_forbidden_of fc nbs).
Proof.
  revert fc. induction nbs as [|nb nbs IH]; intros fc Hnd; cbn [new_forbidden_of].
  { apply NoDup_nil_2. }
  pose proof Hnd as Hnd0. apply NoDup_cons in Hnd as [Hnb Hnd]. cbn zeta.
  destruct (_ =? 1); [|by apply IH].
  apply NoDup_cons. split; [|by apply IH].
  rewrite elem_of_new_forbidden_of by done. tauto.
Qed.

Lemma get0_foldl_unbump (m : gmap (nat * nat) Z) l x :
  NoDup l →
  get0 (foldl unbump m l) x = get0 m x - (if decide (x ∈ l) then 1 else 0).
Proof.
  revert m. induction l as [|y l IH]; intros m Hnd; cbn [foldl].
  { rewrite decide_False by apply not_elem_of_nil. lia. }
  apply NoDup_cons in Hnd as [Hy Hnd]. rewrite IH by done.
  unfold unbump. rewrite get0_unforbid.
  destruct (decide (y = x)) as [->|Hne].
  - rewrite decide_False by done. rewrite decide_True by apply list_elem_of_here. lia.
  - destruct (decide (x ∈ l)) as [Hin|Hout].
    + rewrite decide_True by (by apply list_elem_of_further). lia.
    + rewrite decide_False; [lia|]. intros [->|?]%elem_of_cons; done.
Qed.

(** X9. [remove_star] does not undo [place_star].  Called with the list
    that [place_star] returned, it restores the star set, the row and
    column quotas and the region quota, but it decrements the forbidden
    count only of the neighbours whose count had been 0: every neighbour
    that already had a non-zero count keeps the increment.  The forbidden
    counts are restored exactly when all neighbours had count 0. *)
Theorem remove_star_keeps_increments
    (s s' : Solver) (rc : nat * nat) (new_forbidden : list (nat * nat)) :
  (rc.1 < length (rows_needed (tracked s)))%nat →
  (rc.2 < length (cols_needed (tracked s)))%nat →
  rc ∉ solution (tracked s) →
  place_star n regions unlabeled rc s = Some (new_forbidden, s') →
  ∃ t', remove_star regions unlabeled rc new_forbidden (tracked s') = Some t'
    ∧ rows_needed t' = rows_needed (tracked s)
    ∧ cols_needed t' = cols_needed (tracked s)
    ∧ solution t' = solution (tracked s)
    ∧ (∀ rid, get0 (regs_needed t') rid = get0 (regs_needed (tracked s)) rid)
    ∧ (∀ x, get0 (forbidden_counts t') x
            = get0 (forbidden_counts (tracked s)) x
              + (if decide (x ∈ neighbors rc ∧ get0 (forbidden_counts (tracked s)) x ≠ 0)
                 then 1 else 0))
    ∧ ((∀ x, get0 (forbidden_counts t') x = get0 (forbidden_counts (tracked s)) x)
       ↔ ∀ nb, nb ∈ neighbors rc → get0 (forbidden_counts (tracked s)) nb = 0).
Proof.
  intros Hr Hc Hfree Hplace. unfold place_star in Hplace.
  destruct (existsb (has_star (tracked s)) (neighbors rc)); [done|].
  injection Hplace as <- <-. set (t := tracked s) in *.
  destruct (lookup_lt_is_Some_2 _ _ Hr) as [x Hx].
  destruct (lookup_lt_is_Some_2 _ _ Hc) as [y Hy].
  unfold remove_star. cbn [tracked log].
  assert (has_star (put_star t rc) rc = true) as ->.
  { apply bool_decide_eq_true. cbn. set_solver. }
  cbn [ImprovedStarBattleSolver.put_star rows_needed cols_needed regs_needed
         forbidden_counts solution].
  rewrite !list_lookup_insert_eq by done.
  eexists. split; [reflexivity|].
  cbn [rows_needed cols_needed regs_needed forbidden_counts solution].
  assert (∀ z, get0 (foldl unbump (foldl (bump 1) (forbidden_counts t) (neighbors rc))
                       (new_forbidden_of (forbidden_counts t) (neighbors rc))) z
               = get0 (forbidden_counts t) z
                 + (if decide (z ∈ neighbors rc ∧ get0 (forbidden_counts t) z ≠ 0)
                    then 1 else 0)) as Hfc.
  { intros z. rewrite get0_foldl_unbump by apply NoDup_new_forbidden_of, NoDup_neighbors.
    rewrite get0_foldl_bump by apply NoDup_neighbors.
    pose proof (elem_of_new_forbidden_of (forbidden_counts t) (neighbors rc) z
                  (NoDup_neighbors rc)) as Hnf.
    repeat case_decide; first [lia|exfalso; tauto]. }
  split; [|split; [|split; [|split; [|split]]]].
  - rewrite list_insert_insert_eq. apply list_insert_id.
    unfold idx. rewrite Hx. cbn. f_equal. lia.
  - rewrite list_insert_insert_eq. apply list_insert_id.
    unfold idx. rewrite Hy. cbn. f_equal. lia.
  - apply set_eq. intros z. set_solver.
  - intros rid. destruct (region_of rc =? unlabeled); [done|].
    rewrite !get0_bump. case_decide as Heq; [subst rid|done].
    rewrite decide_True by done. lia.
  - exact Hfc.
  - split.
    + intros Hall nb Hnb. specialize (Hall nb). rewrite Hfc in Hall.
      destruct (decide (get0 (forbidden_counts t) nb = 0)) as [|Hne]; [done|].
      rewrite decide_True in Hall by done. lia.
    + intros Hzero z. rewrite Hfc. rewrite decide_False; [lia|].
      intros [Hin Hne]. by apply Hne, Hzero.
Qed.


(** ** What a failed search leaves, and the time budget *)

(** X14. A call of [backtrack] that returns [False] leaves no trace of
    its two branches: the tracked attributes it ends with are those of the
    entry state when the time budget was exceeded, and otherwise exactly
    those that its own call of [propagate_constraints] left.  The stars of
    the caller are kept, and every forbidden count stands to the star
    neighbours of its cell as it did at entry: neither the star of branch A
    nor the forbid mark of branch B remains. *)
Theorem failed_backtrack_undoes_branches (clock : nat → bool) (fuel : nat) (s : Solver) :
  sound s →
  (backtrack n regions unlabeled clock fuel s).1 = Ret false →
  let s' := (backtrack n regions unlabeled clock fuel s).2 in
  tracked s'
  = (if clock (nodes_visited (visit s)) then tracked s
     else tracked (propagate_constraints n regions unlabeled (visit s)).2)
  ∧ solution (tracked s) ⊆ solution (tracked s')
  ∧ ∀ rc, in_grid rc → excess (tracked s') rc = excess (tracked s) rc.
Proof.
  intros Hs. destruct fuel as [|fuel]; cbn [backtrack]; [done|]. cbn zeta.
  destruct (clock (nodes_visited (visit s))).
  { intros _. cbn. done. }
  pose proof (propagate_constraints_sound (visit s) (sound_visit s Hs)) as Hprop.
  destruct (propagate_constraints n regions unlabeled (visit s)) as [r1 s1].
  cbn in Hprop. destruct Hprop as [Hs1 Hf1].
  assert (∀ s', tracked s' = tracked s1 →
            tracked s' = tracked s1
            ∧ solution (tracked s) ⊆ solution (tracked s')
            ∧ ∀ rc, in_grid rc → excess (tracked s') rc = excess (tracked s) rc) as Hexit.
  { intros s' ->. split; [done|]. split; [apply (forces_solution _ _ Hf1)|].
    intros rc Hg. apply (forces_excess _ _ Hf1 rc Hg). }
  destruct r1 as [[|]| |]; try done; [|intros _; by apply Hexit].
  destruct (is_complete (tracked s1)); [done|].
  destruct (is_impossible n regions unlabeled (tracked s1)); [intros _; by apply Hexit|].
  destruct (select_next_cell n regions unlabeled (tracked s1)) as [rc|];
    [|intros _; by apply Hexit].
  destruct (place_star n regions unlabeled rc s1) as [[nf s2]|]; [|done].
  destruct (backtrack n regions unlabeled clock fuel s2) as [[[|]| |] s3]; try done.
  destruct (backtrack n regions unlabeled clock fuel _) as [[[|]| |] s5]; try done.
  intros _. by apply Hexit.
Qed.

Lemma backtrack_true_clock (clock : nat → bool) fuel s :
  sound s →
  (backtrack n regions unlabeled clock fuel s).1 = Ret true →
  clock (nodes_visited (backtrack n regions unlabeled clock fuel s).2) = false.
Proof.
  revert s. induction fuel as [|fuel IH]; intros s Hs; cbn [backtrack]; [done|].
  destruct (clock (nodes_visited (visit s))) eqn:Hclock; [done|].
  pose proof (propagate_constraints_sound (visit s) (sound_visit s Hs)) as Hprop.
  destruct (propagate_constraints n regions unlabeled (visit s)) as [r1 s1].
  cbn in Hprop. destruct Hprop as [Hs1 Hf1].
  destruct r1 as [[|]| |]; try done.
  destruct (is_complete (tracked s1)).
  { intros _. cbn. by rewrite (forces_nodes _ _ Hf1). }
  destruct (is_impossible n regions unlabeled (tracked s1)); [done|].
  destruct (select_next_cell n regions unlabeled (tracked s1)) as [rc|] eqn:Hsel; [|done].
  apply select_next_cell_Some in Hsel as (Hg & Hcan & _).
  pose proof (can_place_star_no_star _ _ Hcan) as Hfree.
  unfold place_star. rewrite (can_place_star_no_adjacent _ _ Hcan).
  set (s2 := log (OpPlace rc) (put_star (tracked s1) rc) s1).
  assert (sound s2) as Hs2 by (by apply sound_put_star).
  pose proof (IH s2 Hs2) as IH2.
  destruct (backtrack_sound clock fuel s2 Hs2) as [Hs3 He3].
  destruct (backtrack n regions unlabeled clock fuel s2) as [r3 s3].
  cbn in IH2, Hs3, He3.
  destruct r3 as [[|]| |]; cbn [fst snd]; try done.
  assert (extends s1 s3) as He13.
  { eapply extends_trans; [|exact He3]. apply extends_log.
    intros rc' Hg'. by rewrite put_star_excess. }
  pose proof (sound_branch_b rc s1 s3 Hs1 Hs3 He13 Hcan) as Hs4.
  pose proof (IH _ Hs4) as IH4.
  destruct (backtrack n regions unlabeled clock fuel _) as [[[|]| |] s5]; done.
Qed.

(** X15. [solve] returns a placement only if the time budget was not
    exceeded at the last deadline test of the search: either the initial
    propagation alone solved the board and [backtrack] was never called,
    or the last call of [backtrack] found the budget not exceeded.  Once
    the budget is exceeded at every test, [solve] returns [None] unless
    the initial propagation solves the board. *)
Theorem placement_only_within_budget
    (clock : nat → bool) (fuel : nat) (sol : gset (nat * nat)) :
  let r := solve n regions unlabeled clock fuel (init n regions k unlabeled) in
  r.1 = Ret (Some sol) →
  nodes_visited r.2 = 0%nat ∨ clock (nodes_visited r.2) = false.
Proof.
  cbn zeta. unfold solve.
  pose proof (propagate_constraints_sound _ init_sound) as Hprop.
  destruct (propagate_constraints n regions unlabeled (init n regions k unlabeled))
    as [r1 s1].
  cbn in Hprop. destruct Hprop as [Hs1 Hf1].
  destruct r1 as [[|]| |]; try done.
  destruct (is_complete (tracked s1)).
  { destruct (validate_no_adjacent n (tracked s1)); [|done].
    intros _. left. cbn. by rewrite (forces_nodes _ _ Hf1). }
  destruct (is_impossible n regions unlabeled (tracked s1)); [done|].
  pose proof (backtrack_true_clock clock fuel s1 Hs1) as Hbt.
  destruct (backtrack n regions unlabeled clock fuel s1) as [[[|]| |] s2]; try done.
  destruct (validate_no_adjacent n (tracked s2)); [|done].
  intros _. right. by apply Hbt.
Qed.


(** ** What [is_complete] tests *)

(** X16. In a state whose quotas are consistent with its stars, as every
    state of a solve is, [is_complete] returns [True] exactly when every
    row, every column and every labelled region holds exactly [k] stars. *)
Theorem is_complete_iff_all_units_full (t : Tracked) :
  consistent t →
  is_complete t = true
  ↔ (∀ r, (r < n)%nat → stars_in t (row_cells r) = k)
    ∧ (∀ c, (c < n)%nat → stars_in t (col_cells c) = k)
    ∧ ∀ rid, labeled rid → stars_in t (region_members rid) = k.
Proof.
  intros [Hs Hq _]. split.
  - intros Hcomplete. apply is_complete_true in Hcomplete as (Hr0 & Hc0 & Hg0).
    split; [|split].
    + intros r Hr. pose proof (quota_rows _ Hq r Hr) as Hsum.
      rewrite Hr0 in Hsum by (by rewrite (shaped_rows _ Hs)). lia.
    + intros c Hc. pose proof (quota_cols _ Hq c Hc) as Hsum.
      rewrite Hc0 in Hsum by (by rewrite (shaped_cols _ Hs)). lia.
    + intros rid Hl. pose proof (quota_regs _ Hq rid Hl) as Hsum.
      rewrite Hg0 in Hsum. lia.
  - intros (Hr & Hc & Hg). apply is_complete_intro; [done|..].
    + intros r Hlt. pose proof (quota_rows _ Hq r Hlt) as Hsum.
      rewrite (Hr r Hlt) in Hsum. lia.
    + intros c Hlt. pose proof (quota_cols _ Hq c Hlt) as Hsum.
      rewrite (Hc c Hlt) in Hsum. lia.
    + intros rid Hl. pose proof (quota_regs _ Hq rid Hl) as Hsum.
      rewrite (Hg rid Hl) in Hsum. lia.
Qed.

End Properties.

(** ** Snapshots in the object store *)

Section StoreProperties.

Import Store.

Implicit Types (h : gmap nat Obj) (a : nat) (r : Refs).

Lemma copy_spec h a a' h' :
  copy h a = Some (a', h') →
  (a' ∉ dom h) ∧ is_Some (h !! a) ∧ h' !! a' = h !! a ∧ h ⊆ h'.
Proof.
  unfold copy, alloc. destruct (h !! a) as [o|] eqn:Ho; [|done]. cbn.
  intros [= <- <-]. pose proof (is_fresh (dom h)) as Hfresh.
  split; [done|]. split; [by exists o|]. split; [by rewrite lookup_insert_eq|].
  apply insert_subseteq. by apply not_elem_of_dom.
Qed.

Lemma copy_is_Some h a : is_Some (h !! a) → is_Some (copy h a).
Proof. intros [o Ho]. unfold copy. rewrite Ho. by eexists. Qed.

Lemma copy_from h0 h a a' h' :
  h0 ⊆ h → is_Some (h0 !! a) → copy h a = Some (a', h') →
  (a' ∉ dom h0) ∧ h ⊆ h' ∧ ∀ h'', h' ⊆ h'' → h'' !! a' = h0 !! a.
Proof.
  intros Hsub [o Ho] Hc. apply copy_spec in Hc as (Hf & _ & Heq & Hsub').
  pose proof (lookup_weaken _ _ _ _ Ho Hsub) as Ho'. split; [|split; [done|]].
  - intros Hin. apply Hf. apply elem_of_dom in Hin as [x Hx].
    apply elem_of_dom. exists x. by eapply lookup_weaken.
  - intros h'' Hup. rewrite Ho. eapply lookup_weaken; [|exact Hup]. by rewrite Heq.
Qed.

Lemma elem_of_refs_list r a :
  a ∈ refs_list r ↔
    a = ref_rows_needed r ∨ a = ref_cols_needed r ∨ a = ref_regs_needed r
    ∨ a = ref_forbidden_counts r ∨ a = ref_solution r.
Proof. unfold refs_list. rewrite !elem_of_cons, elem_of_nil. tauto. Qed.

Lemma read_ext h h' r r' :
  h' !! ref_rows_needed r' = h !! ref_rows_needed r →
  h' !! ref_cols_needed r' = h !! ref_cols_needed r →
  h' !! ref_regs_needed r' = h !! ref_regs_needed r →
  h' !! ref_forbidden_counts r' = h !! ref_forbidden_counts r →
  h' !! ref_solution r' = h !! ref_solution r →
  read h' r' = read h r.
Proof. unfold read. by intros -> -> -> -> ->. Qed.

(** A snapshot, or a restore, of valid references: the objects that
    existed are untouched, the new references are fresh, and they show the
    same contents. *)
Lemma copy_all_spec h r r' h' :
  valid h r → copy_all h r = Some (r', h') →
  h ⊆ h' ∧ (∀ a', a' ∈ refs_list r' → a' ∉ dom h) ∧ valid h' r' ∧ read h' r' = read h r.
Proof.
  unfold copy_all. intros Hv Hc.
  assert (∀ a, a ∈ refs_list r → is_Some (h !! a)) as Hv' by exact Hv.
  setoid_rewrite elem_of_refs_list in Hv'.
  destruct (copy h (ref_rows_needed r)) as [[a1 h1]|] eqn:E1; [|done]. cbn in Hc.
  destruct (copy h1 (ref_cols_needed r)) as [[a2 h2]|] eqn:E2; [|done]. cbn in Hc.
  destruct (copy h2 (ref_regs_needed r)) as [[a3 h3]|] eqn:E3; [|done]. cbn in Hc.
  destruct (copy h3 (ref_forbidden_counts r)) as [[a4 h4]|] eqn:E4; [|done]. cbn in Hc.
  destruct (copy h4 (ref_solution r)) as [[a5 h5]|] eqn:E5; [|done]. cbn in Hc.
  injection Hc as <- <-.
  apply (copy_from h) in E1 as (F1 & I1 & L1); [|done|apply Hv'; tauto].
  apply (copy_from h) in E2 as (F2 & I2 & L2); [|done|apply Hv'; tauto].
  assert (h ⊆ h2) as J2 by (by etrans).
  apply (copy_from h) in E3 as (F3 & I3 & L3); [|done|apply Hv'; tauto].
  assert (h ⊆ h3) as J3 by (by etrans).
  apply (copy_from h) in E4 as (F4 & I4 & L4); [|done|apply Hv'; tauto].
  assert (h ⊆ h4) as J4 by (by etrans).
  apply (copy_from h) in E5 as (F5 & I5 & L5); [|done|apply Hv'; tauto].
  assert (h4 ⊆ h5) as K4 by done.
  assert (h3 ⊆ h5) as K3 by (by etrans).
  assert (h2 ⊆ h5) as K2 by (by etrans).
  assert (h1 ⊆ h5) as K1 by (by etrans).
  split; [by etrans|]. split.
  - intros a' Ha'. apply elem_of_refs_list in Ha'. cbn in Ha'.
    destruct Ha' as [->|[->|[->|[->| ->]]]]; done.
  - split; [|apply read_ext; cbn; auto].
    intros a' Ha'. apply elem_of_refs_list in Ha'. cbn in Ha'.
    destruct Ha' as [->|[->|[->|[->| ->]]]].
    + rewrite (L1 h5 K1). apply Hv'; tauto.
    + rewrite (L2 h5 K2). apply Hv'; tauto.
    + rewrite (L3 h5 K3). apply Hv'; tauto.
    + rewrite (L4 h5 K4). apply Hv'; tauto.
    + rewrite (L5 h5); [apply Hv'; tauto|done].
Qed.

Lemma copy_all_is_Some h r : valid h r → is_Some (copy_all h r).
Proof.
  intros Hv. assert (∀ a, a ∈ refs_list r → is_Some (h !! a)) as Hv' by exact Hv.
  setoid_rewrite elem_of_refs_list in Hv'.
  assert (∀ h0 a, h ⊆ h0 → is_Some (h !! a) → ∃ a' h1, copy h0 a = Some (a', h1) ∧ h ⊆ h1)
    as Hstep.
  { intros h0 a Hsub [o Ho].
    destruct (copy_is_Some h0 a) as [[a' h1] Hc].
    { exists o. by eapply lookup_weaken. }
    exists a', h1. split; [done|]. apply copy_spec in Hc as (_ & _ & _ & ?). by etrans. }
  unfold copy_all.
  destruct (Hstep h (ref_rows_needed r)) as (a1 & h1 & -> & I1); [done|apply Hv'; tauto|].
  cbn.
  destruct (Hstep h1 (ref_cols_needed r)) as (a2 & h2 & -> & I2); [done|apply Hv'; tauto|].
  cbn.
  destruct (Hstep h2 (ref_regs_needed r)) as (a3 & h3 & -> & I3); [done|apply Hv'; tauto|].
  cbn.
  destruct (Hstep h3 (ref_forbidden_counts r)) as (a4 & h4 & -> & I4);
    [done|apply Hv'; tauto|].
  cbn.
  destruct (Hstep h4 (ref_solution r)) as (a5 & h5 & -> & I5); [done|apply Hv'; tauto|].
  cbn. by eexists.
Qed.

Lemma read_valid h r t : read h r = Some t → valid h r.
Proof.
  unfold read. intros Hr a Ha. apply elem_of_refs_list in Ha.
  destruct (h !! ref_rows_needed r) as [[]|] eqn:E1; try done.
  destruct (h !! ref_cols_needed r) as [[]|] eqn:E2; try done.
  destruct (h !! ref_regs_needed r) as [[]|] eqn:E3; try done.
  destruct (h !! ref_forbidden_counts r) as [[]|] eqn:E4; try done.
  destruct (h !! ref_solution r) as [[]|] eqn:E5; try done.
  destruct Ha as [->|[->|[->|[->| ->]]]]; by eexists.
Qed.

Lemma mutate_lookup m self h a :
  a ∉ refs_list self → mutate m self h !! a = h !! a.
Proof.
  intros Ha. rewrite elem_of_refs_list in Ha.
  destruct m; cbn; apply lookup_alter_ne; naive_solver.
Qed.

Lemma mutate_valid m self h r : valid h r → valid (mutate m self h) r.
Proof.
  intros Hv a Ha. specialize (Hv a Ha). apply elem_of_dom. apply elem_of_dom in Hv.
  destruct m; cbn; by rewrite dom_alter_L.
Qed.

Lemma step_intact snapshot h1 c c' :
  intact snapshot h1 c → step c c' → intact snapshot h1 c'.
Proof.
  intros (Hsnap & Hself & Hval) Hstep.
  destruct Hstep as [m h self|h self snapshot' h' Hc|h self snapshot' self' h' Hv' Hc];
    unfold intact; cbn [fst snd] in *.
  - split; [|split; [done|by apply mutate_valid]].
    intros a Ha. destruct (Hsnap a Ha) as [Hs Heq]. split; [done|].
    rewrite mutate_lookup; [done|]. intros Hin. by apply (Hself a).
  - apply copy_all_spec in Hc as (Hsub & _ & _ & _); [|done].
    split; [|split; [done|]].
    + intros a Ha. destruct (Hsnap a Ha) as [[o Ho] Heq]. split; [by exists o|].
      rewrite Ho in *. by eapply lookup_weaken.
    + intros a Ha. destruct (Hval a Ha) as [o Ho]. exists o. by eapply lookup_weaken.
  - pose proof (copy_all_spec _ _ _ _ Hv' Hc) as (Hsub & Hfresh & Hvalid & _).
    split; [|split; [|done]].
    + intros a Ha. destruct (Hsnap a Ha) as [[o Ho] Heq]. split; [by exists o|].
      rewrite Ho in *. by eapply lookup_weaken.
    + intros a Ha Hin. apply (Hfresh a Ha). destruct (Hsnap a Hin) as [[o Ho] Heq].
      apply elem_of_dom. exists o. congruence.
Qed.

Lemma steps_intact snapshot h1 c c' :
  intact snapshot h1 c → rtc step c c' → intact snapshot h1 c'.
Proof.
  intros Hi Hsteps. induction Hsteps as [|c1 c2 c3 Hstep _ IH]; [done|].
  apply IH. by eapply step_intact.
Qed.

(** In the functional model a restore installs the snapshot as it was
    taken; the theorem below justifies this on the store, where the
    snapshot could have been reached through an alias. *)
Lemma restore_installs_snapshot (s s' : Solver) :
  tracked (ImprovedStarBattleSolver._restore_from_snapshot
             (ImprovedStarBattleSolver.take_snapshot s) s') = tracked s.
Proof. reflexivity. Qed.

(** C7. Take a snapshot of a solver whose attributes show [t]; let the
    store and the attributes go through any sequence of in-place updates,
    further snapshots and restores; then [_restore_from_snapshot] of the
    first snapshot succeeds and the attributes show [t] again, in all five
    tracked fields. *)
Theorem snapshot_round_trip
    (h : gmap nat Obj) (self : Refs) (t : Tracked) (snapshot : Refs) (h1 : gmap nat Obj)
    (c : gmap nat Obj * Refs) :
  read h self = Some t →
  take_snapshot h self = Some (snapshot, h1) →
  rtc step (h1, self) c →
  ∃ self' h', _restore_from_snapshot c.1 snapshot = Some (self', h')
              ∧ read h' self' = Some t
              ∧ read h' snapshot = Some t.
Proof.
  intros Hread Hsnap Hsteps.
  pose proof (read_valid _ _ _ Hread) as Hv.
  pose proof (copy_all_spec _ _ _ _ Hv Hsnap) as (Hsub & Hfresh & Hvs & Hrs).
  assert (intact snapshot h1 (h1, self)) as Hi.
  { split; [|split]; cbn [fst snd].
    - intros a Ha. split; [by apply Hvs|done].
    - intros a Ha Hin. apply (Hfresh a Hin). destruct (Hv a Ha) as [o Ho].
      apply elem_of_dom. by exists o.
    - intros a Ha. destruct (Hv a Ha) as [o Ho]. exists o. by eapply lookup_weaken. }
  apply (steps_intact _ _ _ _ Hi) in Hsteps as (Hkeep & _ & _).
  assert (valid c.1 snapshot) as Hvc.
  { intros a Ha. destruct (Hkeep a Ha) as [Hs ->]. done. }
  assert (read c.1 snapshot = Some t) as Hrc.
  { rewrite <- Hread, <- Hrs. apply read_ext; apply Hkeep, elem_of_refs_list; tauto. }
  destruct (copy_all_is_Some _ _ Hvc) as [[self' h'] Hc].
  exists self', h'. split; [done|].
  pose proof (copy_all_spec _ _ _ _ Hvc Hc) as (Hsub' & _ & _ & Hr').
  split; [by rewrite Hr'|].
  assert (∀ a, a ∈ refs_list snapshot → h' !! a = c.1 !! a) as Hsame.
  { intros a Ha. destruct (Hvc a Ha) as [o Ho]. rewrite Ho. by eapply lookup_weaken. }
  rewrite <- Hrc. apply read_ext; apply Hsame, elem_of_refs_list; tauto.
Qed.

End StoreProperties.

(** ** The size check of the presentation layer *)

Section AppProperties.

Variable n : nat.
Variable k : Z.
Variable regions : list (list Z).

Local Abbreviation region_cells := (region_cells n regions (-1)).
Local Abbreviation region_sizes := (StarBattleApp.region_sizes n regions).

Lemma assoc_incr_sizes rid rc acc :
  StarBattleApp.assoc_incr rid (sizes_of acc) = sizes_of (assoc_append rid rc acc).
Proof.
  induction acc as [|[rid' cs] acc IH]; [done|].
  cbn [sizes_of fmap list_fmap assoc_append StarBattleApp.assoc_incr fst snd].
  destruct (rid' =? rid).
  - cbn [sizes_of fmap list_fmap fst snd]. rewrite length_app. cbn [length].
    do 2 f_equal. lia.
  - cbn [sizes_of fmap list_fmap fst snd]. f_equal. exact IH.
Qed.

(** [region_sizes] holds the length of every list of [region_cells]. *)
Lemma region_sizes_spec : region_sizes = sizes_of region_cells.
Proof.
  unfold StarBattleApp.region_sizes, ImprovedStarBattleSolver.region_cells.
  change (@nil (Z * Z)) with (sizes_of []).
  generalize (@nil (Z * list (nat * nat))). generalize (grid_cells n).
  induction l as [|rc l IH]; intros acc; cbn [foldl]; [done|].
  destruct (region_of regions (-1) rc =? -1); [apply IH|].
  rewrite (assoc_incr_sizes _ rc). apply IH.
Qed.

Lemma first_too_small_Some sizes :
  (∃ e, e ∈ sizes ∧ e.2 < k) →
  ∃ rid size, StarBattleApp.first_too_small k sizes = Some (rid, size)
              ∧ (rid, size) ∈ sizes ∧ size < k.
Proof.
  induction sizes as [|[rid size] sizes IH]; intros (e & He & Hlt).
  { by apply elem_of_nil in He. }
  cbn [StarBattleApp.first_too_small]. destruct (size <? k) eqn:Hs.
  - exists rid, size. apply Z.ltb_lt in Hs. split; [done|]. split; [apply list_elem_of_here|done].
  - apply elem_of_cons in He as [->|He]; [cbn in Hlt; apply Z.ltb_ge in Hs; lia|].
    destruct IH as (rid' & size' & Hf & Hin & Hlt'); [by exists e|].
    exists rid', size'. split; [done|]. split; [by apply list_elem_of_further|done].
Qed.

(** C5, as amended. The check for a region with fewer than [k] cells is
    made by the presentation layer: for a board with a marked cell and such
    a region, [StarBattleApp.solve] reports a region that is too small,
    whatever the time budget, without running the solver, and this report
    differs from its report of no solution. *)
Theorem app_rejects_small_region (clock : nat → bool) (fuel : nat) (m rid : Z) :
  well_formed n regions →
  StarBattleApp.np_max (concat regions) = Some m → m ≠ -1 →
  labeled n regions (-1) rid →
  Z.of_nat (length (region_members n regions (-1) rid)) < k →
  ∃ rid' size,
    StarBattleApp.solve n k regions clock fuel = StarBattleApp.ErrorRegionTooSmall rid' size
    ∧ labeled n regions (-1) rid'
    ∧ size = Z.of_nat (length (region_members n regions (-1) rid'))
    ∧ size < k
    ∧ StarBattleApp.solve n k regions clock fuel ≠ StarBattleApp.NoSolution.
Proof.
  intros _ Hmax Hm Hl Hsmall.
  destruct (first_too_small_Some region_sizes) as (rid' & size & Hf & Hin & Hlt).
  { exists (rid, Z.of_nat (length (region_members n regions (-1) rid))). split; [|done].
    rewrite region_sizes_spec. apply list_elem_of_fmap.
    exists (rid, region_members n regions (-1) rid). split; [done|].
    by apply elem_of_region_cells. }
  exists rid', size.
  rewrite region_sizes_spec in Hin. apply list_elem_of_fmap in Hin as ([rid0 cs] & Heq & Hin).
  cbn in Heq. injection Heq as -> ->.
  apply elem_of_region_cells in Hin as [Hl' ->].
  unfold StarBattleApp.solve. rewrite Hmax.
  destruct (m =? -1) eqn:Hm'; [apply Z.eqb_eq in Hm'; done|].
  rewrite Hf. done.
Qed.


(** ** What the presentation layer reports *)


Lemma foldl_max_spec (a : Z) (l : list Z) :
  foldl Z.max a l ∈ a :: l ∧ ∀ x, x ∈ a :: l → x ≤ foldl Z.max a l.
Proof.
  revert a. induction l as [|b l IH]; intros a; cbn [foldl].
  { split; [apply list_elem_of_here|]. intros x Hx%list_elem_of_singleton. lia. }
  destruct (IH (Z.max a b)) as [Hin Hmax]. split.
  - apply elem_of_cons in Hin as [Heq|Hin].
    + rewrite Heq. destruct (Z.max_spec a b) as [[_ ->]|[_ ->]];
        [apply list_elem_of_further, list_elem_of_here|apply list_elem_of_here].
    + by do 2 apply list_elem_of_further.
  - intros x Hx. pose proof (Hmax (Z.max a b) (list_elem_of_here _ _)) as Hab.
    apply elem_of_cons in Hx as [->|Hx]; [lia|].
    apply elem_of_cons in Hx as [->|Hx]; [lia|].
    by apply Hmax, list_elem_of_further.
Qed.

Lemma np_max_spec (l : list Z) (x : Z) :
  x ∈ l → ∃ m, StarBattleApp.np_max l = Some m ∧ m ∈ l ∧ x ≤ m.
Proof.
  destruct l as [|a l]; [by intros ?%elem_of_nil|]. intros Hx.
  destruct (foldl_max_spec a l) as [Hin Hmax]. exists (foldl Z.max a l).
  split; [done|]. split; [done|by apply Hmax].
Qed.

(** X10. A placement that the presentation layer displays satisfies the
    conditions of the puzzle on the board it was asked to solve, and it is
    not empty. *)
Theorem app_solved_is_valid (clock : nat → bool) (fuel : nat) (sol : gset (nat * nat)) :
  StarBattleApp.solve n k regions clock fuel = StarBattleApp.Solved sol →
  valid_placement n regions k (-1) sol ∧ sol ≠ ∅.
Proof.
  unfold StarBattleApp.solve.
  destruct (StarBattleApp.np_max (concat regions)) as [m|]; [|done].
  destruct (m =? -1); [done|].
  destruct (StarBattleApp.first_too_small k region_sizes) as [[rid size]|]; [done|].
  pose proof (solve_Some n regions (-1) clock fuel (init n regions k (-1))) as Hsome.
  pose proof (solve_sound n regions k (-1) clock fuel _ (init_sound n regions k (-1)))
    as [Hsound _].
  destruct (solve n regions (-1) clock fuel (init n regions k (-1))) as [r s'].
  cbn [fst snd] in *. destruct r as [[sol'|]| |]; try done.
  destruct (decide (sol' = ∅)) as [|Hne]; [done|]. intros [= <-].
  destruct (Hsome sol' eq_refl) as (-> & Hcomplete & Hval).
  split; [|done].
  apply complete_valid_placement; [by apply sound_consistent|done|done].
Qed.


(** X12. A [mark_cell] that succeeds stores the selected colour index as
    the region of the cell and changes no other cell.  With any index from
    0 on that the matrix can hold, index 0 ("blank") included, the cell
    belongs to a region afterwards, and [solve] no longer reports that no
    region is marked. *)
Theorem marked_cell_counts_as_region
    (clock : nat → bool) (fuel : nat) (r c : nat) (color_idx : Z)
    (regions' : list (list Z)) :
  0 ≤ color_idx →
  StarBattleApp.mark_cell regions r c color_idx = Some regions' →
  region_of regions' (-1) (r, c) = color_idx
  ∧ (∀ rc, rc ≠ (r, c) → region_of regions' (-1) rc = region_of regions (-1) rc)
  ∧ StarBattleApp.solve n k regions' clock fuel ≠ StarBattleApp.ErrorNoRegion.
Proof.
  intros Hcolor Hmark. unfold StarBattleApp.mark_cell in Hmark.
  destruct (regions !! r) as [row|] eqn:Hrow; [|done].
  destruct (decide (c < length row)%nat) as [Hc|]; [|done].
  destruct (decide (-9223372036854775808 ≤ color_idx < 9223372036854775808)); [|done].
  injection Hmark as <-. pose proof (lookup_lt_Some _ _ _ Hrow) as Hr.
  assert (region_of (<[r:=<[c:=color_idx]> row]> regions) (-1) (r, c) = color_idx) as Hrc.
  { unfold region_of. cbn. rewrite list_lookup_insert_eq by done. cbn.
    by rewrite list_lookup_insert_eq. }
  split; [done|]. split.
  - intros [r' c'] Hne. unfold region_of. cbn.
    destruct (decide (r = r')) as [<-|Hr'].
    + rewrite list_lookup_insert_eq, Hrow by done. cbn.
      rewrite list_lookup_insert_ne; [done|]. congruence.
    + by rewrite list_lookup_insert_ne.
  - assert (color_idx ∈ concat (<[r:=<[c:=color_idx]> row]> regions)) as Hin.
    { apply list_elem_of_In, in_concat. exists (<[c:=color_idx]> row).
      split; apply list_elem_of_In.
      - apply list_elem_of_lookup. exists r. by apply list_lookup_insert_eq.
      - apply list_elem_of_lookup. exists c. by apply list_lookup_insert_eq. }
    apply np_max_spec in Hin as (m & Hmax & _ & Hle).
    unfold StarBattleApp.solve. rewrite Hmax.
    destruct (m =? -1) eqn:Hm; [apply Z.eqb_eq in Hm; lia|].
    destruct (StarBattleApp.first_too_small _ _) as [[rid size]|]; [done|].
    destruct (solve _ _ _ _ _ _).1 as [[sol|]| |]; try done.
    by destruct (decide (sol = ∅)).
Qed.

(** X13. On the board that [create_board] and [reset_board] install,
    [solve] reports that no region is marked; on a board of size 0 the
    maximum of the empty matrix does not exist and [solve] fails. *)
Theorem fresh_board_has_no_region (clock : nat → bool) (fuel : nat) :
  StarBattleApp.solve n k (StarBattleApp.create_board n) clock fuel
  = if decide (n = 0)%nat then StarBattleApp.Crashed else StarBattleApp.ErrorNoRegion.
Proof.
  unfold StarBattleApp.solve, StarBattleApp.create_board.
  destruct n as [|n']; [done|]. rewrite decide_False by done.
  assert (-1 ∈ concat (replicate (S n') (replicate (S n') (-1)))) as Hin.
  { cbn. apply list_elem_of_here. }
  apply np_max_spec in Hin as (m & -> & Hm & _).
  apply list_elem_of_In, in_concat in Hm as (row & Hrow & Hm).
  apply list_elem_of_In, elem_of_replicate in Hrow as [-> _].
  apply list_elem_of_In, elem_of_replicate in Hm as [-> _]. done.
Qed.

End AppProperties.

(** ** The claims on concrete boards *)

Section Boards.

Import Examples.

Lemma quadrants_well_formed : well_formed 4 quadrants.
Proof. split; [reflexivity|]. repeat constructor. Qed.

Lemma tiny_well_formed : well_formed 2 tiny.
Proof. split; [reflexivity|]. repeat constructor. Qed.

Lemma undersized_well_formed : well_formed 4 undersized.
Proof. split; [reflexivity|]. repeat constructor. Qed.

(** The quadrant board is solved with one star per quadrant. *)
Lemma solve_returns_valid_placement_witness :
  well_formed 4 quadrants
  ∧ (solve 4 quadrants (-1) never 5 (init 4 quadrants 1 (-1))).1
    = Ret (Some (list_to_set [(0, 1); (1, 3); (2, 0); (3, 2)]%nat))
  ∧ valid_placement 4 quadrants 1 (-1) (list_to_set [(0, 1); (1, 3); (2, 0); (3, 2)]%nat).
Proof.
  assert (well_formed 4 quadrants) as Hwf by exact quadrants_well_formed.
  assert ((solve 4 quadrants (-1) never 5 (init 4 quadrants 1 (-1))).1
          = Ret (Some (list_to_set [(0, 1); (1, 3); (2, 0); (3, 2)]%nat))) as Hret
    by (vm_compute; reflexivity).
  split; [exact Hwf|]. split; [exact Hret|].
  exact (solve_returns_valid_placement 4 quadrants 1 (-1) never 5 _ Hwf Hret).
Defined.

Lemma quotas_hold_at_every_state_witness :
  well_formed 4 quadrants
  ∧ logged (solve 4 quadrants (-1) never 5 (init 4 quadrants 1 (-1))).2
  ∧ Forall (λ e : Op * Tracked, quotas_ok 4 quadrants 1 (-1) e.2)
      (history (solve 4 quadrants (-1) never 5 (init 4 quadrants 1 (-1))).2).
Proof.
  split; [exact quadrants_well_formed|].
  exact (quotas_hold_at_every_state 4 quadrants 1 (-1) never 5 quadrants_well_formed).
Defined.

(** C4 as stated fails: on the 2 by 2 board the forbid mark of branch B
    raises the count of cell (0, 0) to 1 while no star is on the board. *)
Lemma forbid_mark_exceeds_star_neighbors :
  ∃ t, history (solve 2 tiny (-1) never 3 (init 2 tiny 1 (-1))).2 !! 3%nat
       = Some (OpForbid (0, 0)%nat, t)
       ∧ in_grid 2 (0, 0)%nat
       ∧ get0 (forbidden_counts t) (0, 0)%nat = 1
       ∧ star_neighbors 2 t (0, 0)%nat = 0.
Proof.
  eexists. split; [vm_compute; reflexivity|].
  split; [unfold in_grid; cbn; lia|]. split; vm_compute; reflexivity.
Qed.

Lemma forbidden_counts_track_star_neighbors_witness :
  well_formed 2 tiny
  ∧ Forall (λ e : Op * Tracked, counts_within_one 2 e.2)
      (history (solve 2 tiny (-1) never 3 (init 2 tiny 1 (-1))).2)
  ∧ exact_until_forbid 2 (history (solve 2 tiny (-1) never 3 (init 2 tiny 1 (-1))).2).
Proof.
  split; [exact tiny_well_formed|].
  exact (forbidden_counts_track_star_neighbors 2 tiny 1 (-1) never 3 tiny_well_formed).
Defined.

(** C9 as stated fails: on this board the first pass forces (0, 2) and
    (0, 4), the two cells of region 1, after (0, 0) of region 0; it reports
    no contradiction and leaves the quota of row 0 at -1. *)
Lemma forced_placements_overdraw_row :
  (propagate_pass 5 overfull (-1) (count_propagation (init 5 overfull 2 (-1)))).1 = Some true
  ∧ idx (rows_needed
           (tracked (propagate_pass 5 overfull (-1)
                       (count_propagation (init 5 overfull 2 (-1)))).2)) 0 = -1
  ∧ ∃ t, history (solve 5 overfull (-1) never 3 (init 5 overfull 2 (-1))).2 !! 0%nat
         = Some (OpForced (0, 4)%nat, t)
         ∧ idx (rows_needed t) 0 = -1.
Proof.
  split; [vm_compute; reflexivity|]. split; [vm_compute; reflexivity|].
  eexists. split; vm_compute; reflexivity.
Qed.

Lemma quotas_nonneg_on_available_cells_witness :
  well_formed 4 quadrants ∧ 0 ≤ 1
  ∧ quotas_nonneg 4 quadrants (-1) (init_tracked 4 quadrants 1 (-1))
  ∧ Forall (λ e : Op * Tracked, quotas_at_most_k 4 quadrants 1 (-1) e.2)
      (history (solve 4 quadrants (-1) never 5 (init 4 quadrants 1 (-1))).2).
Proof.
  assert (0 ≤ 1) as Hk by lia.
  destruct (quotas_nonneg_on_available_cells 4 quadrants 1 (-1) never 5
              quadrants_well_formed Hk) as (Hinit & _ & Hall).
  split; [exact quadrants_well_formed|]. split; [exact Hk|]. split; [exact Hinit|exact Hall].
Defined.

Lemma undersized_region_labeled : labeled 4 undersized (-1) 2.
Proof.
  split; [lia|]. exists (0, 3)%nat. split; [unfold in_grid; cbn; lia|reflexivity].
Qed.

Lemma undersized_region_small :
  Z.of_nat (length (region_members 4 undersized (-1) 2)) < 2.
Proof. vm_compute. reflexivity. Qed.

Lemma small_region_returns_none_witness :
  well_formed 4 undersized ∧ labeled 4 undersized (-1) 2
  ∧ Z.of_nat (length (region_members 4 undersized (-1) 2)) < 2
  ∧ (propagate_constraints 4 undersized (-1) (init 4 undersized 2 (-1))).1 = Ret false
  ∧ (solve 4 undersized (-1) never 0 (init 4 undersized 2 (-1))).1 = Ret None
  ∧ nodes_visited (solve 4 undersized (-1) never 0 (init 4 undersized 2 (-1))).2 = 0%nat.
Proof.
  destruct (small_region_returns_none 4 undersized 2 (-1) never 0 2
              undersized_well_formed undersized_region_labeled undersized_region_small)
    as (_ & Hprop & Hsolve & Hnodes).
  split; [exact undersized_well_formed|]. split; [exact undersized_region_labeled|].
  split; [exact undersized_region_small|]. split; [exact Hprop|].
  split; [exact Hsolve|exact Hnodes].
Defined.

(** C5 as stated fails for the core: with a region of one cell and
    [k = 2] it returns [None], the value it also returns on a board whose
    regions are all large enough and that has no solution. *)
Lemma core_returns_none_for_small_region :
  labeled 4 undersized (-1) 2
  ∧ Z.of_nat (length (region_members 4 undersized (-1) 2)) < 2
  ∧ (solve 4 undersized (-1) never 5 (init 4 undersized 2 (-1))).1 = Ret None
  ∧ StarBattleApp.first_too_small 1 (StarBattleApp.region_sizes 2 tiny) = None
  ∧ (solve 2 tiny (-1) never 5 (init 2 tiny 1 (-1))).1 = Ret None.
Proof.
  split; [exact undersized_region_labeled|]. split; [exact undersized_region_small|].
  split; [vm_compute; reflexivity|]. split; vm_compute; reflexivity.
Qed.

Lemma app_rejects_small_region_witness :
  well_formed 4 undersized
  ∧ StarBattleApp.np_max (concat undersized) = Some 2 ∧ 2 ≠ -1
  ∧ labeled 4 undersized (-1) 2
  ∧ Z.of_nat (length (region_members 4 undersized (-1) 2)) < 2
  ∧ ∃ rid size,
      StarBattleApp.solve 4 2 undersized never 0 = StarBattleApp.ErrorRegionTooSmall rid size
      ∧ size < 2
      ∧ StarBattleApp.solve 4 2 undersized never 0 ≠ StarBattleApp.NoSolution.
Proof.
  assert (StarBattleApp.np_max (concat undersized) = Some 2) as Hmax by reflexivity.
  assert (2 ≠ -1) as Hm by lia.
  destruct (app_rejects_small_region 4 2 undersized never 0 2 2
              undersized_well_formed Hmax Hm undersized_region_labeled
              undersized_region_small)
    as (rid & size & Hsolve & _ & _ & Hlt & Hne).
  split; [exact undersized_well_formed|]. split; [exact Hmax|]. split; [exact Hm|].
  split; [exact undersized_region_labeled|]. split; [exact undersized_region_small|].
  exists rid, size. split; [exact Hsolve|]. split; [exact Hlt|exact Hne].
Defined.

(** On the fresh quadrant board every cell has 12 choices; (1, 1) is the
    first cell with 8 available neighbours and is selected. *)
Lemma select_next_cell_most_constrained_witness :
  well_formed 4 quadrants
  ∧ select_next_cell 4 quadrants (-1) (tracked (init 4 quadrants 1 (-1))) = Some (1, 1)%nat
  ∧ choices 4 quadrants (-1) (tracked (init 4 quadrants 1 (-1))) (1, 1)%nat = 12
  ∧ constraints 4 quadrants (-1) (tracked (init 4 quadrants 1 (-1))) (1, 1)%nat = 8
  ∧ constraints 4 quadrants (-1) (tracked (init 4 quadrants 1 (-1))) (0, 0)%nat = 3
  ∧ ∀ x, in_grid 4 x → available 4 quadrants (-1) (tracked (init 4 quadrants 1 (-1))) x →
      choices 4 quadrants (-1) (tracked (init 4 quadrants 1 (-1))) (1, 1)%nat
      ≤ choices 4 quadrants (-1) (tracked (init 4 quadrants 1 (-1))) x
      ∧ (choices 4 quadrants (-1) (tracked (init 4 quadrants 1 (-1))) (1, 1)%nat
         = choices 4 quadrants (-1) (tracked (init 4 quadrants 1 (-1))) x →
         constraints 4 quadrants (-1) (tracked (init 4 quadrants 1 (-1))) x
         ≤ constraints 4 quadrants (-1) (tracked (init 4 quadrants 1 (-1))) (1, 1)%nat).
Proof.
  assert (select_next_cell 4 quadrants (-1) (tracked (init 4 quadrants 1 (-1)))
          = Some (1, 1)%nat) as Hsel by (vm_compute; reflexivity).
  destruct (select_next_cell_most_constrained 4 quadrants (-1)
              (tracked (init 4 quadrants 1 (-1))) quadrants_well_formed) as [_ Hsome].
  destruct (Hsome _ Hsel) as (_ & _ & Hbest).
  split; [exact quadrants_well_formed|]. split; [exact Hsel|].
  split; [vm_compute; reflexivity|]. split; [vm_compute; reflexivity|].
  split; [vm_compute; reflexivity|]. exact Hbest.
Defined.

(** C2 as stated fails: row 0 of this board has four available cells for a
    quota of four, yet the pass places a star on (0, 0) and (0, 2) only,
    since (0, 1) and (0, 3) are next to a star placed just before. *)
Lemma forced_row_skips_adjacent_cells :
  valid_positions_of 4 crowded (-1) (tracked (init 4 crowded 4 (-1))) (row_cells 4 0)
  = [(0, 0); (0, 1); (0, 2); (0, 3)]%nat
  ∧ idx (rows_needed (tracked (init 4 crowded 4 (-1)))) 0 = 4
  ∧ (propagate_constraints 4 crowded (-1) (init 4 crowded 4 (-1))).1 = Ret false
  ∧ elements (solution (tracked (propagate_constraints 4 crowded (-1)
                                   (init 4 crowded 4 (-1))).2))
    ≡ₚ [(0, 0); (0, 2)]%nat
  ∧ has_star (tracked (propagate_constraints 4 crowded (-1) (init 4 crowded 4 (-1))).2)
      (0, 1)%nat = false.
Proof.
  split; [vm_compute; reflexivity|]. split; [vm_compute; reflexivity|].
  split; [vm_compute; reflexivity|]. split; [|vm_compute; reflexivity].
  apply (bool_decide_unpack _). vm_compute. exact I.
Qed.

Lemma crowded_well_formed : well_formed 4 crowded.
Proof. split; [reflexivity|]. repeat constructor. Qed.

Lemma propagate_constraints_unit_rule_witness :
  well_formed 4 crowded
  ∧ pass_units 4 crowded (-1)
  = [] ++ (λ t : Tracked, idx (rows_needed t) 0, (λ c, (0, c)%nat) <$> seq 0 4)
          :: tail (pass_units 4 crowded (-1))
  ∧ check_units 4 crowded (-1) [] false (count_propagation (init 4 crowded 4 (-1)))
    = (Some false, count_propagation (init 4 crowded 4 (-1)))
  ∧ 0 < idx (rows_needed (tracked (count_propagation (init 4 crowded 4 (-1))))) 0
  ∧ Z.of_nat (length (filter (λ rc, available 4 crowded (-1)
                                      (tracked (count_propagation (init 4 crowded 4 (-1))))
                                      rc)
                             ((λ c, (0, c)%nat) <$> seq 0 4)))
    = idx (rows_needed (tracked (count_propagation (init 4 crowded 4 (-1))))) 0
  ∧ propagate_pass 4 crowded (-1) (count_propagation (init 4 crowded 4 (-1)))
    = check_units 4 crowded (-1) (tail (pass_units 4 crowded (-1)))
        (force_positions 4 crowded (-1)
           (filter (λ rc, available 4 crowded (-1)
                            (tracked (count_propagation (init 4 crowded 4 (-1)))) rc)
                   ((λ c, (0, c)%nat) <$> seq 0 4))
           false (count_propagation (init 4 crowded 4 (-1)))).1
        (force_positions 4 crowded (-1)
           (filter (λ rc, available 4 crowded (-1)
                            (tracked (count_propagation (init 4 crowded 4 (-1)))) rc)
                   ((λ c, (0, c)%nat) <$> seq 0 4))
           false (count_propagation (init 4 crowded 4 (-1)))).2.
Proof.
  assert (pass_units 4 crowded (-1)
          = [] ++ (λ t : Tracked, idx (rows_needed t) 0, (λ c, (0, c)%nat) <$> seq 0 4)
                  :: tail (pass_units 4 crowded (-1))) as Hsplit by reflexivity.
  assert (check_units 4 crowded (-1) [] false (count_propagation (init 4 crowded 4 (-1)))
          = (Some false, count_propagation (init 4 crowded 4 (-1)))) as Hpre by reflexivity.
  assert (0 < idx (rows_needed (tracked (count_propagation (init 4 crowded 4 (-1))))) 0)
    as Hpos by (vm_compute; reflexivity).
  assert (Z.of_nat (length (filter (λ rc, available 4 crowded (-1)
                                            (tracked (count_propagation
                                                        (init 4 crowded 4 (-1)))) rc)
                                   ((λ c, (0, c)%nat) <$> seq 0 4)))
          = idx (rows_needed (tracked (count_propagation (init 4 crowded 4 (-1))))) 0)
    as Hcount by (vm_compute; reflexivity).
  destruct (propagate_constraints_unit_rule 4 crowded (-1) (init 4 crowded 4 (-1)) 0 []
              (tail (pass_units 4 crowded (-1)))
              (λ t : Tracked, idx (rows_needed t) 0) ((λ c, (0, c)%nat) <$> seq 0 4)
              false (count_propagation (init 4 crowded 4 (-1)))
              crowded_well_formed Hsplit Hpre)
    as (_ & Hforced & _).
  destruct (Hforced Hpos Hcount) as (Hpass & _).
  split; [exact crowded_well_formed|]. split; [exact Hsplit|]. split; [exact Hpre|]. split; [exact Hpos|].
  split; [exact Hcount|]. exact Hpass.
Defined.

(** A solver with a star on (0, 0), and the cell to its right. *)
Lemma adjacent_star_skip_or_raise_witness :
  in_grid 4 (0, 1)%nat
  ∧ (∃ nb, in_grid 4 nb ∧ king_adjacent nb (0, 1)%nat
           ∧ nb ∈ solution (tracked (place_star_forced 4 crowded (-1) (0, 0)%nat
                                       (init 4 crowded 4 (-1))).2))
  ∧ place_star 4 crowded (-1) (0, 1)%nat
      (place_star_forced 4 crowded (-1) (0, 0)%nat (init 4 crowded 4 (-1))).2 = None.
Proof.
  assert (in_grid 4 (0, 1)%nat) as Hg by (unfold in_grid; cbn; lia).
  assert (∃ nb, in_grid 4 nb ∧ king_adjacent nb (0, 1)%nat
                ∧ nb ∈ solution (tracked (place_star_forced 4 crowded (-1) (0, 0)%nat
                                            (init 4 crowded 4 (-1))).2)) as Hadj.
  { exists (0, 0)%nat. split; [unfold in_grid; cbn; lia|]. split.
    - unfold king_adjacent. cbn. split; [discriminate|lia].
    - apply (bool_decide_unpack _). vm_compute. exact I. }
  destruct (adjacent_star_skip_or_raise 4 crowded (-1) _ (0, 1)%nat Hg Hadj)
    as (_ & _ & Hraise).
  split; [exact Hg|]. split; [exact Hadj|exact Hraise].
Defined.

Lemma snapshot_round_trip_witness :
  ∃ snapshot h1,
    Store.take_snapshot store0 self0 = Some (snapshot, h1)
    ∧ ∃ self' h',
        Store._restore_from_snapshot
          (Store.mutate (Store.AddStar (0, 0)%nat) self0
             (Store.mutate (Store.AddRow 0 (-1)) self0 h1)) snapshot
        = Some (self', h')
        ∧ Store.read h' self' = Some (mkTracked [1] [1] {[0 := 1]} ∅ ∅).
Proof.
  assert (Store.read store0 self0 = Some (mkTracked [1] [1] {[0 := 1]} ∅ ∅)) as Hread
    by (vm_compute; reflexivity).
  destruct (Store.take_snapshot store0 self0) as [[snapshot h1]|] eqn:Hsnap;
    [|vm_compute in Hsnap; discriminate].
  exists snapshot, h1. split; [reflexivity|].
  assert (rtc Store.step (h1, self0)
            (Store.mutate (Store.AddStar (0, 0)%nat) self0
               (Store.mutate (Store.AddRow 0 (-1)) self0 h1), self0)) as Hsteps.
  { eapply rtc_l; [apply Store.step_mutate|].
    eapply rtc_l; [apply Store.step_mutate|]. apply rtc_refl. }
  destruct (snapshot_round_trip store0 self0 _ snapshot h1 _ Hread Hsnap Hsteps)
    as (self' & h' & Hrestore & Hback & _).
  exists self', h'. split; [exact Hrestore|exact Hback].
Defined.


(** ** Instances of the further properties *)


(** On the quadrant board the initial propagation forces nothing and
    succeeds; no unit is short of cells afterwards. *)
Lemma is_impossible_false_after_propagation_witness :
  (propagate_constraints 4 quadrants (-1) (init 4 quadrants 1 (-1))).1 = Ret true
  ∧ settled 4 quadrants (-1)
      (tracked (propagate_constraints 4 quadrants (-1) (init 4 quadrants 1 (-1))).2)
  ∧ is_impossible 4 quadrants (-1)
      (tracked (propagate_constraints 4 quadrants (-1) (init 4 quadrants 1 (-1))).2)
    = false.
Proof.
  assert ((propagate_constraints 4 quadrants (-1) (init 4 quadrants 1 (-1))).1 = Ret true)
    as Hret by (vm_compute; reflexivity).
  split; [exact Hret|].
  exact (is_impossible_false_after_propagation 4 quadrants (-1) _ Hret).
Defined.

Lemma propagate_constraints_idempotent_witness :
  (propagate_constraints 4 quadrants (-1) one_star).1 = Ret true
  ∧ propagate_constraints 4 quadrants (-1)
      (propagate_constraints 4 quadrants (-1) one_star).2
    = (Ret true, count_propagation (propagate_constraints 4 quadrants (-1) one_star).2).
Proof.
  assert ((propagate_constraints 4 quadrants (-1) one_star).1 = Ret true) as Hret
    by (vm_compute; reflexivity).
  split; [exact Hret|].
  exact (propagate_constraints_idempotent 4 quadrants (-1) _ Hret).
Defined.

(** On the solved quadrant board no cell is selected and no quota is
    positive. *)
Lemma select_next_cell_after_propagation_witness :
  (propagate_constraints 4 quadrants (-1) quadrants_solved).1 = Ret true
  ∧ select_next_cell 4 quadrants (-1)
      (tracked (propagate_constraints 4 quadrants (-1) quadrants_solved).2) = None
  ∧ (∀ r, (r < 4)%nat →
       idx (rows_needed (tracked (propagate_constraints 4 quadrants (-1)
                                    quadrants_solved).2)) r ≤ 0)
  ∧ (∀ c, (c < 4)%nat →
       idx (cols_needed (tracked (propagate_constraints 4 quadrants (-1)
                                    quadrants_solved).2)) c ≤ 0)
  ∧ ∀ rid, labeled 4 quadrants (-1) rid →
      get0 (regs_needed (tracked (propagate_constraints 4 quadrants (-1)
                                    quadrants_solved).2)) rid ≤ 0.
Proof.
  assert ((propagate_constraints 4 quadrants (-1) quadrants_solved).1 = Ret true) as Hret
    by (vm_compute; reflexivity).
  assert (select_next_cell 4 quadrants (-1)
            (tracked (propagate_constraints 4 quadrants (-1) quadrants_solved).2) = None)
    as Hsel by (vm_compute; reflexivity).
  split; [exact Hret|]. split; [exact Hsel|].
  exact (select_next_cell_after_propagation 4 quadrants (-1) _ Hret Hsel).
Defined.



(** Cell (0, 1) is a neighbour of the star on (0, 0) and of (0, 2): its
    count is 1 before a star is placed on (0, 2), and 2 after that star was
    placed and removed again. *)
Lemma remove_star_keeps_increments_witness :
  (0 < length (rows_needed (tracked one_star)))%nat
  ∧ (2 < length (cols_needed (tracked one_star)))%nat
  ∧ ((0, 2)%nat ∉ solution (tracked one_star))
  ∧ ∃ new_forbidden s',
      place_star 4 quadrants (-1) (0, 2)%nat one_star = Some (new_forbidden, s')
      ∧ ∃ t', remove_star quadrants (-1) (0, 2)%nat new_forbidden (tracked s') = Some t'
              ∧ solution t' = solution (tracked one_star)
              ∧ get0 (forbidden_counts (tracked one_star)) (0, 1)%nat = 1
              ∧ get0 (forbidden_counts t') (0, 1)%nat = 2.
Proof.
  assert (0 < length (rows_needed (tracked one_star)))%nat as Hr by (cbn; lia).
  assert (2 < length (cols_needed (tracked one_star)))%nat as Hc by (cbn; lia).
  assert ((0, 2)%nat ∉ solution (tracked one_star)) as Hfree.
  { apply (bool_decide_unpack _). vm_compute. exact I. }
  split; [exact Hr|]. split; [exact Hc|]. split; [exact Hfree|].
  exists (new_forbidden_of (forbidden_counts (tracked one_star)) (neighbors 4 (0, 2)%nat)).
  exists (log (OpPlace (0, 2)%nat) (put_star 4 quadrants (-1) (tracked one_star) (0, 2)%nat)
            one_star).
  assert (place_star 4 quadrants (-1) (0, 2)%nat one_star
          = Some (new_forbidden_of (forbidden_counts (tracked one_star))
                    (neighbors 4 (0, 2)%nat),
                  log (OpPlace (0, 2)%nat)
                    (put_star 4 quadrants (-1) (tracked one_star) (0, 2)%nat) one_star))
    as Hplace.
  { unfold place_star.
    assert (existsb (has_star (tracked one_star)) (neighbors 4 (0, 2)%nat) = false) as ->
      by (vm_compute; reflexivity).
    reflexivity. }
  split; [exact Hplace|].
  destruct (remove_star_keeps_increments 4 quadrants (-1) one_star _ (0, 2)%nat _
              Hr Hc Hfree Hplace) as (t' & Hrem & _ & _ & Hsol & _ & Hfc & _).
  exists t'. split; [exact Hrem|]. split; [exact Hsol|].
  split; [vm_compute; reflexivity|].
  rewrite Hfc. vm_compute. reflexivity.
Defined.

(** The 2 by 2 board has no placement: the search fails and leaves the
    solver as its own propagation left it. *)
Lemma failed_backtrack_undoes_branches_witness :
  sound 2 tiny 1 (-1) (init 2 tiny 1 (-1))
  ∧ (backtrack 2 tiny (-1) never 3 (init 2 tiny 1 (-1))).1 = Ret false
  ∧ tracked (backtrack 2 tiny (-1) never 3 (init 2 tiny 1 (-1))).2
    = (if never (nodes_visited (visit (init 2 tiny 1 (-1))))
       then tracked (init 2 tiny 1 (-1))
       else tracked (propagate_constraints 2 tiny (-1) (visit (init 2 tiny 1 (-1)))).2)
  ∧ solution (tracked (init 2 tiny 1 (-1)))
    ⊆ solution (tracked (backtrack 2 tiny (-1) never 3 (init 2 tiny 1 (-1))).2)
  ∧ ∀ rc, in_grid 2 rc →
      excess 2 (tracked (backtrack 2 tiny (-1) never 3 (init 2 tiny 1 (-1))).2) rc
      = excess 2 (tracked (init 2 tiny 1 (-1))) rc.
Proof.
  assert ((backtrack 2 tiny (-1) never 3 (init 2 tiny 1 (-1))).1 = Ret false) as Hret
    by (vm_compute; reflexivity).
  split; [exact (init_sound 2 tiny 1 (-1))|]. split; [exact Hret|].
  exact (failed_backtrack_undoes_branches 2 tiny 1 (-1) never 3 _
           (init_sound 2 tiny 1 (-1)) Hret).
Defined.

Lemma placement_only_within_budget_witness :
  (solve 4 quadrants (-1) never 5 (init 4 quadrants 1 (-1))).1
  = Ret (Some (list_to_set [(0, 1); (1, 3); (2, 0); (3, 2)]%nat))
  ∧ (nodes_visited (solve 4 quadrants (-1) never 5 (init 4 quadrants 1 (-1))).2 = 0%nat
     ∨ never (nodes_visited (solve 4 quadrants (-1) never 5 (init 4 quadrants 1 (-1))).2)
       = false).
Proof.
  assert ((solve 4 quadrants (-1) never 5 (init 4 quadrants 1 (-1))).1
          = Ret (Some (list_to_set [(0, 1); (1, 3); (2, 0); (3, 2)]%nat))) as Hret
    by (vm_compute; reflexivity).
  split; [exact Hret|].
  exact (placement_only_within_budget 4 quadrants 1 (-1) never 5 _ Hret).
Defined.

Lemma app_solved_is_valid_witness :
  StarBattleApp.solve 4 1 quadrants never 5
  = StarBattleApp.Solved (list_to_set [(0, 1); (1, 3); (2, 0); (3, 2)]%nat)
  ∧ valid_placement 4 quadrants 1 (-1) (list_to_set [(0, 1); (1, 3); (2, 0); (3, 2)]%nat)
  ∧ list_to_set [(0, 1); (1, 3); (2, 0); (3, 2)]%nat ≠@{gset (nat * nat)} ∅.
Proof.
  assert (StarBattleApp.solve 4 1 quadrants never 5
          = StarBattleApp.Solved (list_to_set [(0, 1); (1, 3); (2, 0); (3, 2)]%nat)) as Hret
    by (vm_compute; reflexivity).
  split; [exact Hret|].
  exact (app_solved_is_valid 4 1 quadrants never 5 _ Hret).
Defined.


(** A click with colour index 0 on the empty board makes the cell a
    member of region 0. *)
Lemma marked_cell_counts_as_region_witness :
  0 ≤ 0
  ∧ StarBattleApp.mark_cell (StarBattleApp.create_board 4) 1 2 0 = Some blank_marked
  ∧ region_of blank_marked (-1) (1, 2)%nat = 0
  ∧ (∀ rc, rc ≠ (1, 2)%nat →
       region_of blank_marked (-1) rc = region_of (StarBattleApp.create_board 4) (-1) rc)
  ∧ StarBattleApp.solve 4 2 blank_marked never 5 ≠ StarBattleApp.ErrorNoRegion.
Proof.
  assert (0 ≤ 0) as Hcolor by lia.
  assert (StarBattleApp.mark_cell (StarBattleApp.create_board 4) 1 2 0 = Some blank_marked)
    as Hmark by reflexivity.
  split; [exact Hcolor|]. split; [exact Hmark|].
  exact (marked_cell_counts_as_region 4 2 (StarBattleApp.create_board 4) never 5 1 2 0 _
           Hcolor Hmark).
Defined.


(** The solved quadrant board is complete: every unit holds one star. *)
Lemma is_complete_iff_all_units_full_witness :
  consistent 4 quadrants 1 (-1) (tracked quadrants_solved)
  ∧ (is_complete (tracked quadrants_solved) = true
     ↔ (∀ r, (r < 4)%nat → stars_in (tracked quadrants_solved) (row_cells 4 r) = 1)
       ∧ (∀ c, (c < 4)%nat → stars_in (tracked quadrants_solved) (col_cells 4 c) = 1)
       ∧ ∀ rid, labeled 4 quadrants (-1) rid →
           stars_in (tracked quadrants_solved) (region_members 4 quadrants (-1) rid) = 1).
Proof.
  assert (consistent 4 quadrants 1 (-1) (tracked quadrants_solved)) as Hc.
  { apply sound_consistent. apply (solve_sound 4 quadrants 1 (-1) never 5), init_sound. }
  split; [exact Hc|].
  exact (is_complete_iff_all_units_full 4 quadrants 1 (-1) _ Hc).
Defined.

End Boards.
